(** * ExtensionLens: the diagnostics engine

    A shallow embedding of [src/ConflictDetector.ts] and [src/LogMonitor.ts]:
    the four conflict detectors, keybinding normalisation, the keybinding
    suggestion search, the two remediation paths, and the tail-bounded log
    reader with its multi-line parser.

    Conventions.
    - A JavaScript string is a sequence of UTF-16 code units.  The model
      covers the code units below 256 (Basic Latin and Latin-1 Supplement),
      one [ascii] per code unit, so a [string] here is a JavaScript string
      over that range.  Keybinding normalisation is also given over all
      code units, in [Utf16], where lower-casing reads surrogate pairs;
      the two agree on the strings of the model.
    - A JavaScript [Map] iterates in insertion order; it is an association
      list whose keys are kept in order of first insertion.
    - A JavaScript [Set] that is only queried with [has] is a [gset].
    - Host effects (documents, clipboard, notifications) are threaded
      through an explicit [World]. *)

From Stdlib Require Import Ascii String ZArith List Lia.
From Equations Require Import Equations.
From stdpp Require Import gmap strings list sorting pretty.

Local Open Scope Z_scope.
Local Open Scope nat_scope.

(** ** JavaScript string primitives *)

Module Js.

Definition chars (s : string) : list ascii := list_ascii_of_string s.
Definition str (l : list ascii) : string := string_of_list_ascii l.

(** [c.toLowerCase()] on one code unit below 256: [A-Z] and the Latin-1
    capitals U+00C0..U+00DE (the multiplication sign U+00D7 excepted) move
    up by 32, everything else is fixed. *)
Definition lowerChar (c : ascii) : ascii :=
  let n := N_of_ascii c in
  if ((65 <=? n) && (n <=? 90) ||
      (192 <=? n) && (n <=? 222) && negb (n =? 215))%N
  then ascii_of_N (n + 32) else c.

Definition toLowerCase (s : string) : string := str (map lowerChar (chars s)).

(** The class [\s] (and what [trim] removes) below 256: TAB, LF, VT, FF,
    CR, SPACE and NO-BREAK SPACE. *)
Definition isWhiteSpace (c : ascii) : bool :=
  let n := N_of_ascii c in
  ((9 <=? n) && (n <=? 13) || (n =? 32) || (n =? 160))%N.

(** What [.] refuses to match: the line terminators LF and CR. *)
Definition isLineTerminator (c : ascii) : bool :=
  let n := N_of_ascii c in ((n =? 10) || (n =? 13))%N.

(** [s.replace(/\s+/g, '')] *)
Definition removeWhiteSpace (s : string) : string :=
  str (filter (λ c, isWhiteSpace c = false) (chars s)).

(** [p] is a prefix of [s], on code units. *)
Fixpoint startsWithChars (p s : list ascii) : bool :=
  match p, s with
  | [], _ => true
  | a :: p', b :: s' => bool_decide (a = b) && startsWithChars p' s'
  | _ :: _, [] => false
  end.

(** [s.replace(/p/g, r)] for a literal, non-empty pattern [p]: scan from
    the left; at a position where [p] matches emit [r] and resume after the
    match, otherwise copy one code unit. *)
Equations? replaceAllChars (p r s : list ascii) : list ascii
  by wf (length s) lt :=
  replaceAllChars p r [] := [];
  replaceAllChars p r (c :: s') :=
    if startsWithChars p (c :: s')
    then r ++ replaceAllChars p r (drop (length p - 1) s')
    else c :: replaceAllChars p r s'.
Proof. all: simpl; try rewrite length_drop; lia. Qed.

Definition replaceAll (p r s : string) : string :=
  str (replaceAllChars (chars p) (chars r) (chars s)).

(** [s.includes(p)] *)
Fixpoint includesChars (p s : list ascii) : bool :=
  startsWithChars p s ||
  match s with
  | [] => false
  | _ :: s' => includesChars p s'
  end.

Definition includes (p s : string) : bool := includesChars (chars p) (chars s).

Definition startsWith (p s : string) : bool :=
  startsWithChars (chars p) (chars s).

(** [s.endsWith(p)] *)
Definition endsWith (p s : string) : bool :=
  startsWithChars (rev (chars p)) (rev (chars s)).

(** [s.split('\n')]: always at least one piece. *)
Fixpoint splitChars (sep : ascii) (cur : list ascii) (s : list ascii)
  : list (list ascii) :=
  match s with
  | [] => [rev cur]
  | c :: s' =>
      if bool_decide (c = sep) then rev cur :: splitChars sep [] s'
      else splitChars sep (c :: cur) s'
  end.

Definition LF : ascii := ascii_of_N 10.

Definition splitLines (s : string) : list string :=
  map str (splitChars LF [] (chars s)).

(** Truthiness of [s.trim()]: some code unit is not white space. *)
Definition trimNonEmpty (s : string) : bool :=
  existsb (λ c, negb (isWhiteSpace c)) (chars s).

(** [a || b] on an optional string: [undefined] and [''] are falsy. *)
Definition orElse (a : option string) (b : option string) : option string :=
  match a with
  | Some s => if bool_decide (s = EmptyString) then b else Some s
  | None => b
  end.

(** What the tests [if (!v) continue] and [if (v)] let through: the value
    of a string that is neither [undefined] nor ['']. *)
Definition truthy (v : option string) : option string := orElse v None.

(** [arr.sort(compare)], which is stable: with [R a b] for
    [compare(a, b) <= 0], an element goes before the first element of the
    sorted rest that it does not follow, so before its equals that came
    after it. *)
Fixpoint insertStable {A} (R : relation A) `{!RelDecision R}
  (x : A) (sorted : list A) : list A :=
  match sorted with
  | [] => [x]
  | y :: rest =>
      if decide (R x y) then x :: sorted else y :: insertStable R x rest
  end.

Definition sortStable {A} (R : relation A) `{!RelDecision R} (l : list A)
  : list A :=
  foldr (insertStable R) [] l.

(** [arr.sort()] on strings: the default comparison orders by code units. *)
Definition sortStrings (l : list string) : list string :=
  merge_sort String.le l.

(** [a > b] and [a >= b] on array lengths. *)
#[global] Instance nat_gt_dec : RelDecision gt := λ a b, decide (b < a).
#[global] Instance nat_ge_dec : RelDecision ge := λ a b, decide (b ≤ a).

(** The double quote, for template strings that contain one. *)
Definition dq : string := String (ascii_of_N 34) EmptyString.

End Js.

(** ** Strings as UTF-16 code units

    The same primitives over all code units, for what depends on the code
    units from 256 on: [toLowerCase] maps code points, so it reads a
    surrogate pair as one. *)

Module Utf16.

Definition isLeadSurrogate (u : N) : bool :=
  ((55296 <=? u) && (u <=? 56319))%N.

Definition isTrailSurrogate (u : N) : bool :=
  ((56320 <=? u) && (u <=? 57343))%N.

(** [StringToCodePoints]: a lead surrogate followed by a trail surrogate
    is one code point; any other code unit, an unpaired surrogate included,
    is a code point by itself. *)
Fixpoint codePoints (s : list N) : list N :=
  match s with
  | [] => []
  | u :: s' =>
      match s' with
      | v :: s'' =>
          if isLeadSurrogate u && isTrailSurrogate v
          then (65536 + (u - 55296) * 1024 + (v - 56320))%N :: codePoints s''
          else u :: codePoints s'
      | [] => [u]
      end
  end.

(** [CodePointsToString] *)
Definition codeUnits (cp : N) : list N :=
  if (cp <? 65536)%N then [cp]
  else [(55296 + (cp - 65536) / 1024)%N; (56320 + (cp - 65536) mod 1024)%N].

Definition ofCodePoints (cps : list N) : list N := flat_map codeUnits cps.

(** The class [\s] on a code unit: the white space and line terminator
    code points of the language. *)
Definition isWhiteSpace (u : N) : bool :=
  ((9 <=? u) && (u <=? 13) || (u =? 32) || (u =? 160) || (u =? 5760) ||
   (8192 <=? u) && (u <=? 8202) || (u =? 8232) || (u =? 8233) ||
   (u =? 8239) || (u =? 8287) || (u =? 12288) || (u =? 65279))%N.

(** [s.replace(/\s+/g, '')] *)
Definition removeWhiteSpace (s : list N) : list N :=
  filter (λ u, isWhiteSpace u = false) s.

Fixpoint startsWith (p s : list N) : bool :=
  match p, s with
  | [], _ => true
  | a :: p', b :: s' => bool_decide (a = b) && startsWith p' s'
  | _ :: _, [] => false
  end.

(** [s.replace(/p/g, r)] for a literal, non-empty pattern [p]. *)
Equations? replaceAll (p r s : list N) : list N by wf (length s) lt :=
  replaceAll p r [] := [];
  replaceAll p r (c :: s') :=
    if startsWith p (c :: s')
    then r ++ replaceAll p r (drop (length p - 1) s')
    else c :: replaceAll p r s'.
Proof. all: simpl; try rewrite length_drop; lia. Qed.

(** The code units of a string literal of the source. *)
Definition ofString (s : string) : list N := map N_of_ascii (Js.chars s).

Section Host.

(** Unicode's [toLowercase] on a sequence of code points: the host's
    tables. *)
Variable toLowercase : list N → list N.

(** [s.toLowerCase()] *)
Definition toLowerCase (s : list N) : list N :=
  ofCodePoints (toLowercase (codePoints s)).

(** [normalizeKeybinding(key)] of [ConflictDetector.ts] *)
Definition normalizeKeybinding (key : list N) : list N :=
  replaceAll (ofString "meta+") (ofString "cmd+")
    (replaceAll (ofString "command+") (ofString "cmd+")
      (replaceAll (ofString "option+") (ofString "alt+")
        (replaceAll (ofString "control+") (ofString "ctrl+")
          (removeWhiteSpace (toLowerCase key))))).

End Host.

End Utf16.

(** ** Insertion-ordered maps *)

Module JsMap.

(** The entries, oldest key first. *)
Abbreviation t V := (list (string * V)).

Section Ordered.
Context {V : Type}.

Definition empty : t V := [].

Fixpoint get (k : string) (m : t V) : option V :=
  match m with
  | [] => None
  | (k', v) :: m' => if bool_decide (k' = k) then Some v else get k m'
  end.

Definition has (k : string) (m : t V) : bool :=
  match get k m with Some _ => true | None => false end.

(** [m.set(k, v)]: an existing key keeps its position. *)
Fixpoint set (k : string) (v : V) (m : t V) : t V :=
  match m with
  | [] => [(k, v)]
  | (k', v') :: m' =>
      if bool_decide (k' = k) then (k', v) :: m' else (k', v') :: set k v m'
  end.

Definition entries (m : t V) : list (string * V) := m.
Definition keys (m : t V) : list string := m.*1.
Definition size (m : t V) : nat := length m.

End Ordered.

(** [m.get(k)!.push(x)]: the array stored under [k] is extended in place. *)
Fixpoint pushAt {A} (k : string) (x : A) (m : t (list A)) : t (list A) :=
  match m with
  | [] => []
  | (k', v) :: m' =>
      if bool_decide (k' = k) then (k', v ++ [x]) :: m'
      else (k', v) :: pushAt k x m'
  end.

(** [if (!m.has(k)) m.set(k, []); m.get(k)!.push(x)] *)
Definition addTo {A} (k : string) (x : A) (m : t (list A)) : t (list A) :=
  let m1 := if has k m then m else set k [] m in
  pushAt k x m1.

End JsMap.

(** ** The host: registry snapshot, documents, clipboard, notifications *)

Module Host.

Record CommandContribution := {
  command : string;
  title : option string
}.

(** A keybinding contribution with its platform variants. *)
Record KeybindingContribution := {
  key : option string;
  mac : option string;
  linux : option string;
  win : option string;
  kb_command : string
}.

Record Contributes := {
  commands : option (list CommandContribution);
  keybindings : option (list KeybindingContribution)
}.

Record PackageJSON := {
  name : string;
  displayName : option string;
  contributes : option Contributes;
  activationEvents : option (list string)
}.

(** One element of [vscode.extensions.all]. *)
Record Extension := {
  ext_id : string;
  isActive : bool;
  extensionUri : string;
  packageJSON : PackageJSON
}.

(** The parsed form of a [package.json] text: the [activationEvents] member
    (absent, or an array of strings) and the remaining members, which the
    engine carries along untouched. *)
Record ManifestJson := {
  json_activationEvents : option (list string);
  json_rest : string
}.

(** A text document, identified with what [JSON.parse] makes of it;
    [JSON.stringify] of a parsed value parses back to that value. *)
Inductive Document :=
| Unparsable
| Json (json : ManifestJson).

(** [edit.replace(uri, wholeRange, text)] *)
Definition Replacement : Type := string * Document.
Definition WorkspaceEdit : Type := list Replacement.

Inductive Notification :=
| Information (message : string)
| Failure (message : string).

Record World := {
  extensions : list Extension;
  runtimeCommands : gset string;
  documents : gmap string Document;
  clipboard : option string;
  notifications : list Notification;
  (** every [WorkspaceEdit] handed to [applyEdit], oldest first *)
  editRequests : list WorkspaceEdit;
  (** whether the host carries out the edits it is handed *)
  editsAccepted : bool;
  (** the button the user presses on an information message, if any *)
  selection : option string
}.

(** Computations against the host. *)
Definition M (A : Type) : Type := World → A * World.

#[global] Instance M_ret : MRet M := λ A a w, (a, w).

#[global] Instance M_bind : MBind M :=
  λ A B f m w, let '(a, w') := m w in f a w'.

Definition getExtensions : M (list Extension) := λ w, (extensions w, w).

(** [vscode.commands.getCommands(true)] *)
Definition getCommands : M (gset string) := λ w, (runtimeCommands w, w).

(** [vscode.extensions.getExtension(id)] *)
Definition getExtension (extId : string) : M (option Extension) :=
  λ w, (List.find (λ e, bool_decide (ext_id e = extId)) (extensions w), w).

(** [vscode.workspace.openTextDocument(uri)]; [None] when it throws. *)
Definition openTextDocument (uri : string) : M (option Document) :=
  λ w, (documents w !! uri, w).

Definition withNotification (n : Notification) (w : World) : World :=
  {| extensions := extensions w; runtimeCommands := runtimeCommands w;
     documents := documents w; clipboard := clipboard w;
     notifications := notifications w ++ [n];
     editRequests := editRequests w; editsAccepted := editsAccepted w;
     selection := selection w |}.

(** [vscode.window.showInformationMessage(message, ...items)]: resolves to
    the item the user picked, or to [undefined]. *)
Definition showInformationMessage (message : string) (items : list string)
  : M (option string) :=
  λ w, (match selection w with
        | Some s => if bool_decide (s ∈ items) then Some s else None
        | None => None
        end, withNotification (Information message) w).

Definition showErrorMessage (message : string) : M unit :=
  λ w, (tt, withNotification (Failure message) w).

(** [vscode.env.clipboard.writeText(text)] *)
Definition clipboardWriteText (text : string) : M unit :=
  λ w, (tt,
    {| extensions := extensions w; runtimeCommands := runtimeCommands w;
       documents := documents w; clipboard := Some text;
       notifications := notifications w;
       editRequests := editRequests w; editsAccepted := editsAccepted w;
       selection := selection w |}).

(** The documents after the replacements of [edit], applied in order. *)
Definition applyReplacements (edit : WorkspaceEdit) (docs : gmap string Document)
  : gmap string Document :=
  fold_left (λ d (r : Replacement), <[r.1 := r.2]> d) edit docs.

(** [vscode.workspace.applyEdit(edit)]: all of the edit or none of it. *)
Definition applyEdit (edit : WorkspaceEdit) : M bool :=
  λ w, (editsAccepted w,
    {| extensions := extensions w; runtimeCommands := runtimeCommands w;
       documents := if editsAccepted w
                    then applyReplacements edit (documents w)
                    else documents w;
       clipboard := clipboard w;
       notifications := notifications w;
       editRequests := editRequests w ++ [edit];
       editsAccepted := editsAccepted w;
       selection := selection w |}).

(** [for (const x of xs) body], threading an accumulator. *)
Fixpoint forEach {A S} (xs : list A) (body : S → A → M S) (s : S) : M S :=
  match xs with
  | [] => mret s
  | x :: xs' => s' ← body s x; forEach xs' body s'
  end.

End Host.

(** ** [ConflictDetector.ts] *)

Module ConflictDetector.
Import Host.

Inductive ConflictType := TypeCommand | TypeKeybinding | TypeActivation | TypeRegistration.
Inductive Severity := Warning | Error.

Record Conflict := {
  c_type : ConflictType;
  c_id : string;
  sources : list string;
  severity : Severity;
  description : string;
  extensionId : option string
}.

#[global] Instance ConflictType_eq_dec : EqDecision ConflictType.
Proof. solve_decision. Defined.
#[global] Instance Severity_eq_dec : EqDecision Severity.
Proof. solve_decision. Defined.

(** [ext.packageJSON.contributes?.commands || []] *)
Definition commandsOf (ext : Extension) : list CommandContribution :=
  match contributes (packageJSON ext) with
  | Some c => default [] (commands c)
  | None => []
  end.

(** [ext.packageJSON.contributes?.keybindings || []] *)
Definition keybindingsOf (ext : Extension) : list KeybindingContribution :=
  match contributes (packageJSON ext) with
  | Some c => default [] (keybindings c)
  | None => []
  end.

(** [ext.packageJSON.activationEvents || []] *)
Definition activationEventsOf (ext : Extension) : list string :=
  default [] (activationEvents (packageJSON ext)).

(** [ext.packageJSON.displayName || ext.packageJSON.name] *)
Definition sourceNameOf (ext : Extension) : string :=
  default EmptyString
    (Js.orElse (displayName (packageJSON ext)) (Some (name (packageJSON ext)))).

(** [kb.key || kb.mac || kb.linux || kb.win] *)
Definition representativeKey (kb : KeybindingContribution) : option string :=
  Js.orElse (Js.orElse (Js.orElse (key kb) (mac kb)) (linux kb)) (win kb).

Definition normalizeKeybinding (key : string) : string :=
  Js.replaceAll "meta+" "cmd+"
    (Js.replaceAll "command+" "cmd+"
      (Js.replaceAll "option+" "alt+"
        (Js.replaceAll "control+" "ctrl+"
          (Js.removeWhiteSpace (Js.toLowerCase key))))).

Definition detectCommandConflicts (all : list Extension) : list Conflict :=
  let commandMap :=
    fold_left (λ commandMap ext,
      fold_left (λ commandMap cmd,
        JsMap.addTo (command cmd) (sourceNameOf ext) commandMap)
        (commandsOf ext) commandMap)
      all JsMap.empty in
  fold_left (λ conflicts (entry : string * list string),
    let '(cmdId, sources) := entry in
    if bool_decide (length sources > 1) then
      conflicts ++ [{|
        c_type := TypeCommand;
        c_id := cmdId;
        sources := sources;
        severity := Error;
        description := "Command " +:+ Js.dq +:+ cmdId +:+ Js.dq +:+
                       " is registered by multiple extensions";
        extensionId := None |}]
    else conflicts)
    (JsMap.entries commandMap) [].

Definition detectKeybindingConflicts (all : list Extension) : list Conflict :=
  let keybindingMap :=
    fold_left (λ keybindingMap ext,
      fold_left (λ keybindingMap kb,
        match Js.truthy (representativeKey kb) with
        | None => keybindingMap
        | Some key =>
            JsMap.addTo (normalizeKeybinding key)
              (sourceNameOf ext, kb_command kb) keybindingMap
        end)
        (keybindingsOf ext) keybindingMap)
      all JsMap.empty in
  fold_left (λ conflicts (entry : string * list (string * string)),
    let '(key, bindings) := entry in
    if bool_decide (length bindings > 1) then
      conflicts ++ [{|
        c_type := TypeKeybinding;
        c_id := key;
        sources := map (λ b : string * string, b.1 +:+ " (" +:+ b.2 +:+ ")") bindings;
        severity := Warning;
        description := "Keybinding " +:+ Js.dq +:+ key +:+ Js.dq +:+
                       " is used by multiple commands";
        extensionId := None |}]
    else conflicts)
    (JsMap.entries keybindingMap) [].

Definition isBuiltIn (ext : Extension) : bool :=
  Js.startsWith "vscode." (ext_id ext) || Js.startsWith "microsoft." (ext_id ext).

Definition ghostCommand (ext : Extension) (cmdId : string) : Conflict :=
  {| c_type := TypeRegistration;
     c_id := cmdId;
     sources := [sourceNameOf ext];
     extensionId := Some (ext_id ext);
     severity := Error;
     description := "Command " +:+ Js.dq +:+ cmdId +:+ Js.dq +:+
       " is defined in package.json but not registered in code. Users will see "
       +:+ Js.dq +:+ "Command not found" +:+ Js.dq +:+ "." |}.

Definition missingActivationEvent (ext : Extension) (cmdId : string) : Conflict :=
  {| c_type := TypeRegistration;
     c_id := cmdId;
     sources := [sourceNameOf ext];
     extensionId := Some (ext_id ext);
     severity := Warning;
     description := "Command " +:+ Js.dq +:+ cmdId +:+ Js.dq +:+ " is missing "
       +:+ Js.dq +:+ "onCommand:" +:+ cmdId +:+ Js.dq +:+
       " in activationEvents. It may fail to trigger if the extension isn't already active." |}.

Definition eagerActivation (ext : Extension) : Conflict :=
  {| c_type := TypeActivation;
     c_id := "*";
     sources := [sourceNameOf ext];
     severity := Warning;
     description := "Extension uses wildcard activation (" +:+ Js.dq +:+ "*"
       +:+ Js.dq +:+ "). This significantly impacts VS Code startup time.";
     extensionId := None |}.

Definition detectRegistrationMismatches
  (runtimeCommands : gset string) (all : list Extension) : list Conflict :=
  fold_left (λ conflicts ext,
    if isBuiltIn ext then conflicts
    else
      let manifestCommands := commandsOf ext in
      let activationEvents := activationEventsOf ext in
      let conflicts :=
        fold_left (λ conflicts cmd,
          let cmdId := command cmd in
          let conflicts :=
            if negb (bool_decide (cmdId ∈ runtimeCommands)) && isActive ext
            then conflicts ++ [ghostCommand ext cmdId]
            else conflicts in
          let hasOnCommand :=
            bool_decide ("onCommand:" +:+ cmdId ∈ activationEvents) in
          let hasWildcard :=
            bool_decide ("*" ∈ activationEvents) ||
            bool_decide ("onStartupFinished" ∈ activationEvents) in
          if negb hasOnCommand && negb hasWildcard
          then conflicts ++ [missingActivationEvent ext cmdId]
          else conflicts)
          manifestCommands conflicts in
      if bool_decide ("*" ∈ activationEvents)
      then conflicts ++ [eagerActivation ext]
      else conflicts)
    all [].

Definition detectActivationConflicts (all : list Extension) : list Conflict :=
  let activationMap :=
    fold_left (λ activationMap ext,
      fold_left (λ activationMap event,
        if bool_decide (event = "*") || bool_decide (event = "onStartupFinished")
        then activationMap
        else JsMap.addTo event (sourceNameOf ext) activationMap)
        (activationEventsOf ext) activationMap)
      all JsMap.empty in
  fold_left (λ conflicts (entry : string * list string),
    let '(event, sources) := entry in
    if bool_decide (length sources > 2) then
      conflicts ++ [{|
        c_type := TypeActivation;
        c_id := event;
        sources := sources;
        severity := Warning;
        description := "Multiple extensions (" +:+ pretty (length sources) +:+
                       ") activate on " +:+ Js.dq +:+ event +:+ Js.dq +:+
                       ". This may impact editor responsiveness.";
        extensionId := None |}]
    else conflicts)
    (JsMap.entries activationMap) [].

Definition detectConflicts (runtimeCommands : gset string) (all : list Extension)
  : list Conflict :=
  detectCommandConflicts all ++ detectKeybindingConflicts all ++
  detectActivationConflicts all ++ detectRegistrationMismatches runtimeCommands all.

(** *** Keybinding suggestions *)

Definition modifiers : list string :=
  ["ctrl+shift"; "ctrl+alt"; "alt+shift"; "ctrl+shift+alt"].

Definition keys : list string :=
  ["f1"; "f2"; "f3"; "f4"; "f5"; "f6"; "f7"; "f8"; "f9"; "f10"; "f11"; "f12";
   "a"; "b"; "c"; "d"; "e"; "f"; "g"; "h"; "i"; "j"; "k"; "l"; "m";
   "n"; "o"; "p"; "q"; "r"; "s"; "t"; "u"; "v"; "w"; "x"; "y"; "z";
   "1"; "2"; "3"; "4"; "5"; "6"; "7"; "8"; "9"; "0"].

(** The set of all currently used keybindings, normalised. *)
Definition usedBindingsOf (all : list Extension) : gset string :=
  fold_left (λ usedBindings ext,
    fold_left (λ usedBindings kb,
      match Js.truthy (representativeKey kb) with
      | Some key => {[ normalizeKeybinding key ]} ∪ usedBindings
      | None => usedBindings
      end)
      (keybindingsOf ext) usedBindings)
    all ∅.

(** The outcome of a loop body that may [return] from the function. *)
Inductive Loop (A : Type) :=
| Continue (a : A)
| Return (a : A).
Arguments Continue {A} a.
Arguments Return {A} a.

(** The inner loop, over [keys], for one modifier. *)
Fixpoint suggestKeys (usedBindings : gset string) (modifier : string)
  (keys : list string) (suggestions : list string) : Loop (list string) :=
  match keys with
  | [] => Continue suggestions
  | key :: keys' =>
      let binding := modifier +:+ "+" +:+ key in
      let normalized := normalizeKeybinding binding in
      if negb (bool_decide (normalized ∈ usedBindings)) then
        let suggestions := suggestions ++ [binding] in
        if bool_decide (length suggestions >= 10) then Return suggestions
        else suggestKeys usedBindings modifier keys' suggestions
      else suggestKeys usedBindings modifier keys' suggestions
  end.

(** The outer loop, over [modifiers]. *)
Fixpoint suggestModifiers (usedBindings : gset string)
  (modifiers : list string) (suggestions : list string) : list string :=
  match modifiers with
  | [] => suggestions
  | modifier :: modifiers' =>
      match suggestKeys usedBindings modifier keys suggestions with
      | Return suggestions => suggestions
      | Continue suggestions =>
          suggestModifiers usedBindings modifiers' suggestions
      end
  end.

Definition suggestAlternativeKeybindings
  (currentBinding : string) (all : list Extension) : list string :=
  let usedBindings := usedBindingsOf all in
  suggestModifiers usedBindings modifiers [].

(** *** Details of a keybinding conflict *)

(** [getConflictDetails(conflict)]: the command ids and the component ids
    of the keybindings that normalise to the conflict's id; both empty for a
    conflict of another type. *)
Definition getConflictDetails (conflict : Conflict) (all : list Extension)
  : list string * list string :=
  if bool_decide (c_type conflict = TypeKeybinding) then
    fold_left (λ (details : list string * list string) ext,
      fold_left (λ (details : list string * list string) kb,
        let '(commandIds, extensionIds) := details in
        match Js.truthy (representativeKey kb) with
        | Some key =>
            if bool_decide (normalizeKeybinding key =
                            normalizeKeybinding (c_id conflict))
            then (commandIds ++ [kb_command kb], extensionIds ++ [ext_id ext])
            else (commandIds, extensionIds)
        | None => (commandIds, extensionIds)
        end)
        (keybindingsOf ext) details)
      all ([], [])
  else ([], []).

(** *** Remediation *)

Definition fixMissingActivationEvents (conflict : Conflict) : M bool :=
  let newEvent := "onCommand:" +:+ c_id conflict in
  let message := "To fix this, add " +:+ Js.dq +:+ newEvent +:+ Js.dq +:+
                 " to 'activationEvents' in package.json." in
  selection ← showInformationMessage
                ("Manual Fix Required: " +:+ message) ["Copy to Clipboard"];
  (if bool_decide (selection = Some "Copy to Clipboard") return M unit
   then clipboardWriteText newEvent
   else mret tt);;
  mret true.

(** [vscode.Uri.joinPath(uri, 'package.json')] *)
Definition packageJsonUriOf (extension : Extension) : string :=
  extensionUri extension +:+ "/package.json".

(** The inner loop of the batch fix: push each missing [onCommand:] event. *)
Definition patchActivationEvents
  (activationEvents : list string) (commandIds : list string) : list string :=
  fold_left (λ activationEvents cmdId,
    let newEvent := "onCommand:" +:+ cmdId in
    if negb (bool_decide (newEvent ∈ activationEvents))
    then activationEvents ++ [newEvent]
    else activationEvents)
    commandIds activationEvents.

(** The filter of the batch fix: a [registration] conflict with a truthy
    [extensionId] whose description includes the words [missing], a double
    quote, [onCommand:]. *)
Definition isMissingEvent (c : Conflict) : bool :=
  bool_decide (c_type c = TypeRegistration) &&
  match extensionId c with
  | Some e => negb (bool_decide (e = EmptyString))
  | None => false
  end &&
  Js.includes ("missing " +:+ Js.dq +:+ "onCommand:") (description c).

(** The body of the loop over [extensionGroups]: at most one replacement
    is added to [edit]. *)
Definition patchGroup (edit : WorkspaceEdit) (group : string * list string)
  : M WorkspaceEdit :=
  let '(extId, commandIds) := group in
  extension ← getExtension extId;
  match extension with
  | None => mret edit
  | Some extension =>
      let packageJsonUri := packageJsonUriOf extension in
      document ← openTextDocument packageJsonUri;
      match document with
      | Some (Json json) =>
          let activationEvents0 := default [] (json_activationEvents json) in
          let originalCount := length activationEvents0 in
          let activationEvents :=
            patchActivationEvents activationEvents0 commandIds in
          if bool_decide (length activationEvents > originalCount)
          then mret (edit ++ [(packageJsonUri,
                 Json {| json_activationEvents :=
                           Some (Js.sortStrings activationEvents);
                         json_rest := json_rest json |})])
          else mret edit
      | _ =>
          (* the text goes on with the caught error as the host renders
             it *)
          showErrorMessage
            ("Failed to process package.json for " +:+ extId +:+ ": ");;
          mret edit
      end
  end.

Definition fixAllMissingActivationEvents : M bool :=
  all ← getExtensions;
  runtimeCommands ← getCommands;
  let conflicts := detectRegistrationMismatches runtimeCommands all in
  let missingEvents := List.filter isMissingEvent conflicts in
  if bool_decide (length missingEvents = 0) then
    showInformationMessage "No missing activation events detected." [];;
    mret true
  else
    let extensionGroups :=
      fold_left (λ extensionGroups conflict,
        JsMap.addTo (default EmptyString (extensionId conflict))
          (c_id conflict) extensionGroups)
        missingEvents JsMap.empty in
    edit ← forEach (JsMap.entries extensionGroups) patchGroup [];
    success ← applyEdit edit;
    (if (success : bool) return M unit
     then showInformationMessage
            ("Successfully updated activationEvents for " +:+
             pretty (JsMap.size extensionGroups) +:+ " extensions.") [];;
          mret tt
     else mret tt);;
    mret success.

End ConflictDetector.

(** ** [LogMonitor.ts] *)

Module LogMonitor.

Inductive Level := LevelInfo | LevelWarn | LevelError | LevelDebug.

Record LogEntry := {
  timestamp : string;
  level : Level;
  message : string;
  source : string
}.

#[global] Instance Level_eq_dec : EqDecision Level.
Proof. solve_decision. Defined.
#[global] Instance LogEntry_eq_dec : EqDecision LogEntry.
Proof. solve_decision. Defined.

Definition normalizeLevel (level : string) : Level :=
  let level := Js.toLowerCase level in
  if Js.includes "err" level then LevelError
  else if Js.includes "warn" level then LevelWarn
  else if Js.includes "debug" level || Js.includes "trace" level then LevelDebug
  else LevelInfo.

(** A lazy any-character group followed by the literal [sep] and the rest
    of the pattern [k]: the group grows one code unit at a time, never over a line
    terminator, until what follows it matches. *)
Fixpoint lazyGroup {A} (sep : list ascii)
  (k : list ascii → list ascii → option A) (group s : list ascii) : option A :=
  match (if Js.startsWithChars sep s
         then k (rev group) (drop (length sep) s) else None) with
  | Some r => Some r
  | None =>
      match s with
      | [] => None
      | c :: s' =>
          if Js.isLineTerminator c then None
          else lazyGroup sep k (c :: group) s'
      end
  end.

(** The greedy any-character group anchored at the end of the input. *)
Definition greedyToEnd (s : list ascii) : option (list ascii) :=
  if forallb (λ c, negb (Js.isLineTerminator c)) s then Some s else None.

(** [line.match(regExp)]: a bracket, three lazy groups closed by
    bracket-space-bracket, bracket-space-bracket and bracket-space, then a
    greedy group up to the end of the line; the result holds the four
    groups. *)
Definition matchLine (line : string) : option (string * string * string * string) :=
  match Js.chars line with
  | c :: s1 =>
      if bool_decide (c = "["%char) then
        lazyGroup (Js.chars "] [") (λ g1 s2,
          lazyGroup (Js.chars "] [") (λ g2 s3,
            lazyGroup (Js.chars "] ") (λ g3 s4,
              match greedyToEnd s4 with
              | Some g4 => Some (Js.str g1, Js.str g2, Js.str g3, Js.str g4)
              | None => None
              end) [] s3) [] s2) [] s1
      else None
  | [] => None
  end.

Definition newline : string := String Js.LF EmptyString.

(** [entries[entries.length - 1].message += '\n' + line] *)
Definition appendToLast (entries : list LogEntry) (line : string) : list LogEntry :=
  alter (λ e, {| timestamp := timestamp e; level := level e;
                 message := message e +:+ newline +:+ line;
                 source := source e |})
        (length entries - 1) entries.

(** One iteration of the loop over the lines. *)
Definition parseLine (source : string) (entries : list LogEntry) (line : string)
  : list LogEntry :=
  match matchLine line with
  | Some (m1, m2, m3, m4) =>
      entries ++ [{|
        timestamp := m1;
        source := if bool_decide (m2 = "exthost") then source else m2;
        level := normalizeLevel m3;
        message := m4 |}]
  | None =>
      if Js.trimNonEmpty line && bool_decide (length entries > 0)
      then appendToLast entries line
      else entries
  end.

Definition parseLogContent (content : string) (source : string) : list LogEntry :=
  let lines := Js.splitLines content in
  fold_left (parseLine source) lines [].

(** *** Reading the log store *)

(** What a source's log directory holds under one name. *)
Inductive Node :=
| File (content : list Byte.byte)
| Folder.

(** What the root log directory holds under one name: a source's
    directory with its listing, or something that is not a directory. *)
Inductive RootNode :=
| SourceDirectory (entries : list (string * Node))
| Other.

Definition MAX_BYTES : Z := 50 * 1024.

Definition TRUNCATED : string := "...[TRUNCATED]..." +:+ newline.

Section Reading.

(** [Buffer.toString('utf8')]: the decoder is the host's. *)
Variable utf8 : list Byte.byte → string.

(** [a.localeCompare(b)]: the collation is the host's. *)
Variable localeCompare : string → string → Z.

(** [readFile(uri)] on what is stored at [uri]; every failure yields ['']. *)
Definition readFile (node : option Node) : string :=
  match node with
  | Some (File content) =>
      let size := Z.of_nat (length content) in
      if (size <=? MAX_BYTES)%Z then utf8 content
      else
        (* fd.read(buffer, 0, MAX_BYTES, size - MAX_BYTES) *)
        let buffer :=
          take (Z.to_nat MAX_BYTES)
               (drop (Z.to_nat (size - MAX_BYTES)) content) in
        TRUNCATED +:+ utf8 buffer
  | _ => EmptyString
  end.

Definition isLogFile (entry : string * Node) : bool :=
  match entry.2 with
  | File _ => Js.endsWith ".log" entry.1
  | Folder => false
  end.

(** [vscode.workspace.fs.readDirectory(joinPath(rootLogUri, name))];
    [None] when there is no root or no such directory. *)
Definition readDirectory (root : option (list (string * RootNode)))
  (name : string) : option (list (string * Node)) :=
  match root with
  | Some rootEntries =>
      match List.find (λ e : string * RootNode, bool_decide (e.1 = name))
                      rootEntries with
      | Some (_, SourceDirectory entries) => Some entries
      | _ => None
      end
  | None => None
  end.

Definition timestampLe (a b : LogEntry) : Prop :=
  (localeCompare (timestamp a) (timestamp b) ≤ 0)%Z.

#[local] Instance timestampLe_dec : RelDecision timestampLe.
Proof. intros a b. unfold timestampLe. apply _. Defined.

(** [getLogs(extensionId)] against the root log directory [root]
    ([None] when it cannot be determined). *)
Definition getLogs (root : option (list (string * RootNode)))
  (extensionId : string) : list LogEntry :=
  match readDirectory root extensionId with
  | Some entries =>
      let logFiles := List.filter isLogFile entries in
      let allLogs :=
        fold_left (λ allLogs (file : string * Node),
          allLogs ++ parseLogContent (readFile (Some file.2)) extensionId)
          logFiles [] in
      Js.sortStable timestampLe allLogs
  | None => []
  end.

(** [getLoggedExtensions()]: the names of the directories under the root
    log directory; nothing when there is no root or it cannot be listed. *)
Definition getLoggedExtensions (root : option (list (string * RootNode)))
  : list string :=
  match root with
  | Some rootEntries =>
      map fst
        (List.filter (λ e : string * RootNode,
           match e.2 with SourceDirectory _ => true | Other => false end)
           rootEntries)
  | None => []
  end.

(** The comparison [(a, b) => b.timestamp.localeCompare(a.timestamp)]. *)
Definition timestampGe (a b : LogEntry) : Prop :=
  (localeCompare (timestamp b) (timestamp a) ≤ 0)%Z.

#[local] Instance timestampGe_dec : RelDecision timestampGe.
Proof. intros a b. unfold timestampGe. apply _. Defined.

(** [arr.slice(0, limit)] for an integer [limit]: a negative limit counts
    from the end. *)
Definition sliceFromStart {A} (limit : Z) (l : list A) : list A :=
  if (limit <? 0)%Z
  then take (Z.to_nat (Z.of_nat (length l) + limit)) l
  else take (Z.to_nat limit) l.

(** [getRecentErrors(limit)], with [limit] defaulting to 50; [rootLogUri]
    is the path of the root log directory when it can be determined. *)
Definition getRecentErrors (rootLogUri : option string)
  (root : option (list (string * RootNode))) (limit : option Z)
  : Host.M (list LogEntry) :=
  let limit := default 50%Z limit in
  match rootLogUri return Host.M unit with
  | Some fsPath =>
      Host.showInformationMessage ("ExtensionLens Scanning: " +:+ fsPath) [];;
      mret tt
  | None => mret tt
  end;;
  let extensions := getLoggedExtensions root in
  let allErrors :=
    fold_left (λ allErrors extId,
      allErrors ++
      List.filter (λ l, bool_decide (level l = LevelError)) (getLogs root extId))
      extensions [] in
  mret (sliceFromStart limit (Js.sortStable timestampGe allErrors)).

End Reading.

End LogMonitor.

(** * Specification vocabulary

    What the statements below are written in: occurrences of a pattern in a
    string, the owner lists of the detectors, the per-component view of the
    registration detector, the candidate bindings, the planned edit of the
    batch fix, header lines, and the concrete instances used as witnesses. *)

Section Vocabulary.
Import Js Host ConflictDetector LogMonitor.

Definition infixOf (q s : list ascii) : Prop := ∃ a b, s = a ++ q ++ b.

Definition comparable (x y : list ascii) : bool :=
  startsWithChars x y || startsWithChars y x.

Definition apart (q r : list ascii) : bool :=
  forallb (λ i, negb (comparable (drop i r) q)) (seq 0 (length r)) &&
  forallb (λ j, negb (comparable (drop j q) r)) (seq 0 (length q)).

(** A code unit that lower-casing and white-space removal leave alone. *)
Definition settled (c : ascii) : Prop :=
  lowerChar c = c ∧ isWhiteSpace c = false.

(** The pipeline of [normalizeKeybinding] on code units. *)
Definition normalizeChars (l : list ascii) : list ascii :=
  replaceAllChars (chars "meta+") (chars "cmd+")
    (replaceAllChars (chars "command+") (chars "cmd+")
      (replaceAllChars (chars "option+") (chars "alt+")
        (replaceAllChars (chars "control+") (chars "ctrl+")
          (filter (λ c, isWhiteSpace c = false) (map lowerChar l))))).

(** What a normalised keybinding looks like: settled code units and none of
    the four aliases. *)
Definition canonical (l : list ascii) : Prop :=
  Forall settled l ∧
  ¬ infixOf (chars "control+") l ∧ ¬ infixOf (chars "option+") l ∧
  ¬ infixOf (chars "command+") l ∧ ¬ infixOf (chars "meta+") l.

(** One [addTo] per pair, in order. *)
Definition group {A} (pairs : list (string * A)) (m : JsMap.t (list A))
  : JsMap.t (list A) :=
  fold_left (λ m (kx : string * A), JsMap.addTo kx.1 kx.2 m) pairs m.

(** The values paired with [k], in order. *)
Definition valuesFor {A} (k : string) (pairs : list (string * A)) : list A :=
  (filter (λ kx : string * A, kx.1 = k) pairs).*2.

(** The owners that contribute command [cmdId], one per contribution, in
    manifest order. *)
Definition contributors (cmdId : string) (all : list Extension) : list string :=
  flat_map (λ ext,
    map (λ _, sourceNameOf ext)
        (filter (λ cmd, command cmd = cmdId) (commandsOf ext))) all.

(** Every contributed command id, one per contribution. *)
Definition commandIds (all : list Extension) : list string :=
  flat_map (λ ext, map command (commandsOf ext)) all.

Definition commandPairs (all : list Extension) : list (string * string) :=
  flat_map (λ ext,
    map (λ cmd, (command cmd, sourceNameOf ext)) (commandsOf ext)) all.

Definition commandConflict (entry : string * list string) : Conflict :=
  {| c_type := TypeCommand; c_id := entry.1; sources := entry.2;
     severity := Error;
     description := "Command " +:+ Js.dq +:+ entry.1 +:+ Js.dq +:+
                    " is registered by multiple extensions";
     extensionId := None |}.

(** The two literals the detector leaves out. *)
Definition isGenericEvent (event : string) : Prop :=
  event = "*" ∨ event = "onStartupFinished".

(** The owners that declare [event], one per declaration, in manifest
    order. *)
Definition declarations (event : string) (all : list Extension) : list string :=
  flat_map (λ ext,
    map (λ _, sourceNameOf ext)
        (filter (λ e, e = event) (activationEventsOf ext))) all.

(** The components that declare [event]. *)
Definition declaringComponents (event : string) (all : list Extension)
  : list Extension :=
  filter (λ ext, event ∈ activationEventsOf ext) all.

Definition activationPairs (all : list Extension) : list (string * string) :=
  flat_map (λ ext,
    map (λ e, (e, sourceNameOf ext))
        (filter (λ e, ¬ isGenericEvent e) (activationEventsOf ext))) all.

Definition activationConflict (entry : string * list string) : Conflict :=
  {| c_type := TypeActivation; c_id := entry.1; sources := entry.2;
     severity := Warning;
     description := "Multiple extensions (" +:+ pretty (length entry.2) +:+
                    ") activate on " +:+ Js.dq +:+ entry.1 +:+ Js.dq +:+
                    ". This may impact editor responsiveness.";
     extensionId := None |}.

(** What one declared command adds to the conflicts. *)
Definition commandMismatches (runtimeCommands : gset string) (ext : Extension)
  (cmd : CommandContribution) : list Conflict :=
  (if negb (bool_decide (command cmd ∈ runtimeCommands)) && isActive ext
   then [ghostCommand ext (command cmd)] else []) ++
  (if negb (bool_decide ("onCommand:" +:+ command cmd ∈ activationEventsOf ext)) &&
      negb (bool_decide ("*" ∈ activationEventsOf ext) ||
            bool_decide ("onStartupFinished" ∈ activationEventsOf ext))
   then [missingActivationEvent ext (command cmd)] else []).

(** What one component adds to the conflicts. *)
Definition extensionMismatches (runtimeCommands : gset string) (ext : Extension)
  : list Conflict :=
  if isBuiltIn ext then []
  else flat_map (commandMismatches runtimeCommands ext) (commandsOf ext) ++
       (if bool_decide ("*" ∈ activationEventsOf ext)
        then [eagerActivation ext] else []).

(** A ghost-command conflict of component [ext] for command [cmdId]. *)
Definition isGhostOf (ext : Extension) (cmdId : string) (c : Conflict) : Prop :=
  c_type c = TypeRegistration ∧ severity c = Error ∧ c_id c = cmdId ∧
  extensionId c = Some (ext_id ext).

#[global] Instance isGhostOf_dec ext cmdId c : Decision (isGhostOf ext cmdId c).
Proof. unfold isGhostOf. apply _. Defined.

Definition bindingOf (modifier key : string) : string :=
  modifier +:+ "+" +:+ key.

(** The candidate bindings in enumeration order: modifiers outside, keys
    inside. *)
Definition candidates : list string :=
  flat_map (λ modifier, map (bindingOf modifier) keys) modifiers.

Definition onCommand (cmdId : string) : string := "onCommand:" +:+ cmdId.

(** The conflicts the batch fix works on. *)
Definition missingEventsOf (w : World) : list Conflict :=
  List.filter isMissingEvent
    (detectRegistrationMismatches (runtimeCommands w) (extensions w)).

(** Their command ids, grouped by component id. *)
Definition extensionGroupsOf (w : World) : list (string * list string) :=
  group (map (λ c, (default EmptyString (extensionId c), c_id c))
              (missingEventsOf w))
        JsMap.empty.

(** The replacement, if any, that the group [g] contributes, given the
    registry snapshot and the documents. *)
Definition plannedReplacement (exts : list Extension)
  (docs : gmap string Document) (g : string * list string) : option Replacement :=
  match List.find (λ e, bool_decide (ext_id e = g.1)) exts with
  | None => None
  | Some extension =>
      match docs !! packageJsonUriOf extension with
      | Some (Json json) =>
          let events0 := default [] (json_activationEvents json) in
          let events := patchActivationEvents events0 g.2 in
          if bool_decide (length events > length events0)
          then Some (packageJsonUriOf extension,
                     Json {| json_activationEvents := Some (Js.sortStrings events);
                             json_rest := json_rest json |})
          else None
      | _ => None
      end
  end.

(** The whole edit of one batch run. *)
Definition plannedEdit (w : World) : WorkspaceEdit :=
  omap (plannedReplacement (extensions w) (documents w)) (extensionGroupsOf w).

(** Two worlds that differ in their notifications at most. *)
Definition sameButNotifications (w w' : World) : Prop :=
  extensions w' = extensions w ∧ runtimeCommands w' = runtimeCommands w ∧
  documents w' = documents w ∧ clipboard w' = clipboard w ∧
  editRequests w' = editRequests w ∧ editsAccepted w' = editsAccepted w ∧
  selection w' = selection w.

(** The decoder with one code unit per byte. *)
Definition latin1 (bytes : list Byte.byte) : string :=
  Js.str (ascii_of_byte <$> bytes).

(** The text a match of the pattern spells out. *)
Definition headerLine (m1 m2 m3 m4 : string) : string :=
  "[" +:+ m1 +:+ "] [" +:+ m2 +:+ "] [" +:+ m3 +:+ "] " +:+ m4.

Definition noLineTerminator (l : list ascii) : Prop :=
  Forall (λ c, Js.isLineTerminator c = false) l.

(** A line without any code unit other than white space. *)
Definition blankLine (line : string) : Prop :=
  Forall (λ c, Js.isWhiteSpace c = true) (Js.chars line).

(** The entry a header line starts. *)
Definition headerEntry (source m1 m2 m3 m4 : string) : LogEntry :=
  {| timestamp := m1;
     level := normalizeLevel m3;
     message := m4;
     source := if decide (m2 = "exthost") then source else m2 |}.

(** An entry continued by one more line. *)
Definition continued (e : LogEntry) (line : string) : LogEntry :=
  {| timestamp := timestamp e; level := level e;
     message := message e +:+ newline +:+ line;
     source := LogMonitor.source e |}.

(** The two-header input of the specification. *)
Definition twoHeaderInput : string :=
  "[2024-01-01T00:00:00.000] [exthost] [error] Something failed" +:+ newline +:+
  "    at foo.js:10" +:+ newline +:+
  "[2024-01-01T00:00:00.100] [exthost] [info] Recovered".

(** [e] was started by a header line among [lines] and carries the source
    that line's channel determines. *)
Definition startedBy (sourceId : string) (lines : list string) (e : LogEntry)
  : Prop :=
  ∃ line m1 m2 m3 m4,
    line ∈ lines ∧ matchLine line = Some (m1, m2, m3, m4) ∧
    timestamp e = m1 ∧
    LogMonitor.source e = (if decide (m2 = "exthost") then sourceId else m2).

(** A comparison of strings by code units, standing in for the host's
    collation where a concrete one is needed. *)
Definition codeUnitCompare (a b : string) : Z :=
  match String.compare a b with
  | Lt => (-1)%Z
  | Eq => 0%Z
  | Gt => 1%Z
  end.

(** A component that lists one activation event twice, and another that
    lists it once. *)
Definition twiceDeclared : list Extension :=
  [ {| ext_id := "pub.first"; isActive := true;
       extensionUri := "/extensions/pub.first";
       packageJSON :=
         {| name := "first"; displayName := Some "First"; contributes := None;
            activationEvents :=
              Some ["onLanguage:python"; "onLanguage:python"] |} |};
    {| ext_id := "pub.second"; isActive := true;
       extensionUri := "/extensions/pub.second";
       packageJSON :=
         {| name := "second"; displayName := Some "Second"; contributes := None;
            activationEvents := Some ["onLanguage:python"] |} |} ].

(** An active component that declares [foo.bar] once. *)
Definition fooExtension : Extension :=
  {| ext_id := "pub.foo"; isActive := true;
     extensionUri := "/extensions/pub.foo";
     packageJSON :=
       {| name := "foo"; displayName := None;
          contributes :=
            Some {| commands := Some [{| command := "foo.bar"; title := None |}];
                    keybindings := None |};
          activationEvents := None |} |}.

(** A host that holds [fooExtension], its manifest without activation
    events, an empty command table, and that applies the edits it is
    handed. *)
Definition fooWorld : World :=
  {| extensions := [fooExtension];
     runtimeCommands := ∅;
     documents :=
       {[ "/extensions/pub.foo/package.json" :=
            Json {| json_activationEvents := None; json_rest := "foo" |} ]};
     clipboard := None;
     notifications := [];
     editRequests := [];
     editsAccepted := true;
     selection := None |}.

(** What the keybindings that normalise to [k] yield, one value per
    contribution with a representative key, in manifest order. *)
Definition bindingsWith {X} (f : Extension → KeybindingContribution → X)
  (k : string) (all : list Extension) : list X :=
  flat_map (λ ext,
    omap (λ kb,
      match Js.truthy (representativeKey kb) with
      | Some key =>
          if decide (normalizeKeybinding key = k) then Some (f ext kb) else None
      | None => None
      end) (keybindingsOf ext)) all.

(** The owner and command of each keybinding that normalises to [k]. *)
Definition bindingsOn (k : string) (all : list Extension)
  : list (string * string) :=
  bindingsWith (λ ext kb, (sourceNameOf ext, kb_command kb)) k all.

Definition keybindingPairs (all : list Extension)
  : list (string * (string * string)) :=
  flat_map (λ ext,
    omap (λ kb,
      (λ key, (normalizeKeybinding key, (sourceNameOf ext, kb_command kb)))
        <$> Js.truthy (representativeKey kb)) (keybindingsOf ext)) all.

Definition keybindingConflict (entry : string * list (string * string))
  : Conflict :=
  {| c_type := TypeKeybinding; c_id := entry.1;
     sources := map (λ b : string * string, b.1 +:+ " (" +:+ b.2 +:+ ")") entry.2;
     severity := Warning;
     description := "Keybinding " +:+ Js.dq +:+ entry.1 +:+ Js.dq +:+
                    " is used by multiple commands";
     extensionId := None |}.

(** Some keybinding contribution of the snapshot normalises to [k]. *)
Definition contributedKey (k : string) (all : list Extension) : Prop :=
  ∃ ext kb key,
    ext ∈ all ∧ kb ∈ keybindingsOf ext ∧
    Js.truthy (representativeKey kb) = Some key ∧ normalizeKeybinding key = k.

(** A missing-activation warning of component [ext] for command [cmdId]. *)
Definition isMissingOf (ext : Extension) (cmdId : string) (c : Conflict) : Prop :=
  c_type c = TypeRegistration ∧ severity c = Warning ∧ c_id c = cmdId ∧
  extensionId c = Some (ext_id ext).

#[global] Instance isMissingOf_dec ext cmdId c : Decision (isMissingOf ext cmdId c).
Proof. unfold isMissingOf. apply _. Defined.

(** The manifest of [ext] lets [cmdId] trigger activation. *)
Definition activatesOn (ext : Extension) (cmdId : string) : Prop :=
  "onCommand:" +:+ cmdId ∈ activationEventsOf ext ∨
  "*" ∈ activationEventsOf ext ∨
  "onStartupFinished" ∈ activationEventsOf ext.

#[global] Instance activatesOn_dec ext cmdId : Decision (activatesOn ext cmdId).
Proof. unfold activatesOn. apply _. Defined.

(** Three components that each declare [onLanguage:python] once. *)
Definition threeDeclaring : list Extension :=
  (λ n : string,
     {| ext_id := "pub." +:+ n; isActive := false;
        extensionUri := "/extensions/pub." +:+ n;
        packageJSON :=
          {| name := n; displayName := None; contributes := None;
             activationEvents := Some ["onLanguage:python"] |} |})
  <$> ["one"; "two"; "three"].

(** The component [ext] with [events] as its activation events. *)
Definition withActivationEvents (ext : Extension) (events : list string)
  : Extension :=
  {| ext_id := ext_id ext; isActive := isActive ext;
     extensionUri := extensionUri ext;
     packageJSON :=
       {| name := name (packageJSON ext);
          displayName := displayName (packageJSON ext);
          contributes := contributes (packageJSON ext);
          activationEvents := Some events |} |}.

(** The entries the header lines among [lines] start, in order. *)
Definition headersOf (source : string) (lines : list string) : list LogEntry :=
  omap (λ line,
    (λ m : string * string * string * string,
       headerEntry source m.1.1.1 m.1.1.2 m.1.2 m.2) <$> matchLine line) lines.

(** [e] is [h] with text appended to its message. *)
Definition extends (h e : LogEntry) : Prop :=
  timestamp e = timestamp h ∧ level e = level h ∧
  LogMonitor.source e = LogMonitor.source h ∧
  ∃ more, message e = message h +:+ more.

Definition CR : ascii := ascii_of_N 13.

(** The entries of level error in the logs of every listed source. *)
Definition errorsOf (utf8 : list Byte.byte → string)
  (localeCompare : string → string → Z)
  (root : option (list (string * RootNode))) : list LogEntry :=
  flat_map (λ extId,
    List.filter (λ l, bool_decide (level l = LevelError))
      (getLogs utf8 localeCompare root extId))
    (getLoggedExtensions root).

(** A comparison that orders any two strings, consistently. *)
Definition consistent (compare : string → string → Z) : Prop :=
  (∀ a b, (compare a b ≤ 0)%Z ∨ (compare b a ≤ 0)%Z) ∧
  (∀ a b c, (compare a b ≤ 0)%Z → (compare b c ≤ 0)%Z → (compare a c ≤ 0)%Z).

(** The message [getRecentErrors] shows before it scans. *)
Definition scanning (rootLogUri : option string) : list Notification :=
  match rootLogUri with
  | Some fsPath => [Information ("ExtensionLens Scanning: " +:+ fsPath)]
  | None => []
  end.

(** What every conflict of the combined output satisfies: a component id
    comes with type [registration] and only with it, and an error is a
    command collision or a registration mismatch. *)
Definition wellTyped (c : Conflict) : Prop :=
  (is_Some (extensionId c) ↔ c_type c = TypeRegistration) ∧
  (severity c = Error →
   c_type c = TypeCommand ∨ c_type c = TypeRegistration).

(** The text the lines up to the next header line add to a message: a
    line feed and the line for each line that is not blank. *)
Fixpoint continuation (lines : list string) : string :=
  match lines with
  | [] => EmptyString
  | line :: rest =>
      match matchLine line with
      | Some _ => EmptyString
      | None =>
          (if Js.trimNonEmpty line then newline +:+ line else EmptyString)
          +:+ continuation rest
      end
  end.

(** [e] with [more] appended to its message. *)
Definition withMore (e : LogEntry) (more : string) : LogEntry :=
  {| timestamp := timestamp e; level := level e;
     message := message e +:+ more;
     source := LogMonitor.source e |}.

(** One entry per header line, its message continued by the lines that
    follow it up to the next header line; lines before the first header
    line are left out. *)
Fixpoint blocks (source : string) (lines : list string) : list LogEntry :=
  match lines with
  | [] => []
  | line :: rest =>
      match matchLine line with
      | Some (m1, m2, m3, m4) =>
          withMore (headerEntry source m1 m2 m3 m4) (continuation rest)
          :: blocks source rest
      | None => blocks source rest
      end
  end.

(** A root log directory with one source that holds one log file of one
    line, next to a file that is no directory. *)
Definition oneSourceRoot : option (list (string * RootNode)) :=
  Some [ ("my.ext",
          SourceDirectory
            [("output.log",
              File (String.list_byte_of_string "[t] [main] [error] hi"))]);
         ("renderer.log", Other) ].

(** The components that contribute command [cmdId]. *)
Definition contributingComponents (cmdId : string) (all : list Extension)
  : list Extension :=
  filter (λ ext, cmdId ∈ command <$> commandsOf ext) all.

(** One active component whose manifest lists the command [x.run] twice. *)
Definition twiceContributed : list Extension :=
  [ {| ext_id := "pub.alpha"; isActive := true;
       extensionUri := "/extensions/pub.alpha";
       packageJSON :=
         {| name := "alpha"; displayName := Some "Alpha";
            contributes :=
              Some {| commands :=
                        Some [ {| command := "x.run"; title := None |};
                               {| command := "x.run"; title := None |} ];
                      keybindings := None |};
            activationEvents := None |} |} ].

(** The channel token of a line that matches the line pattern. *)
Definition channelOf (line : string) : option string :=
  (λ m : string * string * string * string, m.1.1.2) <$> matchLine line.

(** The source an entry gets from its line's channel token. *)
Definition sourceFor (sourceId channel : string) : string :=
  if decide (channel = "exthost") then sourceId else channel.

(** The rows of Unicode's lower-case mapping for the code points of Basic
    Latin, of the Latin-1 Supplement and of Deseret; no other row is
    used. *)
Definition simpleLowercase (cp : N) : N :=
  if ((65 <=? cp) && (cp <=? 90) ||
      (192 <=? cp) && (cp <=? 222) && negb (cp =? 215))%N
  then (cp + 32)%N
  else if ((66560 <=? cp) && (cp <=? 66599))%N then (cp + 40)%N
  else cp.

(** U+D801, SPACE, U+DC00: two unpaired surrogates around a space. *)
Definition splitDeseret : list N := [55297%N; 32%N; 56320%N].

End Vocabulary.

(** * Properties *)

(** ** The stable sort *)

Section StableSort.
Context {A : Type} (R : relation A) `{!RelDecision R}.

Lemma insertStable_Permutation x l : Js.insertStable R x l ≡ₚ x :: l.
Proof.
  induction l as [|y l IH]; [done|]. cbn [Js.insertStable].
  case_decide; [done|]. rewrite IH. apply Permutation_swap.
Qed.

Lemma sortStable_Permutation l : Js.sortStable R l ≡ₚ l.
Proof.
  unfold Js.sortStable. induction l as [|x l IH]; [done|].
  cbn [foldr]. by rewrite insertStable_Permutation, IH.
Qed.

Lemma StronglySorted_insertStable `{!Transitive R, !Total R} x l :
  StronglySorted R l → StronglySorted R (Js.insertStable R x l).
Proof.
  induction 1 as [|y l Hl IH Hy]; [by repeat constructor|].
  cbn [Js.insertStable]. case_decide as Hxy.
  - constructor; [by constructor|]. constructor; [done|].
    eapply Forall_impl; [exact Hy|]. intros z Hyz. by trans y.
  - constructor; [done|]. rewrite insertStable_Permutation.
    constructor; [|done]. by destruct (total R x y).
Qed.

Lemma StronglySorted_sortStable `{!Transitive R, !Total R} l :
  StronglySorted R (Js.sortStable R l).
Proof.
  unfold Js.sortStable. induction l as [|x l IH]; [constructor|].
  cbn [foldr]. by apply StronglySorted_insertStable.
Qed.

End StableSort.

(** ** Strings *)

Section StringFacts.
Import Js.

Lemma chars_str l : chars (str l) = l.
Proof. apply list_ascii_of_string_of_list_ascii. Qed.

Lemma str_chars s : str (chars s) = s.
Proof. apply string_of_list_ascii_of_string. Qed.

Lemma chars_app a b : chars (a +:+ b) = chars a ++ chars b.
Proof. induction a as [|c a IH]; simpl; [done|]. by rewrite IH. Qed.

Lemma startsWithChars_prefix p s : startsWithChars p s = true ↔ p `prefix_of` s.
Proof.
  revert s. induction p as [|a p IH]; intros s; simpl.
  - split; [intros _; apply prefix_nil | done].
  - destruct s as [|b s].
    + split; [done | intros [k Hk]; discriminate].
    + rewrite andb_true_iff, bool_decide_eq_true, IH. split.
      * intros [-> Hp]. by apply prefix_cons.
      * intros [k Hk]. simplify_eq/=. split; [done | by exists k].
Qed.

Lemma startsWithChars_false p s : startsWithChars p s = false ↔ ¬ p `prefix_of` s.
Proof. rewrite <- startsWithChars_prefix. by destruct (startsWithChars p s). Qed.

End StringFacts.
Section ReplaceFacts.
Import Js.

Lemma comparable_true x y :
  x `prefix_of` y ∨ y `prefix_of` x → comparable x y = true.
Proof.
  unfold comparable. rewrite orb_true_iff, !startsWithChars_prefix. tauto.
Qed.

Lemma apart_l q r i :
  apart q r = true → i < length r → comparable (drop i r) q = false.
Proof.
  unfold apart. rewrite andb_true_iff, !forallb_forall. intros [H _] Hi.
  apply negb_true_iff, H, in_seq. lia.
Qed.

Lemma apart_r q r j :
  apart q r = true → j < length q → comparable (drop j q) r = false.
Proof.
  unfold apart. rewrite andb_true_iff, !forallb_forall. intros [_ H] Hj.
  apply negb_true_iff, H, in_seq. lia.
Qed.

Lemma infixOf_nil q : infixOf q [] → q = [].
Proof.
  intros (a & b & H). symmetry in H.
  apply app_eq_nil in H as [_ H]. by apply app_eq_nil in H as [-> _].
Qed.

Lemma infixOf_cons q c t :
  infixOf q (c :: t) → q `prefix_of` (c :: t) ∨ infixOf q t.
Proof.
  intros ([|a0 a] & b & H); simpl in H.
  - left. by exists b.
  - right. exists a, b. congruence.
Qed.

Lemma infixOf_cons_r q c t : infixOf q t → infixOf q (c :: t).
Proof. intros (a & b & ->). by exists (c :: a), b. Qed.

Lemma infixOf_prefix q s : q `prefix_of` s → infixOf q s.
Proof. intros [k ->]. by exists [], k. Qed.

Lemma infixOf_drop q n s : infixOf q (drop n s) → infixOf q s.
Proof.
  intros (a & b & H). exists (take n s ++ a), b.
  rewrite <- (take_drop n s) at 1. rewrite H. by rewrite <- app_assoc.
Qed.

(** An occurrence of [q] in [r ++ t] lies in [t] or starts inside [r]. *)
Lemma infixOf_app q r t :
  infixOf q (r ++ t) →
  infixOf q t ∨ ∃ i, i < length r ∧ comparable (drop i r) q = true.
Proof.
  induction r as [|c r IH]; simpl; [by left|].
  intros [Hp | Hi]%infixOf_cons.
  - right. exists 0. split; [lia|]. apply comparable_true. simpl.
    assert ((c :: r) `prefix_of` (c :: r ++ t)) as Hr by (by exists t).
    destruct (prefix_weak_total _ _ _ Hp Hr); tauto.
  - destruct (IH Hi) as [?|(i & ? & ?)]; [by left|].
    right. exists (S i). split; [lia | done].
Qed.

(** A prefix of the output is a prefix of the input, or it runs into a
    replacement. *)
Lemma prefix_replaceAllChars p r s q :
  q `prefix_of` replaceAllChars p r s →
  q `prefix_of` s ∨ ∃ j, j < length q ∧ comparable (drop j q) r = true.
Proof.
  revert q. induction s as [|c s IH]; intros q.
  - rewrite replaceAllChars_equation_1. by left.
  - rewrite replaceAllChars_equation_2.
    destruct (startsWithChars p (c :: s)) eqn:Hp.
    + intros Hq. destruct q as [|d q]; [left; apply prefix_nil|].
      right. exists 0. split; [simpl; lia|]. apply comparable_true. simpl.
      assert (r `prefix_of` r ++ replaceAllChars p r (drop (length p - 1) s))
        as Hr by (by eexists).
      destruct (prefix_weak_total _ _ _ Hq Hr); tauto.
    + intros Hq. destruct q as [|d q]; [left; apply prefix_nil|].
      destruct Hq as [k Hk]. simplify_eq/=.
      destruct (IH q) as [Hs | (j & Hj & Hc)]; [by exists k | |].
      * left. by apply prefix_cons.
      * right. exists (S j). split; [simpl; lia | done].
Qed.

(** Induction along the scan of [replaceAllChars]. *)
Lemma replaceAllChars_scan_ind (p r : list ascii)
  (P : list ascii → list ascii → Prop) :
  P [] [] →
  (∀ c s, startsWithChars p (c :: s) = true →
     P (drop (length p - 1) s) (replaceAllChars p r (drop (length p - 1) s)) →
     P (c :: s) (r ++ replaceAllChars p r (drop (length p - 1) s))) →
  (∀ c s, startsWithChars p (c :: s) = false →
     P s (replaceAllChars p r s) →
     replaceAllChars p r (c :: s) = c :: replaceAllChars p r s →
     P (c :: s) (c :: replaceAllChars p r s)) →
  ∀ s, P s (replaceAllChars p r s).
Proof.
  intros Hnil Hhit Hmiss s.
  remember (length s) as n eqn:Hn. revert s Hn.
  induction n as [n IH] using lt_wf_ind. intros [|c s] ->.
  - by rewrite replaceAllChars_equation_1.
  - pose proof (replaceAllChars_equation_2 p r c s) as E. rewrite E.
    destruct (startsWithChars p (c :: s)) eqn:Hp.
    + apply Hhit; [done|]. eapply IH; [|reflexivity].
      rewrite length_drop. simpl. lia.
    + apply Hmiss; [done | | done]. eapply IH; [|reflexivity]. simpl. lia.
Qed.

(** Replacing [p] by [r] leaves no occurrence of [q] when [q] is the
    pattern itself or did not occur before, as long as [q] cannot overlap
    a replacement. *)
Lemma replaceAllChars_avoids p r q s :
  q ≠ [] → apart q r = true →
  q = p ∨ ¬ infixOf q s →
  ¬ infixOf q (replaceAllChars p r s).
Proof.
  intros Hne Hap.
  apply (replaceAllChars_scan_ind p r
           (λ s t, q = p ∨ ¬ infixOf q s → ¬ infixOf q t)).
  - by intros _ ?%infixOf_nil.
  - intros c s' Hp IH Hq [Ht | (i & Hi & Hc)]%infixOf_app.
    + revert Ht. apply IH.
      destruct Hq as [?|Hq]; [by left | right].
      intros ?%infixOf_drop. by apply Hq, infixOf_cons_r.
    + by rewrite (apart_l _ _ _ Hap Hi) in Hc.
  - intros c s' Hp IH E Hq [Hpre | Ht]%infixOf_cons.
    + rewrite <- E in Hpre.
      apply prefix_replaceAllChars in Hpre as [Hs | (j & Hj & Hc)].
      * destruct Hq as [-> | Hq].
        -- by apply startsWithChars_false in Hp.
        -- by apply Hq, infixOf_prefix.
      * by rewrite (apart_r _ _ _ Hap Hj) in Hc.
    + revert Ht. apply IH.
      destruct Hq as [?|Hq]; [by left | right].
      intros ?. by apply Hq, infixOf_cons_r.
Qed.

(** Where the pattern does not occur nothing is replaced. *)
Lemma replaceAllChars_id p r s : ¬ infixOf p s → replaceAllChars p r s = s.
Proof.
  induction s as [|c s IH]; intros Hs.
  - by rewrite replaceAllChars_equation_1.
  - rewrite replaceAllChars_equation_2.
    destruct (startsWithChars p (c :: s)) eqn:Hp.
    + apply startsWithChars_prefix in Hp. by apply infixOf_prefix in Hp.
    + f_equal. apply IH. intros ?. by apply Hs, infixOf_cons_r.
Qed.

Lemma replaceAllChars_Forall (P : ascii → Prop) p r s :
  Forall P r → Forall P s → Forall P (replaceAllChars p r s).
Proof.
  intros Hr.
  apply (replaceAllChars_scan_ind p r (λ s t, Forall P s → Forall P t)).
  - done.
  - intros c s' _ IH Hs. apply Forall_app. split; [done|].
    apply IH. apply Forall_drop. by inversion Hs.
  - intros c s' _ IH _ Hs. inversion Hs; subst. constructor; auto.
Qed.

Lemma lowerChar_idemp c : lowerChar (lowerChar c) = lowerChar c.
Proof. by destruct c as [[] [] [] [] [] [] [] []]. Qed.

Lemma isWhiteSpace_lowerChar c : isWhiteSpace (lowerChar c) = isWhiteSpace c.
Proof. by destruct c as [[] [] [] [] [] [] [] []]. Qed.

Lemma settled_case_fold l :
  Forall settled (filter (λ c, isWhiteSpace c = false) (map lowerChar l)).
Proof.
  apply Forall_forall. intros c [Hws Hin]%list_elem_of_filter.
  apply list_elem_of_fmap in Hin as (d & -> & _).
  split; [apply lowerChar_idemp | done].
Qed.

Lemma case_fold_settled l :
  Forall settled l →
  filter (λ c, isWhiteSpace c = false) (map lowerChar l) = l.
Proof.
  induction 1 as [|c l [Hl Hw] _ IH]; [done|].
  simpl. rewrite filter_cons, Hl, IH. by rewrite decide_True.
Qed.

End ReplaceFacts.

Section Normalize.
Import Js ConflictDetector.

Lemma normalizeKeybinding_chars key :
  normalizeKeybinding key = str (normalizeChars (chars key)).
Proof.
  unfold normalizeKeybinding, normalizeChars, replaceAll, removeWhiteSpace,
    toLowerCase.
  by rewrite !chars_str.
Qed.

Lemma normalizeChars_canonical l : canonical (normalizeChars l).
Proof.
  unfold normalizeChars.
  pose proof (settled_case_fold l) as H0.
  set (s0 := filter _ _) in *.
  assert (Forall settled (chars "ctrl+")) by (repeat constructor).
  assert (Forall settled (chars "alt+")) by (repeat constructor).
  assert (Forall settled (chars "cmd+")) by (repeat constructor).
  split; [|split; [|split; [|split]]].
  - by repeat apply replaceAllChars_Forall.
  - do 3 (apply replaceAllChars_avoids; [done | done | right]).
    apply replaceAllChars_avoids; [done | done | by left].
  - do 2 (apply replaceAllChars_avoids; [done | done | right]).
    apply replaceAllChars_avoids; [done | done | by left].
  - apply replaceAllChars_avoids; [done | done | right].
    apply replaceAllChars_avoids; [done | done | by left].
  - apply replaceAllChars_avoids; [done | done | by left].
Qed.

Lemma normalizeChars_fixed l : canonical l → normalizeChars l = l.
Proof.
  intros (Hs & H1 & H2 & H3 & H4). unfold normalizeChars.
  rewrite (case_fold_settled _ Hs).
  rewrite (replaceAllChars_id (chars "control+")) by done.
  rewrite (replaceAllChars_id (chars "option+")) by done.
  rewrite (replaceAllChars_id (chars "command+")) by done.
  by rewrite (replaceAllChars_id (chars "meta+")).
Qed.

(** Normalisation on the strings over code units below 256: idempotent,
    with a canonical result (no upper-case code unit, no white space, none
    of the aliases [control+], [option+], [command+], [meta+] left). *)
Lemma normalizeKeybinding_settles :
  (∀ x, normalizeKeybinding (normalizeKeybinding x) = normalizeKeybinding x) ∧
  (∀ x, canonical (chars (normalizeKeybinding x))) ∧
  normalizeKeybinding "Control+Shift+ K" = "ctrl+shift+k".
Proof.
  split_and!; [| |by vm_compute].
  - intros x. rewrite !normalizeKeybinding_chars, chars_str.
    by rewrite (normalizeChars_fixed _ (normalizeChars_canonical _)).
  - intros x. rewrite normalizeKeybinding_chars, chars_str.
    apply normalizeChars_canonical.
Qed.

End Normalize.

(** ** Normalisation on UTF-16 strings *)

Section Utf16Facts.
Import Js ConflictDetector.

Lemma units_bounded (l : list ascii) :
  Forall (λ u, (u < 256)%N) (map N_of_ascii l).
Proof.
  apply Forall_forall. intros u (c & -> & _)%list_elem_of_fmap.
  apply N_ascii_bounded.
Qed.

Lemma units_of_bounded (x : list N) :
  Forall (λ u, (u < 256)%N) x → map N_of_ascii (map ascii_of_N x) = x.
Proof.
  induction 1 as [|u x Hu _ IH]; [done|].
  cbn [map]. by rewrite IH, N_ascii_embedding.
Qed.

Lemma codePoints_no_lead (s : list N) :
  Forall (λ u, (u < 55296)%N) s → Utf16.codePoints s = s.
Proof.
  induction 1 as [|u s Hu _ IH]; [done|].
  cbn [Utf16.codePoints]. destruct s as [|v s']; [done|].
  assert (Utf16.isLeadSurrogate u = false) as ->.
  { unfold Utf16.isLeadSurrogate. apply andb_false_intro1, N.leb_gt. lia. }
  cbn [andb]. by rewrite IH.
Qed.

Lemma ofCodePoints_bmp (cps : list N) :
  Forall (λ cp, (cp < 65536)%N) cps → Utf16.ofCodePoints cps = cps.
Proof.
  unfold Utf16.ofCodePoints.
  induction 1 as [|cp cps Hcp _ IH]; [done|].
  cbn [flat_map]. rewrite IH. unfold Utf16.codeUnits.
  by rewrite (proj2 (N.ltb_lt _ _) Hcp).
Qed.

Lemma simpleLowercase_lowerChar c :
  simpleLowercase (N_of_ascii c) = N_of_ascii (lowerChar c).
Proof. by destruct c as [[] [] [] [] [] [] [] []]. Qed.

Lemma isWhiteSpace_units c :
  Utf16.isWhiteSpace (N_of_ascii c) = isWhiteSpace c.
Proof. by destruct c as [[] [] [] [] [] [] [] []]. Qed.

Lemma startsWith_units p s :
  Utf16.startsWith (map N_of_ascii p) (map N_of_ascii s) = startsWithChars p s.
Proof.
  revert s. induction p as [|a p IH]; intros [|b s]; try done.
  cbn [map Utf16.startsWith startsWithChars]. rewrite IH. f_equal.
  apply bool_decide_ext. split; [|by intros ->].
  intros H. rewrite <- (ascii_N_embedding a), <- (ascii_N_embedding b).
  by rewrite H.
Qed.

Lemma replaceAll_units p r s :
  Utf16.replaceAll (map N_of_ascii p) (map N_of_ascii r) (map N_of_ascii s) =
  map N_of_ascii (replaceAllChars p r s).
Proof.
  apply (replaceAllChars_scan_ind p r (λ s t,
    Utf16.replaceAll (map N_of_ascii p) (map N_of_ascii r) (map N_of_ascii s) =
    map N_of_ascii t)).
  - by rewrite Utf16.replaceAll_equation_1.
  - intros c s' Hp IH. cbn [map].
    rewrite Utf16.replaceAll_equation_2.
    change (N_of_ascii c :: map N_of_ascii s')
      with (map N_of_ascii (c :: s')).
    rewrite startsWith_units, Hp, length_map, skipn_map, IH.
    by rewrite map_app.
  - intros c s' Hp IH _. cbn [map].
    rewrite Utf16.replaceAll_equation_2.
    change (N_of_ascii c :: map N_of_ascii s')
      with (map N_of_ascii (c :: s')).
    rewrite startsWith_units, Hp. cbn [map]. by rewrite IH.
Qed.

Lemma filter_units (l : list ascii) :
  Utf16.removeWhiteSpace (map N_of_ascii l) =
  map N_of_ascii (filter (λ c, isWhiteSpace c = false) l).
Proof.
  unfold Utf16.removeWhiteSpace.
  induction l as [|c l IH]; [done|].
  cbn [map]. rewrite !filter_cons, IH, isWhiteSpace_units.
  by destruct (decide (isWhiteSpace c = false)).
Qed.

Section Table.

Variable toLowercase : list N → list N.

(** The host's table on the code points below 256. *)
Hypothesis toLowercase_latin1 :
  ∀ cps, Forall (λ cp, (cp < 256)%N) cps →
         toLowercase cps = map simpleLowercase cps.

Lemma toLowerCase_units (l : list ascii) :
  Utf16.toLowerCase toLowercase (map N_of_ascii l) =
  map N_of_ascii (map lowerChar l).
Proof.
  unfold Utf16.toLowerCase.
  rewrite codePoints_no_lead.
  2:{ eapply Forall_impl; [apply units_bounded|]. simpl. lia. }
  rewrite toLowercase_latin1 by apply units_bounded.
  rewrite map_map.
  rewrite (map_ext _ (λ c, N_of_ascii (lowerChar c)))
    by apply simpleLowercase_lowerChar.
  rewrite <- (map_map lowerChar N_of_ascii).
  apply ofCodePoints_bmp.
  eapply Forall_impl; [apply units_bounded|]. simpl. lia.
Qed.

Lemma normalizeKeybinding_units (l : list ascii) :
  Utf16.normalizeKeybinding toLowercase (map N_of_ascii l) =
  map N_of_ascii (normalizeChars l).
Proof.
  unfold Utf16.normalizeKeybinding, normalizeChars, Utf16.ofString.
  by rewrite toLowerCase_units, filter_units, !replaceAll_units.
Qed.

End Table.

(** ** C3 *)



End Utf16Facts.

(** ** Insertion-ordered maps *)

Section MapFacts.
Context {V : Type}.

Lemma get_Some_keys k (m : JsMap.t V) : is_Some (JsMap.get k m) ↔ k ∈ JsMap.keys m.
Proof.
  induction m as [|[k' v] m IH]; simpl.
  - split; [by intros [? ?] | by intros ?%elem_of_nil].
  - case_bool_decide as Hk; subst.
    + split; [intros _; apply elem_of_cons; by left | by eexists].
    + rewrite IH. unfold JsMap.keys. simpl. rewrite elem_of_cons.
      split; [by right | intros [?|?]; congruence].
Qed.

Lemma has_keys k (m : JsMap.t V) : JsMap.has k m = true ↔ k ∈ JsMap.keys m.
Proof.
  rewrite <- get_Some_keys. unfold JsMap.has.
  destruct (JsMap.get k m); split; try done; try (by eexists); by intros [? ?].
Qed.

(** With distinct keys every entry is what [get] finds under its key. *)
Lemma entry_get k (v : V) (m : JsMap.t V) :
  NoDup (JsMap.keys m) → (k, v) ∈ JsMap.entries m → JsMap.get k m = Some v.
Proof.
  unfold JsMap.entries, JsMap.keys.
  induction m as [|[k0 v0] m IH]; simpl; [by intros _ ?%elem_of_nil|].
  intros [Hk0 Hm]%NoDup_cons [Heq | Hin]%elem_of_cons.
  - simplify_eq. by rewrite bool_decide_eq_true_2.
  - case_bool_decide as Hk; [|by apply IH].
    subst k0. exfalso. apply Hk0. apply list_elem_of_fmap. by exists (k, v).
Qed.

(** With distinct keys at most one entry carries the key [k]. *)
Lemma filter_key k (m : list (string * V)) :
  NoDup (JsMap.keys m) →
  filter (λ e : string * V, e.1 = k) m =
  match JsMap.get k m with Some v => [(k, v)] | None => [] end.
Proof.
  unfold JsMap.keys. induction m as [|[k0 v0] m IH]; [done|].
  intros Hnd. simpl in Hnd. apply NoDup_cons in Hnd as [Hk0 Hm].
  rewrite filter_cons. simpl.
  case_bool_decide as Hk; case_decide; try congruence.
  - subst k0. f_equal. rewrite IH by done.
    destruct (JsMap.get k m) as [v|] eqn:Hg; [|done].
    exfalso. apply Hk0. apply (get_Some_keys k m). by eexists.
  - by apply IH.
Qed.

End MapFacts.

(** ** Grouping into an insertion-ordered map *)

Section Grouping.
Context {A : Type}.
Implicit Types (m : JsMap.t (list A)) (k : string) (x : A).
Implicit Types (pairs : list (string * A)).

Lemma get_pushAt k k' x m :
  JsMap.get k' (JsMap.pushAt k x m) =
  if decide (k = k') then (λ v, v ++ [x]) <$> JsMap.get k m else JsMap.get k' m.
Proof.
  induction m as [|[k0 v] m IH]; simpl; [by case_decide|].
  case_bool_decide as H0; simpl.
  - subst k0. case_bool_decide; case_decide; simpl; congruence.
  - case_bool_decide as H1; [subst k0|].
    + case_decide; [congruence | done].
    + rewrite IH. done.
Qed.

Lemma get_set k k' (v : list A) m :
  JsMap.get k' (JsMap.set k v m) =
  if decide (k = k') then Some v else JsMap.get k' m.
Proof.
  induction m as [|[k0 v0] m IH]; simpl.
  - case_bool_decide; case_decide; congruence.
  - case_bool_decide as H0; simpl.
    + subst k0. case_bool_decide; case_decide; congruence.
    + case_bool_decide as H1; [subst k0|].
      * case_decide; congruence.
      * apply IH.
Qed.

Lemma get_addTo k k' x m :
  JsMap.get k' (JsMap.addTo k x m) =
  if decide (k = k') then Some (default [] (JsMap.get k m) ++ [x])
  else JsMap.get k' m.
Proof.
  unfold JsMap.addTo, JsMap.has.
  destruct (JsMap.get k m) as [v|] eqn:Hk.
  - rewrite get_pushAt. case_decide; [by rewrite Hk | done].
  - rewrite get_pushAt, !get_set. case_decide; [by rewrite decide_True | done].
Qed.

Lemma keys_pushAt k x m : JsMap.keys (JsMap.pushAt k x m) = JsMap.keys m.
Proof.
  unfold JsMap.keys. induction m as [|[k0 v] m IH]; [done|]. simpl.
  case_bool_decide; csimpl; [done | by f_equal].
Qed.

Lemma keys_set_fresh k (v : list A) m :
  k ∉ JsMap.keys m → JsMap.keys (JsMap.set k v m) = JsMap.keys m ++ [k].
Proof.
  unfold JsMap.keys. induction m as [|[k0 v0] m IH]; [done|]. csimpl.
  intros [Hne Hin]%not_elem_of_cons.
  rewrite bool_decide_eq_false_2 by done. csimpl. by rewrite IH.
Qed.

Lemma keys_addTo k x m :
  JsMap.keys (JsMap.addTo k x m) =
  if JsMap.has k m then JsMap.keys m else JsMap.keys m ++ [k].
Proof.
  unfold JsMap.addTo. rewrite keys_pushAt.
  destruct (JsMap.has k m) eqn:Hk; [done|].
  apply keys_set_fresh. rewrite <- has_keys. congruence.
Qed.

Lemma NoDup_keys_addTo k x m :
  NoDup (JsMap.keys m) → NoDup (JsMap.keys (JsMap.addTo k x m)).
Proof.
  intros Hm. rewrite keys_addTo. destruct (JsMap.has k m) eqn:Hk; [done|].
  apply NoDup_app. split_and!; [done | | apply NoDup_singleton].
  intros k' Hk' ->%list_elem_of_singleton.
  apply has_keys in Hk'. congruence.
Qed.

Lemma NoDup_keys_group pairs m :
  NoDup (JsMap.keys m) → NoDup (JsMap.keys (group pairs m)).
Proof.
  revert m. induction pairs as [|[k x] pairs IH]; intros m Hm; [done|].
  apply IH. by apply NoDup_keys_addTo.
Qed.

Lemma valuesFor_cons k k' x pairs :
  valuesFor k ((k', x) :: pairs) =
  if decide (k' = k) then x :: valuesFor k pairs else valuesFor k pairs.
Proof. unfold valuesFor. rewrite filter_cons. simpl. by case_decide. Qed.

Lemma get_group k pairs m :
  JsMap.get k (group pairs m) =
  match JsMap.get k m, valuesFor k pairs with
  | None, [] => None
  | o, vs => Some (default [] o ++ vs)
  end.
Proof.
  revert m. induction pairs as [|[k' x] pairs IH]; intros m.
  - simpl. destruct (JsMap.get k m); simpl; [by rewrite app_nil_r | done].
  - simpl. rewrite IH, get_addTo, valuesFor_cons. simpl.
    case_decide as Hk.
    + subst k'. rewrite <- app_assoc. simpl.
      by destruct (JsMap.get k m).
    + done.
Qed.

Lemma get_group_empty k pairs :
  JsMap.get k (group pairs JsMap.empty) =
  match valuesFor k pairs with [] => None | vs => Some vs end.
Proof. by rewrite get_group. Qed.

Lemma keys_group_empty k pairs :
  k ∈ JsMap.keys (group pairs JsMap.empty) ↔ k ∈ pairs.*1.
Proof.
  rewrite <- get_Some_keys, get_group_empty. unfold valuesFor.
  split.
  - intros Hs. destruct (filter _ pairs) as [|[k0 x0] l] eqn:Hf.
    + simpl in Hs. by destruct Hs.
    + assert ((k0, x0) ∈ filter (λ kx : string * A, kx.1 = k) pairs) as Hin
        by (rewrite Hf; apply elem_of_cons; by left).
      apply list_elem_of_filter in Hin as [Hk Hin]. simpl in Hk. subst k0.
      apply list_elem_of_fmap. by exists (k, x0).
  - intros ([k0 x0] & -> & Hin)%list_elem_of_fmap. simpl.
    assert ((k0, x0) ∈ filter (λ kx : string * A, kx.1 = k0) pairs) as Hf
      by (by apply list_elem_of_filter).
    destruct (filter _ pairs) as [|? ?]; [by apply elem_of_nil in Hf|].
    simpl. by eexists.
Qed.

End Grouping.

(** A loop that appends [f e] for the entries that satisfy [P]. *)
Lemma fold_left_collect {E C} (P : E → Prop) `{!∀ e, Decision (P e)}
  (f : E → C) l acc :
  fold_left (λ acc e, if bool_decide (P e) then acc ++ [f e] else acc) l acc =
  acc ++ (f <$> filter P l).
Proof.
  revert acc. induction l as [|e l IH]; intros acc; simpl.
  - by rewrite app_nil_r.
  - rewrite IH, filter_cons. case_bool_decide.
    + rewrite decide_True by done. by rewrite <- app_assoc.
    + by rewrite decide_False.
Qed.

Lemma filter_fmap_pre {X Y} (P : Y → Prop) `{!∀ y, Decision (P y)}
  (f : X → Y) (l : list X) :
  filter P (f <$> l) = f <$> filter (λ x, P (f x)) l.
Proof.
  induction l as [|x l IH]; [done|]. csimpl.
  rewrite !filter_cons, IH. by case_decide.
Qed.

Lemma filter_swap {X} (P Q : X → Prop)
  `{!∀ x, Decision (P x), !∀ x, Decision (Q x)} (l : list X) :
  filter P (filter Q l) = filter Q (filter P l).
Proof. rewrite !list_filter_filter. apply list_filter_iff. tauto. Qed.

Lemma filter_ext_elem {X} (P Q : X → Prop)
  `{!∀ x, Decision (P x), !∀ x, Decision (Q x)} (l : list X) :
  (∀ x, x ∈ l → P x ↔ Q x) → filter P l = filter Q l.
Proof.
  induction l as [|x l IH]; intros Hext; [done|].
  rewrite !filter_cons, IH by (intros; apply Hext; by apply elem_of_cons; right).
  apply decide_ext, Hext, elem_of_cons. by left.
Qed.

(** ** Command collisions *)

Section CommandCollision.
Import Host ConflictDetector.

Lemma fold_left_flat_map {X Y S} (f : S → Y → S) (g : X → list Y) l s :
  fold_left (λ s x, fold_left f (g x) s) l s = fold_left f (flat_map g l) s.
Proof.
  revert s. induction l as [|x l IH]; intros s; simpl; [done|].
  by rewrite fold_left_app, IH.
Qed.

Lemma fold_left_map {X Y S} (f : S → Y → S) (g : X → Y) l s :
  fold_left (λ s x, f s (g x)) l s = fold_left f (map g l) s.
Proof. revert s. induction l as [|x l IH]; intros s; simpl; [done | apply IH]. Qed.

Lemma fold_left_ext_fun {X S} (f g : S → X → S) l s :
  (∀ s x, f s x = g s x) → fold_left f l s = fold_left g l s.
Proof.
  intros H. revert s. induction l as [|x l IH]; intros s; simpl; [done|].
  by rewrite H, IH.
Qed.

Lemma detectCommandConflicts_group all :
  detectCommandConflicts all =
  commandConflict <$>
    filter (λ e : string * list string, length e.2 > 1)
       (group (commandPairs all) JsMap.empty).
Proof.
  unfold detectCommandConflicts, JsMap.entries.
  rewrite (fold_left_ext_fun _
    (λ acc e, if bool_decide (length e.2 > 1)
              then acc ++ [commandConflict e] else acc)) by (by intros ? [? ?]).
  rewrite (fold_left_collect
    (λ e : string * list string, length e.2 > 1) commandConflict).
  simpl. do 2 f_equal.
  unfold group, commandPairs. rewrite <- fold_left_flat_map.
  apply fold_left_ext_fun. intros m ext.
  by rewrite <- (fold_left_map (λ m (kx : string * string), JsMap.addTo kx.1 kx.2 m)).
Qed.

Lemma valuesFor_tagged {X} (f : X → string) (o : string) k (l : list X) :
  valuesFor k (map (λ x, (f x, o)) l) = map (λ _, o) (filter (λ x, f x = k) l).
Proof.
  unfold valuesFor. induction l as [|x l IH]; simpl; [done|].
  rewrite !filter_cons. simpl. case_decide; simpl; [f_equal|]; apply IH.
Qed.

Lemma valuesFor_app {X} k (l1 l2 : list (string * X)) :
  valuesFor k (l1 ++ l2) = valuesFor k l1 ++ valuesFor k l2.
Proof. unfold valuesFor. by rewrite filter_app, fmap_app. Qed.

Lemma valuesFor_commandPairs cmdId all :
  valuesFor cmdId (commandPairs all) = contributors cmdId all.
Proof.
  unfold commandPairs, contributors.
  induction all as [|ext all IH]; simpl; [done|].
  by rewrite valuesFor_app, IH, valuesFor_tagged.
Qed.

Lemma commandPairs_ids all : (commandPairs all).*1 = commandIds all.
Proof.
  unfold commandPairs, commandIds.
  induction all as [|ext all IH]; simpl; [done|].
  rewrite fmap_app, IH. f_equal.
  by rewrite <- list_fmap_compose.
Qed.

(** The map built by the first loop. *)
Lemma commandMap_get cmdId all :
  JsMap.get cmdId (group (commandPairs all) JsMap.empty) =
  match contributors cmdId all with [] => None | vs => Some vs end.
Proof. by rewrite get_group_empty, valuesFor_commandPairs. Qed.

Lemma commandMap_entry k v all :
  (k, v) ∈ group (commandPairs all) JsMap.empty →
  v = contributors k all.
Proof.
  intros Hin. apply entry_get in Hin; [|by apply NoDup_keys_group, NoDup_nil].
  rewrite commandMap_get in Hin. by destruct (contributors k all); simplify_eq.
Qed.

(** ** C1 *)

(** What the detector computes.  For every manifest snapshot it emits
    exactly one conflict per command id with more than one contribution and
    none for any other id; each conflict has type [command], severity
    [error] and, as sources, the display names of the contributing owners in
    manifest order, one per [commands] contribution. *)
Lemma command_collision_by_contributions (all : list Extension) :
  let conflicts := detectCommandConflicts all in
  (∀ c, c ∈ conflicts →
     c_type c = TypeCommand ∧ severity c = Error ∧
     sources c = contributors (c_id c) all ∧
     length (sources c) = length (contributors (c_id c) all)) ∧
  (∀ cmdId,
     length (filter (λ c, c_id c = cmdId) conflicts) =
     if decide (length (contributors cmdId all) > 1) then 1 else 0) ∧
  length conflicts =
    length (filter (λ cmdId, length (contributors cmdId all) > 1)
              (remove_dups (commandIds all))).
Proof.
  simpl. rewrite detectCommandConflicts_group.
  set (m := group (commandPairs all) JsMap.empty).
  assert (NoDup (JsMap.keys m)) as Hnd by (by apply NoDup_keys_group, NoDup_nil).
  split_and!.
  - intros c ([k v] & -> & [_ Hin]%list_elem_of_filter)%list_elem_of_fmap.
    simpl. apply commandMap_entry in Hin. by subst v.
  - intros cmdId.
    rewrite (filter_fmap_pre (λ c, c_id c = cmdId)), length_fmap. simpl.
    rewrite filter_swap, (filter_key cmdId m) by done. unfold m. rewrite commandMap_get.
    destruct (contributors cmdId all) as [|o vs]; [done|].
    rewrite filter_cons. simpl. by repeat case_decide.
  - rewrite length_fmap.
    rewrite (filter_ext_elem _ (λ e, length (contributors e.1 all) > 1)).
    2:{ intros [k v] Hin. apply commandMap_entry in Hin. by subst v. }
    trans (length (filter (λ cmdId, length (contributors cmdId all) > 1)
                          (JsMap.keys m))).
    { unfold JsMap.keys. by rewrite filter_fmap_pre, length_fmap. }
    apply Permutation_length, filter_Permutation.
    apply NoDup_Permutation; [done | apply NoDup_remove_dups |].
    intros k. rewrite elem_of_remove_dups, <- commandPairs_ids.
    apply keys_group_empty.
Qed.

End CommandCollision.

(** ** Activation overlap *)

Section ActivationOverlap.
Import Host ConflictDetector.

Lemma fold_left_skip {X S} (P : X → Prop) `{!∀ x, Decision (P x)}
  (f : S → X → S) l s :
  fold_left (λ s x, if bool_decide (P x) then s else f s x) l s =
  fold_left f (filter (λ x, ¬ P x) l) s.
Proof.
  revert s. induction l as [|x l IH]; intros s; [done|]. simpl.
  rewrite filter_cons, IH. case_bool_decide.
  - by rewrite decide_False by tauto.
  - by rewrite decide_True.
Qed.

Lemma detectActivationConflicts_group all :
  detectActivationConflicts all =
  activationConflict <$>
    filter (λ e : string * list string, length e.2 > 2)
       (group (activationPairs all) JsMap.empty).
Proof.
  unfold detectActivationConflicts, JsMap.entries.
  rewrite (fold_left_ext_fun _
    (λ acc e, if bool_decide (length e.2 > 2)
              then acc ++ [activationConflict e] else acc)) by (by intros ? [? ?]).
  rewrite (fold_left_collect
    (λ e : string * list string, length e.2 > 2) activationConflict).
  simpl. do 2 f_equal.
  unfold group, activationPairs. rewrite <- fold_left_flat_map.
  apply fold_left_ext_fun. intros m ext.
  rewrite <- (fold_left_map
    (λ m (kx : string * string), JsMap.addTo kx.1 kx.2 m)).
  rewrite <- (fold_left_skip isGenericEvent).
  apply fold_left_ext_fun. intros m' e. unfold isGenericEvent.
  by repeat case_bool_decide; simpl; try tauto.
Qed.

Lemma valuesFor_activationPairs event all :
  ¬ isGenericEvent event →
  valuesFor event (activationPairs all) = declarations event all.
Proof.
  intros Hev. unfold activationPairs, declarations.
  induction all as [|ext all IH]; simpl; [done|].
  rewrite valuesFor_app, IH, valuesFor_tagged. do 2 f_equal.
  rewrite list_filter_filter. apply list_filter_iff. intros e.
  split; [tauto | by intros ->].
Qed.

Lemma activationPairs_not_generic event owner all :
  (event, owner) ∈ activationPairs all → ¬ isGenericEvent event.
Proof.
  unfold activationPairs. rewrite list_elem_of_In, in_flat_map.
  intros (ext & _ & Hin). apply list_elem_of_In, list_elem_of_fmap in Hin.
  destruct Hin as (e & [= -> _] & [? _]%list_elem_of_filter). done.
Qed.

Lemma activationMap_get event all :
  JsMap.get event (group (activationPairs all) JsMap.empty) =
  if decide (isGenericEvent event) then None
  else match declarations event all with [] => None | vs => Some vs end.
Proof.
  rewrite get_group_empty. case_decide as Hev.
  - destruct (valuesFor event (activationPairs all)) as [|o vs] eqn:Hv; [done|].
    exfalso. assert (o ∈ valuesFor event (activationPairs all)) as Ho
      by (rewrite Hv; apply elem_of_cons; by left).
    unfold valuesFor in Ho.
    apply list_elem_of_fmap in Ho as ([k o'] & -> & [Hk Hin]%list_elem_of_filter).
    simpl in Hk. subst k. by apply activationPairs_not_generic in Hin.
  - by rewrite valuesFor_activationPairs.
Qed.

(** What the activation detector computes: one warning per event that is
    not generic and is declared more than twice, declarations counted with
    multiplicity. *)
Lemma activation_overlap_by_declarations (all : list Extension) :
  let conflicts := detectActivationConflicts all in
  (∀ c, c ∈ conflicts →
     c_type c = TypeActivation ∧ severity c = Warning ∧
     ¬ isGenericEvent (c_id c) ∧
     sources c = declarations (c_id c) all) ∧
  (∀ event,
     length (filter (λ c, c_id c = event) conflicts) =
     if decide (¬ isGenericEvent event ∧ length (declarations event all) > 2)
     then 1 else 0).
Proof.
  simpl. rewrite detectActivationConflicts_group.
  set (m := group (activationPairs all) JsMap.empty).
  assert (NoDup (JsMap.keys m)) as Hnd by (by apply NoDup_keys_group, NoDup_nil).
  split.
  - intros c ([k v] & -> & [_ Hin]%list_elem_of_filter)%list_elem_of_fmap.
    simpl. apply entry_get in Hin; [|done]. unfold m in Hin.
    rewrite activationMap_get in Hin. case_decide; [done|].
    by destruct (declarations k all); simplify_eq.
  - intros event.
    rewrite (filter_fmap_pre (λ c, c_id c = event)), length_fmap. simpl.
    rewrite filter_swap, (filter_key event m) by done.
    unfold m. rewrite activationMap_get.
    case_decide as Hev; [by rewrite decide_False by tauto|].
    destruct (declarations event all) as [|o vs].
    + rewrite decide_False; [done | simpl; lia].
    + rewrite filter_cons. simpl. repeat case_decide; try done; tauto.
Qed.

Lemma length_filter_eq_NoDup (l : list string) x :
  NoDup l →
  length (filter (λ e, e = x) l) = if decide (x ∈ l) then 1 else 0.
Proof.
  induction 1 as [|e l Hnot _ IHl]; [done|].
  rewrite filter_cons. destruct (decide (e = x)) as [->|He].
  - simpl. rewrite decide_True by (apply elem_of_cons; by left).
    rewrite IHl. by rewrite decide_False.
  - rewrite IHl. apply decide_ext. rewrite elem_of_cons.
    split; [by right | by intros [->|?]].
Qed.

(** A manifest that lists no event twice contributes each of its events
    once, so declarations and declaring components agree. *)
Lemma declarations_distinct event all :
  Forall (λ ext, NoDup (activationEventsOf ext)) all →
  length (declarations event all) = length (declaringComponents event all).
Proof.
  unfold declarations, declaringComponents.
  induction 1 as [|ext all Hnd _ IH]; [done|]. simpl.
  rewrite length_app, IH, length_map, filter_cons.
  rewrite length_filter_eq_NoDup by done.
  by case_decide.
Qed.

(** With duplicate-free manifests the detector warns about [event] exactly
    when more than two components declare it. *)
Lemma activation_overlap_distinct (all : list Extension) (event : string) :
  Forall (λ ext, NoDup (activationEventsOf ext)) all →
  ¬ isGenericEvent event →
  (∃ c, c ∈ detectActivationConflicts all ∧ c_id c = event) ↔
  length (declaringComponents event all) > 2.
Proof.
  intros Hnd Hev.
  destruct (activation_overlap_by_declarations all) as [_ Hcount].
  specialize (Hcount event). rewrite declarations_distinct in Hcount by done.
  split.
  - intros (c & Hin & Hc). case_decide as Hd; [tauto|].
    assert (c ∈ filter (λ c, c_id c = event) (detectActivationConflicts all))
      as Hf by (by apply list_elem_of_filter).
    destruct (filter _ _); [by apply elem_of_nil in Hf | done].
  - intros Hlen. rewrite decide_True in Hcount by done.
    destruct (filter _ _) as [|c l] eqn:Hf; [done|].
    assert (c ∈ filter (λ c, c_id c = event) (detectActivationConflicts all))
      as [? ?]%list_elem_of_filter by (rewrite Hf; apply elem_of_cons; by left).
    by exists c.
Qed.

End ActivationOverlap.

(** ** Registration mismatches *)

Section RegistrationMismatch.
Import Host ConflictDetector.

Lemma fold_left_append {X C} (f : X → list C) l acc :
  fold_left (λ acc x, acc ++ f x) l acc = acc ++ flat_map f l.
Proof.
  revert acc. induction l as [|x l IH]; intros acc; simpl.
  - by rewrite app_nil_r.
  - by rewrite IH, app_assoc.
Qed.

Lemma detectRegistrationMismatches_flat runtimeCommands all :
  detectRegistrationMismatches runtimeCommands all =
  flat_map (extensionMismatches runtimeCommands) all.
Proof.
  unfold detectRegistrationMismatches.
  rewrite <- (app_nil_l (flat_map _ _)), <- fold_left_append.
  apply fold_left_ext_fun. intros acc ext. unfold extensionMismatches.
  destruct (isBuiltIn ext); [by rewrite app_nil_r|].
  rewrite app_assoc. rewrite <- fold_left_append.
  rewrite (fold_left_ext_fun _
    (λ acc cmd, acc ++ commandMismatches runtimeCommands ext cmd)).
  - by case_bool_decide; [|rewrite app_nil_r].
  - intros acc' cmd. unfold commandMismatches.
    destruct (negb _ && isActive ext);
      destruct (negb _ && negb _); simpl;
      rewrite <- ?app_assoc, ?app_nil_r; done.
Qed.

Lemma filter_flat_map {X C} (P : C → Prop) `{!∀ c, Decision (P c)}
  (f : X → list C) l :
  filter P (flat_map f l) = flat_map (λ x, filter P (f x)) l.
Proof.
  induction l as [|x l IH]; [done|]. simpl. by rewrite filter_app, IH.
Qed.

Lemma filter_none {C} (P : C → Prop) `{!∀ c, Decision (P c)} (l : list C) :
  (∀ c, c ∈ l → ¬ P c) → filter P l = [].
Proof.
  induction l as [|c l IH]; intros Hl; [done|].
  rewrite filter_cons_False by (apply Hl, elem_of_cons; by left).
  apply IH. intros c' ?. apply Hl, elem_of_cons. by right.
Qed.

Lemma flat_map_nil {X C} (f : X → list C) l :
  Forall (λ x, f x = []) l → flat_map f l = [].
Proof. induction 1 as [|x l Hx _ IH]; [done|]. simpl. by rewrite Hx, IH. Qed.

(** Conflicts produced for one component carry that component's id, or
    none. *)
Lemma extensionMismatches_owner runtimeCommands ext c :
  c ∈ extensionMismatches runtimeCommands ext →
  extensionId c = Some (ext_id ext) ∨ extensionId c = None.
Proof.
  unfold extensionMismatches. destruct (isBuiltIn ext); [by intros ?%elem_of_nil|].
  rewrite elem_of_app. intros [Hin | Hin].
  - apply list_elem_of_In, in_flat_map in Hin as (cmd & _ & Hin).
    apply list_elem_of_In in Hin. unfold commandMismatches in Hin.
    apply elem_of_app in Hin as [Hin | Hin];
      destruct (_ && _); try (by apply elem_of_nil in Hin);
      apply list_elem_of_singleton in Hin as ->; by left.
  - case_bool_decide; [|by apply elem_of_nil in Hin].
    apply list_elem_of_singleton in Hin as ->. by right.
Qed.

Lemma ghosts_of_other runtimeCommands ext ext' cmdId :
  ext_id ext' ≠ ext_id ext →
  filter (isGhostOf ext cmdId) (extensionMismatches runtimeCommands ext') = [].
Proof.
  intros Hne. apply filter_none.
  intros c Hin (_ & _ & _ & Hid).
  apply extensionMismatches_owner in Hin as [Ho | Ho]; congruence.
Qed.

Lemma ghosts_of_command runtimeCommands ext cmdId cmd :
  filter (isGhostOf ext cmdId) (commandMismatches runtimeCommands ext cmd) =
  (if decide (command cmd = cmdId ∧ (command cmd ∉ runtimeCommands) ∧
              isActive ext = true)
   then [ghostCommand ext cmdId] else []).
Proof.
  unfold commandMismatches. rewrite filter_app.
  assert (∀ b : bool,
    filter (isGhostOf ext cmdId)
      (if b then [missingActivationEvent ext (command cmd)] else []) = [])
    as ->.
  { intros []; [|done]. rewrite filter_cons_False; [done|]. by intros (_ & ? & _). }
  rewrite app_nil_r.
  case_bool_decide as Hrt; destruct (isActive ext) eqn:Hact; simpl;
    try (rewrite decide_False by (by intros (? & ? & ?)); done).
  rewrite filter_cons. simpl. case_decide as Hg; case_decide as Hd.
  - by destruct Hd as [-> _].
  - destruct Hg as (_ & _ & ? & _). simpl in *. tauto.
  - exfalso. apply Hg. destruct Hd as [-> _]. by repeat split.
  - done.
Qed.

Lemma ghosts_of_self runtimeCommands ext cmdId :
  isBuiltIn ext = false →
  filter (isGhostOf ext cmdId) (extensionMismatches runtimeCommands ext) =
  (if decide ((cmdId ∉ runtimeCommands) ∧ isActive ext = true)
   then (λ _, ghostCommand ext cmdId) <$>
          filter (λ cmd, command cmd = cmdId) (commandsOf ext)
   else []).
Proof.
  intros Hb. unfold extensionMismatches. rewrite Hb, filter_app.
  assert (filter (isGhostOf ext cmdId)
            (if bool_decide ("*" ∈ activationEventsOf ext)
             then [eagerActivation ext] else []) = []) as ->.
  { case_bool_decide; [|done]. rewrite filter_cons_False; [done|].
    by intros (? & _). }
  rewrite app_nil_r, filter_flat_map.
  induction (commandsOf ext) as [|cmd l IH]; simpl.
  - by case_decide.
  - rewrite IH, ghosts_of_command, filter_cons.
    repeat case_decide; simpl; try done; exfalso; intuition congruence.
Qed.

(** In a snapshot with distinct ids only [ext] itself contributes to what
    is selected by a predicate that fails on every other component. *)
Lemma flat_map_single {C} (g : Extension → list C) all ext :
  NoDup (ext_id <$> all) → ext ∈ all →
  (∀ ext', ext_id ext' ≠ ext_id ext → g ext' = []) →
  flat_map g all = g ext.
Proof.
  intros Hnd Hin Hg. induction all as [|x l IH]; [by apply elem_of_nil in Hin|].
  csimpl in Hnd. apply NoDup_cons in Hnd as [Hx Hl]. simpl.
  apply elem_of_cons in Hin as [<- | Hin].
  - rewrite flat_map_nil; [by rewrite app_nil_r|].
    apply Forall_forall. intros y Hy. apply Hg. intros Heq. apply Hx.
    rewrite <- Heq. by apply list_elem_of_fmap_2.
  - rewrite IH, Hg; [done | | done | done].
    intros Heq. apply Hx. rewrite Heq. by apply list_elem_of_fmap_2.
Qed.

(** ** C4 *)

(** C4. In a snapshot with distinct component ids, for a component that is
    not built-in: when it is active and [cmdId] is absent from the runtime
    command table, the registration detector emits exactly one conflict of
    type [registration], severity [error] and id [cmdId] for each
    declaration of [cmdId] in its manifest, so exactly one for a command it
    declares once; when it is not active the detector emits no such
    conflict for it, whatever the table holds. *)
Theorem registration_ghost_command
  (runtimeCommands : gset string) (all : list Extension)
  (ext : Extension) (cmdId : string) :
  NoDup (ext_id <$> all) → ext ∈ all → isBuiltIn ext = false →
  let ghosts :=
    filter (isGhostOf ext cmdId)
      (detectRegistrationMismatches runtimeCommands all) in
  (isActive ext = true → cmdId ∉ runtimeCommands →
     ghosts = (λ _, ghostCommand ext cmdId) <$>
                filter (λ cmd, command cmd = cmdId) (commandsOf ext)) ∧
  (isActive ext = true → cmdId ∉ runtimeCommands →
     length (filter (λ cmd, command cmd = cmdId) (commandsOf ext)) = 1 →
     ghosts = [ghostCommand ext cmdId]) ∧
  (isActive ext = false → ghosts = []).
Proof.
  intros Hnd Hin Hb. simpl.
  rewrite detectRegistrationMismatches_flat, filter_flat_map.
  rewrite (flat_map_single _ all ext Hnd Hin)
    by (intros; by apply ghosts_of_other).
  rewrite ghosts_of_self by done.
  split_and!.
  - intros Hact Hrt. by rewrite decide_True.
  - intros Hact Hrt Hone. rewrite decide_True by done.
    destruct (filter _ (commandsOf ext)) as [|cmd [|? ?]]; done.
  - intros Hact. rewrite decide_False; [done|]. intros [_ ?]. congruence.
Qed.

End RegistrationMismatch.

(** ** Keybinding suggestions *)

Section Suggestions.
Import Host ConflictDetector.

Lemma candidates_normalized :
  Forall (λ b, normalizeKeybinding b = b) candidates.
Proof.
  apply (bool_decide_unpack (Forall (λ b, normalizeKeybinding b = b) candidates)).
  by vm_compute.
Qed.

Lemma suggestKeys_spec (used : gset string) modifier ks acc :
  Forall (λ k, normalizeKeybinding (bindingOf modifier k) = bindingOf modifier k) ks →
  length acc < 10 →
  suggestKeys used modifier ks acc =
  (if decide (length acc +
              length (filter (λ b, b ∉ used) (map (bindingOf modifier) ks)) < 10)
   then Continue (acc ++ filter (λ b, b ∉ used) (map (bindingOf modifier) ks))
   else Return (take 10 (acc ++ filter (λ b, b ∉ used)
                                  (map (bindingOf modifier) ks)))).
Proof.
  intros Hn. revert acc. induction Hn as [|k ks Hk _ IH]; intros acc Hacc; simpl.
  - rewrite filter_nil, app_nil_r. case_decide; [done | lia].
  - fold (bindingOf modifier k). rewrite Hk, filter_cons.
    case_bool_decide as Hu; simpl.
    + destruct (decide (bindingOf modifier k ∉ used)) as [?|_]; [done|].
      by apply IH.
    + destruct (decide (bindingOf modifier k ∉ used)) as [_|?]; [|done].
      rewrite length_app. simpl.
      set (F := filter (λ b, b ∉ used) (map (bindingOf modifier) ks)) in *.
      replace (acc ++ bindingOf modifier k :: F)
        with ((acc ++ [bindingOf modifier k]) ++ F) by (by rewrite <- app_assoc).
      case_bool_decide as Hfull.
      * case_decide; [lia|].
        rewrite take_app_le by (rewrite length_app; simpl; lia).
        rewrite take_ge by (rewrite length_app; simpl; lia). done.
      * rewrite IH by (rewrite length_app; simpl; lia).
        rewrite length_app. simpl.
        repeat case_decide; try done; lia.
Qed.

Lemma suggestModifiers_cons (used : gset string) m ms acc :
  suggestModifiers used (m :: ms) acc =
  match suggestKeys used m keys acc with
  | Return suggestions => suggestions
  | Continue suggestions => suggestModifiers used ms suggestions
  end.
Proof. reflexivity. Qed.

Lemma suggestModifiers_spec (used : gset string) ms acc :
  Forall (λ b, normalizeKeybinding b = b)
    (flat_map (λ modifier, map (bindingOf modifier) keys) ms) →
  length acc < 10 →
  suggestModifiers used ms acc =
  take 10 (acc ++ filter (λ b, b ∉ used)
                    (flat_map (λ modifier, map (bindingOf modifier) keys) ms)).
Proof.
  revert acc. induction ms as [|m ms IH]; intros acc Hn Hacc.
  - cbn [suggestModifiers flat_map]. rewrite filter_nil, app_nil_r.
    by rewrite take_ge by lia.
  - cbn [flat_map] in *. apply Forall_app in Hn as [Hm Hms].
    rewrite suggestModifiers_cons.
    rewrite suggestKeys_spec; [|by apply Forall_fmap in Hm|done].
    rewrite filter_app, (assoc_L (++)). case_decide as Hlen.
    + apply IH; [done|]. rewrite length_app. lia.
    + symmetry. apply take_app_le. rewrite length_app. lia.
Qed.

(** ** C5 *)

(** C5. For every set of used (normalised) keybindings the suggestion
    search returns the first ten, or all if there are fewer, of the 192
    candidates (4 modifier combinations outside, 48 keys inside) that are
    not in the set, in enumeration order; no result is a used binding; the
    result is empty when all 192 candidates are used; and the result
    depends on the used set only, not on the current binding or on anything
    else in the snapshot. *)
Theorem suggest_first_unused (usedBindings : gset string) :
  let result := suggestModifiers usedBindings modifiers [] in
  length modifiers = 4 ∧ length keys = 48 ∧ length candidates = 192 ∧
  result = take 10 (filter (λ b, b ∉ usedBindings) candidates) ∧
  (∀ b, b ∈ result → b ∈ candidates ∧ b ∉ usedBindings) ∧
  ((∀ b, b ∈ candidates → b ∈ usedBindings) → result = []) ∧
  (∀ currentBinding all,
     usedBindingsOf all = usedBindings →
     suggestAlternativeKeybindings currentBinding all = result).
Proof.
  intros result.
  assert (result = take 10 (filter (λ b, b ∉ usedBindings) candidates)) as Hres.
  { unfold result. rewrite suggestModifiers_spec.
    - done.
    - apply candidates_normalized.
    - cbn [length]. lia. }
  clearbody result.
  split; [reflexivity|]. split; [reflexivity|].
  split; [by vm_compute|]. split; [exact Hres|].
  split; [|split].
  - intros b. rewrite Hres. intros Hb%subseteq_take.
    apply list_elem_of_filter in Hb. tauto.
  - intros Hall. rewrite Hres, filter_none; [done|]. intros b Hb. auto.
  - intros currentBinding all <-. rewrite Hres.
    unfold suggestAlternativeKeybindings.
    rewrite suggestModifiers_spec.
    + done.
    + apply candidates_normalized.
    + cbn [length]. lia.
Qed.

End Suggestions.

(** ** Remediation *)

Section SingleFix.
Import Host ConflictDetector.

(** ** C7 *)

(** C7. The single-conflict remediation writes no file, whatever the
    conflict: it hands no edit to the host and leaves every document as it
    was; it builds the text [onCommand:] followed by the conflict id, shows
    it in one information message, and puts exactly that text on the
    clipboard when, and only when, the user picks the copy button. *)
Theorem single_fix_writes_no_file (conflict : Conflict) (w : World) :
  let newEvent := "onCommand:" +:+ c_id conflict in
  let result := (fixMissingActivationEvents conflict w).1 in
  let w' := (fixMissingActivationEvents conflict w).2 in
  result = true ∧
  documents w' = documents w ∧
  editRequests w' = editRequests w ∧
  clipboard w' =
    (if decide (selection w = Some "Copy to Clipboard")
     then Some newEvent else clipboard w) ∧
  notifications w' =
    notifications w ++
      [Information ("Manual Fix Required: To fix this, add " +:+ Js.dq +:+
                    newEvent +:+ Js.dq +:+
                    " to 'activationEvents' in package.json.")].
Proof.
  unfold fixMissingActivationEvents, showInformationMessage, mbind, M_bind,
    mret, M_ret, clipboardWriteText.
  cbn zeta. destruct (selection w) as [s|] eqn:Hs.
  - destruct (bool_decide (s ∈ ["Copy to Clipboard"])) eqn:Hin.
    + apply bool_decide_eq_true, list_elem_of_singleton in Hin as ->.
      destruct (bool_decide (Some "Copy to Clipboard" = Some "Copy to Clipboard"))
        eqn:He; [|by apply bool_decide_eq_false in He].
      cbn. by rewrite decide_True.
    + apply bool_decide_eq_false in Hin.
      destruct (bool_decide (None = Some "Copy to Clipboard")) eqn:He;
        [by apply bool_decide_eq_true in He|].
      cbn. rewrite decide_False; [done|]. intros [= ->]. apply Hin.
      by apply list_elem_of_singleton.
  - destruct (bool_decide (None = Some "Copy to Clipboard")) eqn:He;
      [by apply bool_decide_eq_true in He|].
    cbn. by rewrite decide_False.
Qed.

End SingleFix.

Section BatchFix.
Import Host ConflictDetector.

Lemma sameButNotifications_refl w : sameButNotifications w w.
Proof. by repeat split. Qed.

Lemma sameButNotifications_trans w1 w2 w3 :
  sameButNotifications w1 w2 → sameButNotifications w2 w3 →
  sameButNotifications w1 w3.
Proof.
  unfold sameButNotifications. intros (?&?&?&?&?&?&?) (?&?&?&?&?&?&?).
  repeat split; congruence.
Qed.

Lemma withNotification_same n w : sameButNotifications w (withNotification n w).
Proof. by repeat split. Qed.

Lemma patchGroup_planned edit g w :
  (patchGroup edit g w).1 =
    edit ++ option_list (plannedReplacement (extensions w) (documents w) g) ∧
  sameButNotifications w (patchGroup edit g w).2.
Proof.
  destruct g as [extId commandIds].
  unfold patchGroup, plannedReplacement, getExtension, openTextDocument,
    showErrorMessage, mbind, M_bind, mret, M_ret. simpl.
  destruct (List.find _ (extensions w)) as [extension|]; simpl.
  2:{ rewrite app_nil_r. split; [done | apply sameButNotifications_refl]. }
  destruct (documents w !! packageJsonUriOf extension) as [[|json]|]; simpl.
  - rewrite app_nil_r. split; [done | apply withNotification_same].
  - case_bool_decide; simpl; rewrite ?app_nil_r;
      (split; [done | apply sameButNotifications_refl]).
  - rewrite app_nil_r. split; [done | apply withNotification_same].
Qed.

Lemma forEach_patchGroup groups edit w :
  (forEach groups patchGroup edit w).1 =
    edit ++ omap (plannedReplacement (extensions w) (documents w)) groups ∧
  sameButNotifications w (forEach groups patchGroup edit w).2.
Proof.
  revert edit w. induction groups as [|g groups IH]; intros edit w; simpl.
  - rewrite app_nil_r. split; [done | apply sameButNotifications_refl].
  - unfold mbind, M_bind.
    destruct (patchGroup_planned edit g w) as [He Hw].
    destruct (patchGroup edit g w) as [edit1 w1]. simpl in He, Hw.
    destruct (IH edit1 w1) as [He' Hw'].
    split; [|by eapply sameButNotifications_trans].
    rewrite He', He. destruct Hw as (-> & _ & -> & _).
    rewrite <- app_assoc. f_equal.
    by destruct (plannedReplacement _ _ g).
Qed.

Lemma extensionGroups_fold (l : list Conflict) :
  fold_left (λ extensionGroups conflict,
    JsMap.addTo (default EmptyString (extensionId conflict))
      (c_id conflict) extensionGroups) l JsMap.empty =
  group (map (λ c, (default EmptyString (extensionId c), c_id c)) l)
        JsMap.empty.
Proof.
  unfold group.
  exact (fold_left_map
    (λ m (kx : string * string), JsMap.addTo kx.1 kx.2 m)
    (λ c, (default EmptyString (extensionId c), c_id c)) l JsMap.empty).
Qed.

(** What one batch run does to the documents and to the edits the host
    has been handed. *)
Lemma fixAll_run (w : World) :
  let result := (fixAllMissingActivationEvents w).1 in
  let w' := (fixAllMissingActivationEvents w).2 in
  extensions w' = extensions w ∧ runtimeCommands w' = runtimeCommands w ∧
  editsAccepted w' = editsAccepted w ∧
  if decide (missingEventsOf w = [])
  then result = true ∧ documents w' = documents w ∧
       editRequests w' = editRequests w
  else result = editsAccepted w ∧
       editRequests w' = editRequests w ++ [plannedEdit w] ∧
       documents w' = (if editsAccepted w
                       then applyReplacements (plannedEdit w) (documents w)
                       else documents w).
Proof.
  cbv [fixAllMissingActivationEvents mbind M_bind mret M_ret getExtensions
       getCommands].
  fold (missingEventsOf w).
  case_decide as Hm.
  - rewrite Hm. cbn. by repeat split.
  - rewrite bool_decide_eq_false_2
      by (destruct (missingEventsOf w); [done | cbn; lia]).
    rewrite !extensionGroups_fold.
    fold (extensionGroupsOf w). unfold JsMap.entries.
    destruct (forEach_patchGroup (extensionGroupsOf w) [] w) as [He Hw].
    destruct (forEach (extensionGroupsOf w) patchGroup [] w) as [edit w1].
    cbn [fst snd] in He, Hw. rewrite app_nil_l in He.
    fold (plannedEdit w) in He. subst edit.
    destruct Hw as (Hx & Hr & Hd & Hc & Hq & Ha & Hs).
    unfold applyEdit, showInformationMessage. rewrite <- Ha, <- Hq, <- Hd.
    destruct (editsAccepted w1); cbn; by repeat split.
Qed.

(** *** The inner loop *)

Lemma patchActivationEvents_appends events commandIds :
  ∃ appended,
    patchActivationEvents events commandIds = events ++ appended ∧
    NoDup appended ∧
    ∀ e, e ∈ appended ↔ (e ∉ events) ∧ e ∈ onCommand <$> commandIds.
Proof.
  revert events. induction commandIds as [|cmdId ids IH]; intros events.
  - exists []. rewrite app_nil_r. split_and!; [done | apply NoDup_nil_2 |].
    intros e. split; [by intros ?%elem_of_nil | by intros [_ ?%elem_of_nil]].
  - unfold patchActivationEvents. simpl. fold (onCommand cmdId).
    case_bool_decide as Hin; simpl.
    + destruct (IH events) as (appended & Heq & Hnd & Hiff).
      exists appended. split_and!; [done | done |].
      intros e. rewrite Hiff. csimpl. rewrite elem_of_cons.
      split; [tauto|]. intros [Hne [-> | ?]]; tauto.
    + destruct (IH (events ++ [onCommand cmdId])) as (appended & Heq & Hnd & Hiff).
      exists (onCommand cmdId :: appended). split_and!.
      * unfold patchActivationEvents in Heq. rewrite Heq.
        by rewrite <- app_assoc.
      * apply NoDup_cons. split; [|done]. rewrite Hiff.
        intros [Hn _]. apply Hn, elem_of_app. right. by apply list_elem_of_singleton.
      * intros e. rewrite elem_of_cons, Hiff. csimpl.
        rewrite elem_of_app, list_elem_of_singleton, elem_of_cons.
        destruct (decide (e = onCommand cmdId)) as [->|]; tauto.
Qed.

Lemma patchActivationEvents_contains events commandIds cmdId :
  cmdId ∈ commandIds →
  onCommand cmdId ∈ patchActivationEvents events commandIds.
Proof.
  intros Hin.
  destruct (patchActivationEvents_appends events commandIds)
    as (appended & -> & _ & Hiff).
  apply elem_of_app. destruct (decide (onCommand cmdId ∈ events)); [by left|].
  right. apply Hiff. split; [done|]. by apply list_elem_of_fmap_2.
Qed.

Lemma patchActivationEvents_present events commandIds :
  (∀ cmdId, cmdId ∈ commandIds → onCommand cmdId ∈ events) →
  patchActivationEvents events commandIds = events.
Proof.
  intros Hall.
  destruct (patchActivationEvents_appends events commandIds)
    as ([|e appended] & -> & _ & Hiff); [by rewrite app_nil_r|].
  exfalso. destruct (Hiff e) as [[Hn Hin] _]; [apply elem_of_cons; by left|].
  apply list_elem_of_fmap in Hin as (cmdId & -> & Hin). by apply Hn, Hall.
Qed.

Lemma patchActivationEvents_grows events commandIds :
  length (patchActivationEvents events commandIds) > length events →
  ∃ cmdId, cmdId ∈ commandIds ∧ onCommand cmdId ∉ events.
Proof.
  destruct (patchActivationEvents_appends events commandIds)
    as ([|e appended] & -> & _ & Hiff).
  - rewrite app_nil_r. lia.
  - intros _. destruct (Hiff e) as [[Hn Hin] _]; [apply elem_of_cons; by left|].
    apply list_elem_of_fmap in Hin as (cmdId & -> & Hin). by exists cmdId.
Qed.

(** *** The documents after the edit *)

Lemma applyReplacements_other (edit : WorkspaceEdit) docs uri :
  uri ∉ edit.*1 → applyReplacements edit docs !! uri = docs !! uri.
Proof.
  unfold applyReplacements. revert docs.
  induction edit as [|[u d] edit IH]; intros docs Hn; [done|].
  csimpl in Hn. apply not_elem_of_cons in Hn as [Hne Hn]. simpl.
  rewrite IH by done. by apply lookup_insert_ne.
Qed.

Lemma applyReplacements_replaced (edit : WorkspaceEdit) docs uri d :
  NoDup edit.*1 → (uri, d) ∈ edit →
  applyReplacements edit docs !! uri = Some d.
Proof.
  revert docs. induction edit as [|[u d'] edit IH]; intros docs Hnd Hin.
  - by apply elem_of_nil in Hin.
  - csimpl in Hnd. apply NoDup_cons in Hnd as [Hu Hnd].
    apply elem_of_cons in Hin as [[= <- <-] | Hin].
    + change (applyReplacements ((uri, d) :: edit) docs)
        with (applyReplacements edit (<[uri := d]> docs)).
      rewrite applyReplacements_other by done. apply lookup_insert_eq.
    + change (applyReplacements ((u, d') :: edit) docs)
        with (applyReplacements edit (<[u := d']> docs)).
      by apply IH.
Qed.

Lemma chars_app_inv_r a b s : a +:+ s = b +:+ s → a = b.
Proof.
  intros H. apply (f_equal Js.chars) in H. rewrite !chars_app in H.
  apply app_inv_tail in H.
  rewrite <- (str_chars a), <- (str_chars b). by f_equal.
Qed.

Lemma NoDup_fmap_eq {X Y} (f : X → Y) (l : list X) x y :
  NoDup (f <$> l) → x ∈ l → y ∈ l → f x = f y → x = y.
Proof.
  induction l as [|z l IH]; intros Hnd Hx Hy Hf; [by apply elem_of_nil in Hx|].
  csimpl in Hnd. apply NoDup_cons in Hnd as [Hz Hnd].
  apply elem_of_cons in Hx as [-> | Hx]; apply elem_of_cons in Hy as [-> | Hy].
  - done.
  - exfalso. apply Hz. rewrite Hf. by apply list_elem_of_fmap_2.
  - exfalso. apply Hz. rewrite <- Hf. by apply list_elem_of_fmap_2.
  - by apply IH.
Qed.

Lemma find_ext_Some exts extId extension :
  List.find (λ e, bool_decide (ext_id e = extId)) exts = Some extension →
  extension ∈ exts ∧ ext_id extension = extId.
Proof.
  intros [Hin Hid]%find_some. split; [by apply list_elem_of_In|].
  by apply bool_decide_eq_true in Hid.
Qed.

(** Replacements planned for two groups hit the same document only when
    the groups are keyed by the same component id. *)
Lemma plannedReplacement_uri exts docs g1 g2 r1 r2 :
  NoDup (extensionUri <$> exts) →
  plannedReplacement exts docs g1 = Some r1 →
  plannedReplacement exts docs g2 = Some r2 →
  r1.1 = r2.1 → g1.1 = g2.1.
Proof.
  unfold plannedReplacement. intros Hnd H1 H2 Hu.
  destruct (List.find _ exts) as [e1|] eqn:F1; [|done].
  destruct (List.find (λ e, bool_decide (ext_id e = g2.1)) exts)
    as [e2|] eqn:F2; [|done].
  apply find_ext_Some in F1 as [Hin1 <-]. apply find_ext_Some in F2 as [Hin2 <-].
  destruct (docs !! packageJsonUriOf e1) as [[|j1]|]; try done.
  destruct (docs !! packageJsonUriOf e2) as [[|j2]|]; try done.
  repeat case_bool_decide; simplify_eq/=.
  unfold packageJsonUriOf in Hu. apply chars_app_inv_r in Hu.
  by rewrite (NoDup_fmap_eq extensionUri exts e1 e2).
Qed.

Lemma NoDup_planned exts docs (groups : list (string * list string)) :
  NoDup (extensionUri <$> exts) → NoDup groups.*1 →
  NoDup (omap (plannedReplacement exts docs) groups).*1.
Proof.
  intros Hx. induction groups as [|g groups IH]; intros Hg; [apply NoDup_nil_2|].
  csimpl in Hg. apply NoDup_cons in Hg as [Hg1 Hg]. simpl.
  destruct (plannedReplacement exts docs g) as [r|] eqn:Hr; [|by apply IH].
  csimpl. apply NoDup_cons. split; [|by apply IH].
  intros (r' & Hu & Hin)%list_elem_of_fmap.
  apply list_elem_of_omap in Hin as (g' & Hin & Hr').
  apply Hg1. rewrite (plannedReplacement_uri exts docs g g' r r') by done.
  by apply list_elem_of_fmap_2.
Qed.

Lemma NoDup_fst_eq {V} (l : list (string * V)) e1 e2 :
  NoDup l.*1 → e1 ∈ l → e2 ∈ l → e1.1 = e2.1 → e1 = e2.
Proof. apply NoDup_fmap_eq. Qed.

(** Once the planned edit is applied nothing is left to replace. *)
Lemma plannedReplacement_settled exts docs groups g :
  NoDup (extensionUri <$> exts) → NoDup groups.*1 → g ∈ groups →
  plannedReplacement exts
    (applyReplacements (omap (plannedReplacement exts docs) groups) docs) g = None.
Proof.
  intros Hx Hg Hin.
  set (edit := omap (plannedReplacement exts docs) groups).
  assert (NoDup edit.*1) as Hnd by (by apply NoDup_planned).
  destruct (plannedReplacement exts docs g) as [[u d]|] eqn:Hp.
  - assert ((u, d) ∈ edit) as He by (apply list_elem_of_omap; by exists g).
    pose proof (applyReplacements_replaced edit docs u d Hnd He) as Hl.
    unfold plannedReplacement in *.
    destruct (List.find _ exts) as [extension|]; [|done].
    destruct (docs !! packageJsonUriOf extension) as [[|json]|]; try done.
    case_bool_decide; [|done]. simplify_eq. rewrite Hl. simpl.
    rewrite patchActivationEvents_present; [by rewrite bool_decide_eq_false_2 by lia|].
    intros cmdId Hc. unfold Js.sortStrings. rewrite merge_sort_Permutation.
    by apply patchActivationEvents_contains.
  - unfold plannedReplacement in *.
    destruct (List.find _ exts) as [extension|] eqn:Hf; [|done].
    rewrite applyReplacements_other; [done|].
    intros (r' & Hu & Hr')%list_elem_of_fmap.
    apply list_elem_of_omap in Hr' as (g' & Hin' & Hp').
    assert (g' = g) as ->.
    { apply (NoDup_fst_eq groups); [done..|].
      unfold plannedReplacement in Hp'.
      destruct (List.find (λ e, bool_decide (ext_id e = g'.1)) exts)
        as [e'|] eqn:Hf'; [|done].
      apply find_ext_Some in Hf as [Hi1 <-]. apply find_ext_Some in Hf' as [Hi2 <-].
      destruct (docs !! packageJsonUriOf e') as [[|j']|]; try done.
      case_bool_decide; simplify_eq/=.
      unfold packageJsonUriOf in Hu. apply chars_app_inv_r in Hu.
      by rewrite (NoDup_fmap_eq extensionUri exts extension e'). }
    unfold plannedReplacement in Hp'. rewrite Hf in Hp'.
    destruct (docs !! packageJsonUriOf extension) as [[|json]|]; try done.
    by case_bool_decide.
Qed.

Lemma omap_all_None {X Y} (f : X → option Y) l :
  (∀ x, x ∈ l → f x = None) → omap f l = [].
Proof.
  induction l as [|x l IH]; intros H; [done|]. simpl.
  rewrite H by (apply elem_of_cons; by left).
  apply IH. intros y ?. apply H, elem_of_cons. by right.
Qed.

(** ** C6 *)

(** C6. Batch remediation is idempotent.  The inner loop appends the event
    [onCommand:] plus id only for grouped ids whose event is not yet in
    the collection, each once; a group adds a replacement to the edit only
    when at least one event was appended for it; and when a run whose edit
    the host applied is followed by a second run over the same registry
    snapshot, the second run hands the host an empty edit or none, and
    leaves every document as the first run left it.  Components are
    assumed to be installed at distinct locations. *)
Theorem batch_fix_idempotent :
  (∀ events commandIds, ∃ appended,
     patchActivationEvents events commandIds = events ++ appended ∧
     NoDup appended ∧
     ∀ e, e ∈ appended ↔ (e ∉ events) ∧ e ∈ onCommand <$> commandIds) ∧
  (∀ edit g w,
     (patchGroup edit g w).1 = edit ∨
     ∃ extension json cmdId,
       (getExtension g.1 w).1 = Some extension ∧
       documents w !! packageJsonUriOf extension = Some (Json json) ∧
       cmdId ∈ g.2 ∧
       (onCommand cmdId ∉ default [] (json_activationEvents json)) ∧
       (patchGroup edit g w).1 =
         edit ++ [(packageJsonUriOf extension,
                   Json {| json_activationEvents :=
                             Some (Js.sortStrings
                               (patchActivationEvents
                                  (default [] (json_activationEvents json)) g.2));
                           json_rest := json_rest json |})]) ∧
  (∀ w,
     NoDup (extensionUri <$> extensions w) →
     (fixAllMissingActivationEvents w).1 = true →
     let w1 := (fixAllMissingActivationEvents w).2 in
     let w2 := (fixAllMissingActivationEvents w1).2 in
     documents w2 = documents w1 ∧
     (editRequests w2 = editRequests w1 ∨
      editRequests w2 = editRequests w1 ++ [[]])).
Proof.
  split_and!.
  - apply patchActivationEvents_appends.
  - intros edit g w. destruct (patchGroup_planned edit g w) as [-> _].
    unfold plannedReplacement, getExtension. simpl.
    destruct (List.find _ (extensions w)) as [extension|];
      [|left; by rewrite app_nil_r].
    destruct (documents w !! packageJsonUriOf extension) as [[|json]|] eqn:Hd;
      try (left; by rewrite app_nil_r).
    case_bool_decide as Hlen; [|left; by rewrite app_nil_r].
    apply patchActivationEvents_grows in Hlen as (cmdId & Hin & Hn).
    right. by exists extension, json, cmdId.
  - intros w Hx Hok. simpl.
    destruct (fixAll_run w) as (Hx1 & Hr1 & Ha1 & H1). simpl in H1.
    set (w1 := (fixAllMissingActivationEvents w).2) in *.
    destruct (fixAll_run w1) as (Hx2 & Hr2 & Ha2 & H2). simpl in H2.
    set (w2 := (fixAllMissingActivationEvents w1).2) in *.
    assert (missingEventsOf w1 = missingEventsOf w) as Hm
      by (unfold missingEventsOf; by rewrite Hx1, Hr1).
    assert (extensionGroupsOf w1 = extensionGroupsOf w) as Hg
      by (unfold extensionGroupsOf; by rewrite Hm).
    rewrite Hm in H2. case_decide as He.
    + destruct H1 as (_ & Hd1 & Hq1). destruct H2 as (_ & Hd2 & Hq2).
      split; [done | by left].
    + destruct H1 as (Hres & Hq1 & Hd1). destruct H2 as (_ & Hq2 & Hd2).
      rewrite Hok in Hres. rewrite <- Hres in Hd1.
      assert (plannedEdit w1 = []) as Hp.
      { unfold plannedEdit. rewrite Hg, Hx1, Hd1. apply omap_all_None.
        intros g Hin. apply plannedReplacement_settled; [done | | done].
        apply (NoDup_keys_group _ JsMap.empty), NoDup_nil_2. }
      rewrite Hp in Hq2, Hd2.
      split; [|by right]. by destruct (editsAccepted w1).
Qed.

End BatchFix.

(** ** Log monitor *)

Section TailRead.
Import LogMonitor.

Lemma length_str l : String.length (Js.str l) = length l.
Proof. induction l as [|c l IH]; simpl; [done | by rewrite IH]. Qed.

Lemma length_string_app a b :
  String.length (a +:+ b) = String.length a + String.length b.
Proof. induction a as [|c a IH]; simpl; [done | by rewrite IH]. Qed.

Lemma latin1_length bytes : String.length (latin1 bytes) ≤ length bytes.
Proof. unfold latin1. by rewrite length_str, length_fmap. Qed.

Variable utf8 : list Byte.byte → string.

(** Decoding never yields more code units than there are bytes. *)
Hypothesis utf8_length : ∀ bytes, String.length (utf8 bytes) ≤ length bytes.

(** ** C8 *)

(** C8. For every log file the tail read returns the decoded content of the
    whole file when its size is at most 50 KiB, and otherwise the truncation
    marker followed by the decoding of exactly the trailing 50 KiB; whatever
    is stored at the location, the returned text is never longer than 50 KiB
    plus the length of the marker. *)
Theorem tail_read_bounded (content : list Byte.byte) (node : option Node) :
  let size := Z.of_nat (length content) in
  let window := drop (Z.to_nat (size - MAX_BYTES)) content in
  ((size ≤ MAX_BYTES)%Z → readFile utf8 (Some (File content)) = utf8 content) ∧
  ((size > MAX_BYTES)%Z →
     readFile utf8 (Some (File content)) = TRUNCATED +:+ utf8 window ∧
     Z.of_nat (length window) = MAX_BYTES ∧
     window `suffix_of` content) ∧
  (Z.of_nat (String.length (readFile utf8 node))
     ≤ MAX_BYTES + Z.of_nat (String.length TRUNCATED))%Z.
Proof.
  intros size window. split_and!.
  - intros Hs. unfold readFile. fold size.
    by destruct (Z.leb_spec size MAX_BYTES); [|lia].
  - intros Hs. unfold readFile. fold size.
    destruct (Z.leb_spec size MAX_BYTES); [lia|]. fold window.
    assert (Z.of_nat (length window) = MAX_BYTES) as Hw.
    { unfold window. rewrite length_drop.
      assert (0 ≤ MAX_BYTES)%Z by (unfold MAX_BYTES; lia). lia. }
    split_and!; [|done|by apply suffix_drop].
    rewrite take_ge; [done|]. lia.
  - assert (0 ≤ MAX_BYTES)%Z as Hmax by (unfold MAX_BYTES; lia).
    destruct node as [[c|]|]; unfold readFile; cbn [String.length]; [|lia..].
    destruct (Z.leb_spec (Z.of_nat (length c)) MAX_BYTES) as [Hle|Hgt].
    + pose proof (utf8_length c). lia.
    + rewrite length_string_app.
      pose proof (utf8_length
        (take (Z.to_nat MAX_BYTES)
           (drop (Z.to_nat (Z.of_nat (length c) - MAX_BYTES)) c))) as Hl.
      rewrite length_take in Hl.
      set (u := String.length (utf8 _)) in *.
      set (t := String.length TRUNCATED). lia.
Qed.

End TailRead.

Section Parsing.
Import LogMonitor.

(** *** Splitting into lines *)

Lemma splitChars_no_sep sep cur l :
  sep ∉ l → Js.splitChars sep cur l = [rev cur ++ l].
Proof.
  revert cur. induction l as [|c l IH]; intros cur Hn; simpl.
  - by rewrite app_nil_r.
  - apply not_elem_of_cons in Hn as [Hne Hn].
    rewrite bool_decide_eq_false_2 by done. rewrite IH by done.
    simpl. by rewrite <- app_assoc.
Qed.

Lemma splitChars_app sep cur a l :
  Js.splitChars sep cur (a ++ sep :: l) =
  Js.splitChars sep cur a ++ Js.splitChars sep [] l.
Proof.
  revert cur. induction a as [|c a IH]; intros cur; simpl.
  - by rewrite bool_decide_eq_true_2.
  - case_bool_decide; [by rewrite IH | apply IH].
Qed.

Lemma splitLines_snoc content line :
  Js.LF ∉ Js.chars line →
  Js.splitLines (content +:+ newline +:+ line) = Js.splitLines content ++ [line].
Proof.
  intros Hn. unfold Js.splitLines, newline.
  rewrite !chars_app. simpl.
  rewrite splitChars_app.
  rewrite (splitChars_no_sep Js.LF [] (Js.chars line)) by done.
  rewrite map_app. simpl. by rewrite str_chars.
Qed.

Lemma splitLines_single line :
  Js.LF ∉ Js.chars line → Js.splitLines line = [line].
Proof.
  intros Hn. unfold Js.splitLines. rewrite splitChars_no_sep by done.
  simpl. by rewrite str_chars.
Qed.

(** *** The line pattern *)

Lemma startsWithChars_drop p s :
  Js.startsWithChars p s = true → s = p ++ drop (length p) s.
Proof.
  intros [k ->]%startsWithChars_prefix. by rewrite drop_app_length.
Qed.

Lemma lazyGroup_sound {A} sep (k : list ascii → list ascii → option A) acc s r :
  lazyGroup sep k acc s = Some r →
  ∃ g rest, s = g ++ sep ++ rest ∧ noLineTerminator g ∧
            k (rev acc ++ g) rest = Some r.
Proof.
  revert acc. induction s as [|c s IH]; intros acc; simpl.
  - destruct (Js.startsWithChars sep []) eqn:Hp.
    + destruct (k (rev acc) (drop (length sep) [])) as [r'|] eqn:Hk; [|done].
      intros [= ->]. exists [], (drop (length sep) []).
      rewrite app_nil_r. split_and!; [|constructor|done].
      by apply startsWithChars_drop.
    + done.
  - destruct (Js.startsWithChars sep (c :: s)) eqn:Hp.
    + destruct (k (rev acc) (drop (length sep) (c :: s))) as [r'|] eqn:Hk.
      * intros [= ->]. exists [], (drop (length sep) (c :: s)).
        rewrite app_nil_r. split_and!; [|constructor|done].
        by apply startsWithChars_drop.
      * destruct (Js.isLineTerminator c) eqn:Hc; [done|].
        intros (g & rest & -> & Hg & Hk')%IH.
        exists (c :: g), rest. split_and!; [done | by constructor |].
        simpl in Hk'. by rewrite <- app_assoc in Hk'.
    + destruct (Js.isLineTerminator c) eqn:Hc; [done|].
      intros (g & rest & -> & Hg & Hk')%IH.
      exists (c :: g), rest. split_and!; [done | by constructor |].
      simpl in Hk'. by rewrite <- app_assoc in Hk'.
Qed.

Lemma lazyGroup_complete {A} sep (k : list ascii → list ascii → option A)
  acc g rest :
  noLineTerminator g → is_Some (k (rev acc ++ g) rest) →
  is_Some (lazyGroup sep k acc (g ++ sep ++ rest)).
Proof.
  intros Hg. revert acc. induction Hg as [|c g Hc _ IH]; intros acc Hk.
  - rewrite app_nil_r in Hk. simpl.
    assert (Js.startsWithChars sep (sep ++ rest) = true) as Hp
      by (apply startsWithChars_prefix; by exists rest).
    destruct (sep ++ rest) as [|c s] eqn:Hs; simpl; rewrite Hp;
      rewrite <- Hs, drop_app_length; by destruct Hk as [r ->].
  - simpl.
    destruct (if Js.startsWithChars sep (c :: g ++ sep ++ rest) then _ else _);
      [by eexists|].
    rewrite Hc. apply IH. simpl. by rewrite <- app_assoc.
Qed.

Lemma greedyToEnd_Some s g : greedyToEnd s = Some g → g = s ∧ noLineTerminator s.
Proof.
  unfold greedyToEnd. destruct (forallb _ s) eqn:Hf; [|done].
  intros [= <-]. split; [done|]. apply Forall_forall. intros c Hc.
  rewrite forallb_forall in Hf. apply negb_true_iff, Hf. by apply list_elem_of_In.
Qed.

Lemma greedyToEnd_complete s : noLineTerminator s → greedyToEnd s = Some s.
Proof.
  intros Hs. unfold greedyToEnd.
  assert (forallb (λ c, negb (Js.isLineTerminator c)) s = true) as ->; [|done].
  apply forallb_forall. intros c Hc%list_elem_of_In.
  unfold noLineTerminator in Hs. rewrite Forall_forall in Hs.
  by rewrite (Hs c Hc).
Qed.

(** A match spells out the line. *)
Lemma matchLine_sound line m1 m2 m3 m4 :
  matchLine line = Some (m1, m2, m3, m4) → line = headerLine m1 m2 m3 m4.
Proof.
  unfold matchLine. destruct (Js.chars line) as [|c s1] eqn:Hl; [done|].
  case_bool_decide as Hc; [subst c|done].
  intros (g1 & s2 & -> & _ & H2)%lazyGroup_sound.
  apply lazyGroup_sound in H2 as (g2 & s3 & -> & _ & H3).
  apply lazyGroup_sound in H3 as (g3 & s4 & -> & _ & H4).
  destruct (greedyToEnd s4) as [g4|] eqn:Hg; [|done].
  apply greedyToEnd_Some in Hg as [-> _]. simplify_eq/=.
  rewrite <- (str_chars line), Hl. unfold headerLine.
  rewrite <- (str_chars (_ +:+ _)). f_equal.
  by rewrite !chars_app, !chars_str.
Qed.

(** A line of the header form without line terminators matches. *)
Lemma matchLine_complete m1 m2 m3 m4 :
  noLineTerminator (Js.chars (headerLine m1 m2 m3 m4)) →
  is_Some (matchLine (headerLine m1 m2 m3 m4)).
Proof.
  assert (Js.chars (headerLine m1 m2 m3 m4) =
          "["%char :: Js.chars m1 ++ Js.chars "] [" ++ Js.chars m2 ++
            Js.chars "] [" ++ Js.chars m3 ++ Js.chars "] " ++ Js.chars m4) as E
    by (unfold headerLine; by rewrite !chars_app).
  unfold matchLine. rewrite E. clear E.
  set (S1 := Js.chars "] ["). set (S2 := Js.chars "] "). clearbody S1 S2.
  intros Hn. rewrite bool_decide_eq_true_2 by done.
  inversion Hn as [|? ? _ Hn1]; subst.
  apply Forall_app in Hn1 as [H1 Hn2].
  apply Forall_app in Hn2 as [_ Hn2]. apply Forall_app in Hn2 as [H2 Hn3].
  apply Forall_app in Hn3 as [_ Hn3]. apply Forall_app in Hn3 as [H3 Hn4].
  apply Forall_app in Hn4 as [_ H4].
  apply (lazyGroup_complete S1 _ [] (Js.chars m1)); [done|]. cbn [rev app].
  apply (lazyGroup_complete S1 _ [] (Js.chars m2)); [done|]. cbn [rev app].
  apply (lazyGroup_complete S2 _ [] (Js.chars m3)); [done|]. cbn [rev app].
  rewrite greedyToEnd_complete by done. by eexists.
Qed.

(** *** The loop over the lines *)

Lemma trimNonEmpty_blank line : Js.trimNonEmpty line = false ↔ blankLine line.
Proof.
  unfold Js.trimNonEmpty, blankLine.
  induction (Js.chars line) as [|c l IH]; simpl.
  - split; [constructor | done].
  - rewrite orb_false_iff, negb_false_iff, IH. split.
    + intros [? ?]. by constructor.
    + by inversion 1.
Qed.

Lemma appendToLast_snoc entries e line :
  appendToLast (entries ++ [e]) line = entries ++ [continued e line].
Proof.
  unfold appendToLast. rewrite length_app. simpl.
  replace (length entries + 1 - 1) with (length entries + 0) by lia.
  by rewrite alter_app_r.
Qed.

Lemma parseLine_header source entries line m1 m2 m3 m4 :
  matchLine line = Some (m1, m2, m3, m4) →
  parseLine source entries line = entries ++ [headerEntry source m1 m2 m3 m4].
Proof.
  intros Hm. unfold parseLine, headerEntry. rewrite Hm.
  by case_bool_decide; case_decide.
Qed.

Lemma parseLine_continuation source entries e line :
  matchLine line = None → ¬ blankLine line →
  parseLine source (entries ++ [e]) line = entries ++ [continued e line].
Proof.
  intros Hm Hb. unfold parseLine. rewrite Hm.
  destruct (Js.trimNonEmpty line) eqn:Ht; [|by apply trimNonEmpty_blank in Ht].
  rewrite bool_decide_eq_true_2 by (rewrite length_app; simpl; lia).
  apply appendToLast_snoc.
Qed.

Lemma parseLine_dropped source entries line :
  matchLine line = None → blankLine line ∨ entries = [] →
  parseLine source entries line = entries.
Proof.
  intros Hm Hd. unfold parseLine. rewrite Hm.
  destruct Hd as [Hb%trimNonEmpty_blank | ->].
  - by rewrite Hb.
  - by rewrite andb_false_r.
Qed.

Lemma parseLogContent_snoc content line source :
  Js.LF ∉ Js.chars line →
  parseLogContent (content +:+ newline +:+ line) source =
  parseLine source (parseLogContent content source) line.
Proof.
  intros Hn. unfold parseLogContent.
  by rewrite splitLines_snoc, fold_left_app.
Qed.

(** ** C9 *)

(** C9, amended.  A line matches when it reads bracketed timestamp, channel
    and level token followed by a message, without line terminators inside;
    the parser starts a new entry for each matching line, appends every
    non-matching line that contains a code unit other than white space,
    newline-joined, to the message of the previous entry, and drops a
    non-matching line when it is blank or when no entry precedes it.  On the
    two-header input it yields exactly two entries, the first with message
    [Something failed], a newline, and the stack-trace line. *)
Theorem parse_multiline (source : string) :
  (∀ m1 m2 m3 m4,
     noLineTerminator (Js.chars (headerLine m1 m2 m3 m4)) →
     is_Some (matchLine (headerLine m1 m2 m3 m4))) ∧
  (∀ line m1 m2 m3 m4,
     matchLine line = Some (m1, m2, m3, m4) → line = headerLine m1 m2 m3 m4) ∧
  (∀ content line,
     Js.LF ∉ Js.chars line →
     parseLogContent (content +:+ newline +:+ line) source =
     parseLine source (parseLogContent content source) line) ∧
  (∀ entries line m1 m2 m3 m4,
     matchLine line = Some (m1, m2, m3, m4) →
     parseLine source entries line =
     entries ++ [headerEntry source m1 m2 m3 m4]) ∧
  (∀ entries e line,
     matchLine line = None → ¬ blankLine line →
     parseLine source (entries ++ [e]) line = entries ++ [continued e line]) ∧
  (∀ entries line,
     matchLine line = None → blankLine line ∨ entries = [] →
     parseLine source entries line = entries) ∧
  parseLogContent twoHeaderInput source =
    [ {| timestamp := "2024-01-01T00:00:00.000"; level := LevelError;
         message := "Something failed" +:+ newline +:+ "    at foo.js:10";
         source := source |};
      {| timestamp := "2024-01-01T00:00:00.100"; level := LevelInfo;
         message := "Recovered"; source := source |} ].
Proof.
  split_and!.
  - apply matchLine_complete.
  - apply matchLine_sound.
  - intros. by apply parseLogContent_snoc.
  - intros. by apply parseLine_header.
  - intros. by apply parseLine_continuation.
  - intros. by apply parseLine_dropped.
  - by vm_compute.
Qed.

(** A line of three spaces after one header: not matching, not empty, and
    yet not appended. *)
Lemma parse_blank_line_not_appended :
  ¬ (∀ content line source,
       Js.LF ∉ Js.chars line → matchLine line = None → line ≠ EmptyString →
       parseLogContent content source ≠ [] →
       parseLogContent (content +:+ newline +:+ line) source =
       appendToLast (parseLogContent content source) line).
Proof.
  intros H.
  assert (parseLogContent ("[t] [exthost] [info] m" +:+ newline +:+ "   ") "my.ext" =
          appendToLast (parseLogContent "[t] [exthost] [info] m" "my.ext") "   ")
    as E.
  { apply H.
    - apply (bool_decide_unpack _). by vm_compute.
    - by vm_compute.
    - done.
    - by vm_compute. }
  vm_compute in E. discriminate E.
Qed.

(** *** Where an entry's source comes from *)

Lemma appendToLast_startedBy sourceId lines entries line :
  Forall (startedBy sourceId lines) entries →
  Forall (startedBy sourceId lines) (appendToLast entries line).
Proof.
  destruct entries as [|e0 entries0] using rev_ind; [done|].
  rewrite appendToLast_snoc. rewrite !Forall_app, !Forall_singleton.
  intros [? (l & m1 & m2 & m3 & m4 & ? & ? & ? & ?)]. split; [done|].
  by exists l, m1, m2, m3, m4.
Qed.

Lemma parseLine_startedBy sourceId lines entries line :
  line ∈ lines →
  Forall (startedBy sourceId lines) entries →
  Forall (startedBy sourceId lines) (parseLine sourceId entries line).
Proof.
  intros Hin He. unfold parseLine.
  destruct (matchLine line) as [[[[m1 m2] m3] m4]|] eqn:Hm.
  - apply Forall_app. split; [done|]. apply Forall_singleton.
    exists line, m1, m2, m3, m4. simpl. split_and!; try done.
    by case_bool_decide; case_decide.
  - destruct (_ && _); [by apply appendToLast_startedBy | done].
Qed.

Lemma fold_parseLine_startedBy sourceId lines ls entries :
  ls ⊆ lines →
  Forall (startedBy sourceId lines) entries →
  Forall (startedBy sourceId lines) (fold_left (parseLine sourceId) ls entries).
Proof.
  revert entries. induction ls as [|l ls IH]; intros entries Hs He; [done|].
  simpl. apply IH; [set_solver|]. apply parseLine_startedBy; [set_solver|done].
Qed.

Lemma parseLogContent_startedBy content sourceId :
  Forall (startedBy sourceId (Js.splitLines content))
         (parseLogContent content sourceId).
Proof. unfold parseLogContent. by apply fold_parseLine_startedBy. Qed.

End Parsing.

Section LogSources.
Import LogMonitor.

Lemma getLogs_elem utf8 localeCompare root sourceId e :
  e ∈ getLogs utf8 localeCompare root sourceId →
  ∃ entries file,
    readDirectory root sourceId = Some entries ∧
    file ∈ entries ∧ isLogFile file = true ∧
    e ∈ parseLogContent (readFile utf8 (Some file.2)) sourceId.
Proof.
  unfold getLogs. destruct (readDirectory root sourceId) as [entries|];
    [|by intros ?%elem_of_nil].
  rewrite sortStable_Permutation.
  rewrite (fold_left_append
    (λ file : string * Node,
       parseLogContent (readFile utf8 (Some file.2)) sourceId)).
  rewrite app_nil_l, list_elem_of_In, in_flat_map.
  intros (file & Hin & He). apply filter_In in Hin as [Hin Hlog].
  exists entries, file. by rewrite !list_elem_of_In.
Qed.

End LogSources.

Section Duplicates.
Import Host ConflictDetector.

(** ** C2 *)

Lemma contributors_distinct cmdId all :
  Forall (λ ext, NoDup (command <$> commandsOf ext)) all →
  length (contributors cmdId all) = length (contributingComponents cmdId all).
Proof.
  unfold contributors, contributingComponents.
  induction 1 as [|ext all Hnd _ IH]; [done|]. simpl.
  rewrite length_app, IH, length_map, filter_cons.
  assert (length (filter (λ cmd, command cmd = cmdId) (commandsOf ext)) =
          if decide (cmdId ∈ command <$> commandsOf ext) then 1 else 0) as ->.
  { rewrite <- (length_filter_eq_NoDup _ cmdId Hnd).
    rewrite (filter_fmap_pre (λ e, e = cmdId)). by rewrite length_fmap. }
  by case_decide.
Qed.

(** Where no manifest lists a command id twice, a command id has a conflict
    exactly when more than one component contributes it. *)
Lemma command_collision_distinct (all : list Extension) (cmdId : string) :
  Forall (λ ext, NoDup (command <$> commandsOf ext)) all →
  (∃ c, c ∈ detectCommandConflicts all ∧ c_id c = cmdId) ↔
  length (contributingComponents cmdId all) > 1.
Proof.
  intros Hnd.
  destruct (command_collision_by_contributions all) as (_ & Hcount & _).
  specialize (Hcount cmdId). rewrite contributors_distinct in Hcount by done.
  split.
  - intros (c & Hin & Hc). case_decide as Hd; [done|].
    assert (c ∈ filter (λ c, c_id c = cmdId) (detectCommandConflicts all))
      as Hf by (by apply list_elem_of_filter).
    destruct (filter _ _); [by apply elem_of_nil in Hf | done].
  - intros Hlen. rewrite decide_True in Hcount by done.
    destruct (filter _ _) as [|c l] eqn:Hf; [done|].
    assert (c ∈ filter (λ c, c_id c = cmdId) (detectCommandConflicts all))
      as [? ?]%list_elem_of_filter by (rewrite Hf; apply elem_of_cons; by left).
    by exists c.
Qed.

(** ** C1 *)

(** C1, at the failing input.  One component lists the command [x.run]
    twice; the command detector pushes its owner once per listing and
    emits a conflict that reads registered by multiple extensions, with
    two sources, although a single component contributes the command. *)
Theorem command_collision_counts_duplicates :
  length (contributingComponents "x.run" twiceContributed) = 1 ∧
  ∃ c, detectCommandConflicts twiceContributed = [c] ∧
       c_type c = TypeCommand ∧ severity c = Error ∧
       c_id c = "x.run" ∧
       sources c = ["Alpha"; "Alpha"] ∧
       description c =
         "Command " +:+ Js.dq +:+ "x.run" +:+ Js.dq +:+
         " is registered by multiple extensions".
Proof.
  split; [by vm_compute|].
  eexists. split; [by vm_compute|]. by repeat split.
Qed.

(** ** C4, where it fails as stated *)

(** An active component that is not built-in lists [x.run] twice and the
    runtime command table is empty: the registration detector emits two
    ghost-command errors for the command, not one. *)
Lemma registration_ghost_command_twice :
  Forall (λ ext, isActive ext = true ∧ isBuiltIn ext = false)
         twiceContributed ∧
  length (filter (λ c, c_type c = TypeRegistration ∧ severity c = Error ∧
                       c_id c = "x.run")
            (detectRegistrationMismatches ∅ twiceContributed)) = 2.
Proof. split; [by repeat constructor | by vm_compute]. Qed.

(** C2, at the failing input.  Two components declare [onLanguage:python],
    the first of them twice; the activation detector counts three
    declarations and emits a conflict for the event, although only two
    distinct components declare it. *)
Theorem activation_overlap_counts_duplicates :
  length (declaringComponents "onLanguage:python" twiceDeclared) = 2 ∧
  ∃ c, detectActivationConflicts twiceDeclared = [c] ∧
       c_type c = TypeActivation ∧ severity c = Warning ∧
       c_id c = "onLanguage:python" ∧
       sources c = ["First"; "First"; "Second"].
Proof.
  split; [by vm_compute|].
  eexists. split; [by vm_compute|]. by repeat split.
Qed.

End Duplicates.

(** ** Concrete instances *)

Section Instances.
Import Host ConflictDetector LogMonitor.

Lemma registration_ghost_command_witness :
  filter (isGhostOf fooExtension "foo.bar")
    (detectRegistrationMismatches ∅ [fooExtension]) =
  [ghostCommand fooExtension "foo.bar"].
Proof.
  refine (proj1 (proj2
    (registration_ghost_command ∅ [fooExtension] fooExtension "foo.bar"
       _ _ _)) _ _ _).
  - apply NoDup_singleton.
  - apply list_elem_of_singleton. reflexivity.
  - reflexivity.
  - reflexivity.
  - apply not_elem_of_empty.
  - reflexivity.
Defined.


Lemma suggest_first_unused_witness :
  suggestModifiers (list_to_set candidates) modifiers [] = [].
Proof.
  refine (proj1 (proj2 (proj2 (proj2 (proj2 (proj2
    (suggest_first_unused (list_to_set candidates))))))) _).
  intros b Hb. apply elem_of_list_to_set. exact Hb.
Defined.

Lemma batch_fix_idempotent_witness :
  documents (fixAllMissingActivationEvents
               (fixAllMissingActivationEvents fooWorld).2).2 =
  documents (fixAllMissingActivationEvents fooWorld).2.
Proof.
  refine (proj1 (proj2 (proj2 batch_fix_idempotent) fooWorld _ _)).
  - apply NoDup_singleton.
  - vm_compute. reflexivity.
Defined.

Lemma tail_read_bounded_witness :
  readFile latin1 (Some (File [Byte.x68; Byte.x69])) = "hi".
Proof.
  refine (proj1
    (tail_read_bounded latin1 latin1_length [Byte.x68; Byte.x69] None) _).
  vm_compute. discriminate.
Defined.

Lemma parse_multiline_witness :
  parseLine "my.ext"
    (parseLogContent "[t] [exthost] [error] Something failed" "my.ext")
    "    at foo.js:10" =
  [ {| timestamp := "t"; level := LevelError;
       message := "Something failed" +:+ newline +:+ "    at foo.js:10";
       source := "my.ext" |} ].
Proof.
  refine (proj1 (proj2 (proj2 (proj2 (proj2 (parse_multiline "my.ext")))))
    [] {| timestamp := "t"; level := LevelError;
          message := "Something failed"; source := "my.ext" |}
    "    at foo.js:10" _ _).
  - vm_compute. reflexivity.
  - unfold blankLine. apply (bool_decide_unpack _). vm_compute. exact I.
Defined.

End Instances.

(** * Further properties *)

(** ** Keybinding collisions *)

Section KeybindingCollision.
Import Host ConflictDetector.

Lemma fold_left_omap {X Y S} (f : S → Y → S) (g : X → option Y) l s :
  fold_left (λ s x, match g x with Some y => f s y | None => s end) l s =
  fold_left f (omap g l) s.
Proof.
  revert s. induction l as [|x l IH]; intros s; simpl; [done|].
  destruct (g x); simpl; apply IH.
Qed.

Lemma detectKeybindingConflicts_group all :
  detectKeybindingConflicts all =
  keybindingConflict <$>
    filter (λ e : string * list (string * string), length e.2 > 1)
       (group (keybindingPairs all) JsMap.empty).
Proof.
  unfold detectKeybindingConflicts, JsMap.entries.
  rewrite (fold_left_ext_fun _
    (λ acc e, if bool_decide (length e.2 > 1)
              then acc ++ [keybindingConflict e] else acc)) by (by intros ? [? ?]).
  rewrite (fold_left_collect
    (λ e : string * list (string * string), length e.2 > 1) keybindingConflict).
  simpl. do 2 f_equal.
  unfold group, keybindingPairs. rewrite <- fold_left_flat_map.
  apply fold_left_ext_fun. intros m ext.
  rewrite <- (fold_left_omap
    (λ m (kx : string * (string * string)), JsMap.addTo kx.1 kx.2 m)).
  apply fold_left_ext_fun. intros m' kb. by destruct (Js.truthy (representativeKey kb)).
Qed.

Lemma valuesFor_keybindingPairs k all :
  valuesFor k (keybindingPairs all) = bindingsOn k all.
Proof.
  unfold keybindingPairs, bindingsOn, bindingsWith.
  induction all as [|ext all IH]; simpl; [done|].
  rewrite valuesFor_app, IH. f_equal.
  unfold valuesFor.
  induction (keybindingsOf ext) as [|kb l IHl]; simpl; [done|].
  destruct (Js.truthy (representativeKey kb)) as [key|]; simpl; [|apply IHl].
  rewrite filter_cons. simpl. case_decide; simpl; [f_equal|]; apply IHl.
Qed.

Lemma keybindingMap_get k all :
  JsMap.get k (group (keybindingPairs all) JsMap.empty) =
  match bindingsOn k all with [] => None | vs => Some vs end.
Proof. by rewrite get_group_empty, valuesFor_keybindingPairs. Qed.

Lemma keybinding_collision_facts all c :
  c ∈ detectKeybindingConflicts all →
  c_type c = TypeKeybinding ∧
  sources c = map (λ b : string * string, b.1 +:+ " (" +:+ b.2 +:+ ")")
                  (bindingsOn (c_id c) all) ∧
  length (bindingsOn (c_id c) all) > 1 ∧
  severity c = Warning ∧ extensionId c = None.
Proof.
  rewrite detectKeybindingConflicts_group.
  intros ([k v] & -> & [Hlen Hin]%list_elem_of_filter)%list_elem_of_fmap.
  cbn [c_type severity extensionId c_id sources keybindingConflict fst snd] in *.
  apply entry_get in Hin; [|by apply NoDup_keys_group, NoDup_nil].
  rewrite keybindingMap_get in Hin.
  assert (v = bindingsOn k all) as ->
    by (by destruct (bindingsOn _ all); simplify_eq).
  by split_and!.
Qed.

Lemma bindingsOn_falsy k all :
  Forall (λ ext,
    Forall (λ kb, Js.truthy (representativeKey kb) = None)
           (keybindingsOf ext)) all →
  bindingsOn k all = [].
Proof.
  unfold bindingsOn, bindingsWith.
  induction 1 as [|ext all Hext _ IH]; [done|].
  cbn [flat_map]. rewrite IH, app_nil_r.
  induction Hext as [|kb kbs Hkb _ IHk]; [done|].
  cbn [omap list_omap]. by rewrite Hkb.
Qed.

(** X1. For every snapshot the keybinding detector emits, per string [k],
    one conflict with id [k] when more than one keybinding contribution
    has a representative key (the first of [key], [mac], [linux], [win]
    that is neither missing nor empty) that normalises to [k], and none
    otherwise; a contribution all of whose variants are missing or empty
    counts for no key.  Each conflict is a [keybinding] warning without
    component id whose sources read owner, space, command in parentheses,
    one per such contribution, in manifest order, so at least two. *)
Theorem keybinding_collision_exact (all : list Extension) :
  let conflicts := detectKeybindingConflicts all in
  (∀ c, c ∈ conflicts →
     c_type c = TypeKeybinding ∧ severity c = Warning ∧ extensionId c = None ∧
     sources c = map (λ b : string * string, b.1 +:+ " (" +:+ b.2 +:+ ")")
                     (bindingsOn (c_id c) all) ∧
     length (sources c) > 1) ∧
  (∀ k,
     length (filter (λ c, c_id c = k) conflicts) =
     if decide (length (bindingsOn k all) > 1) then 1 else 0) ∧
  (Forall (λ ext,
     Forall (λ kb, Js.truthy (representativeKey kb) = None)
            (keybindingsOf ext)) all →
   conflicts = []).
Proof.
  cbv zeta. split_and!.
  - intros c Hin.
    destruct (keybinding_collision_facts all c Hin) as (?&Hs&?&?&?).
    split_and!; try done. by rewrite Hs, length_map.
  - rewrite detectKeybindingConflicts_group.
    set (m := group (keybindingPairs all) JsMap.empty).
    assert (NoDup (JsMap.keys m)) as Hnd
      by (by apply NoDup_keys_group, NoDup_nil).
    intros k.
    rewrite (filter_fmap_pre (λ c, c_id c = k)), length_fmap.
    cbn [c_id keybindingConflict].
    rewrite filter_swap, (filter_key k m) by done.
    unfold m. rewrite keybindingMap_get.
    destruct (bindingsOn k all) as [|o vs]; [done|].
    rewrite filter_cons. simpl. by repeat case_decide.
  - intros Hall.
    destruct (detectKeybindingConflicts all) as [|c l] eqn:Hd; [done|].
    assert (c ∈ detectKeybindingConflicts all) as Hin
      by (rewrite Hd; apply elem_of_cons; by left).
    destruct (keybinding_collision_facts all c Hin) as (_&_&Hlen&_).
    rewrite (bindingsOn_falsy _ _ Hall) in Hlen. cbn in Hlen. lia.
Qed.

(** *** Conflict details *)

Lemma length_omap_sync {X Y Z} (f : X → option Y) (g : X → option Z) l :
  (∀ x, is_Some (f x) ↔ is_Some (g x)) →
  length (omap f l) = length (omap g l).
Proof.
  intros H. induction l as [|x l IH]; [done|]. cbn [omap list_omap].
  destruct (H x) as [H1 H2].
  destruct (f x) as [y|], (g x) as [z|]; cbn [length]; try (by rewrite IH).
  - by destruct H1 as [? ?].
  - by destruct H2 as [? ?].
Qed.

Lemma length_bindingsWith {X Y} (f : Extension → KeybindingContribution → X)
  (g : Extension → KeybindingContribution → Y) k all :
  length (bindingsWith f k all) = length (bindingsWith g k all).
Proof.
  unfold bindingsWith. induction all as [|ext all IH]; simpl; [done|].
  rewrite !length_app, IH. f_equal.
  apply length_omap_sync. intros kb.
  destruct (Js.truthy (representativeKey kb)); [|done]. by case_decide.
Qed.

Lemma bindingsWith_fmap {X Y} (f : Extension → KeybindingContribution → X)
  (g : X → Y) k all :
  bindingsWith (λ ext kb, g (f ext kb)) k all = g <$> bindingsWith f k all.
Proof.
  unfold bindingsWith. induction all as [|ext all IH]; [done|].
  cbn [flat_map]. rewrite fmap_app, IH. f_equal.
  induction (keybindingsOf ext) as [|kb l IHl]; [done|].
  cbn [omap list_omap]. destruct (Js.truthy (representativeKey kb)); [|apply IHl].
  case_decide; [|apply IHl]. csimpl. f_equal. apply IHl.
Qed.

Lemma getConflictDetails_keybinding conflict all :
  c_type conflict = TypeKeybinding →
  getConflictDetails conflict all =
  (bindingsWith (λ _ kb, kb_command kb) (normalizeKeybinding (c_id conflict)) all,
   bindingsWith (λ ext _, ext_id ext) (normalizeKeybinding (c_id conflict)) all).
Proof.
  intros Ht. unfold getConflictDetails. rewrite bool_decide_eq_true_2 by done.
  set (k := normalizeKeybinding (c_id conflict)).
  assert (∀ l acc,
    fold_left (λ (details : list string * list string) ext,
      fold_left (λ (details : list string * list string) kb,
        let '(commandIds, extensionIds) := details in
        match Js.truthy (representativeKey kb) with
        | Some key =>
            if bool_decide (normalizeKeybinding key = k)
            then (commandIds ++ [kb_command kb], extensionIds ++ [ext_id ext])
            else (commandIds, extensionIds)
        | None => (commandIds, extensionIds)
        end)
        (keybindingsOf ext) details) l acc =
    (acc.1 ++ bindingsWith (λ _ kb, kb_command kb) k l,
     acc.2 ++ bindingsWith (λ ext _, ext_id ext) k l)) as H.
  { induction l as [|ext l IH]; intros [a b]; simpl.
    - by rewrite !app_nil_r.
    - rewrite IH. unfold bindingsWith at 3 4. simpl.
      fold (bindingsWith (λ _ kb, kb_command kb) k l).
      fold (bindingsWith (λ ext _, ext_id ext) k l).
      rewrite !(assoc_L (++)). do 2 f_equal.
      all: revert a b; induction (keybindingsOf ext) as [|kb kbs IHk];
        intros a b; simpl; [by rewrite app_nil_r|].
      all: destruct (Js.truthy (representativeKey kb)) as [key|]; [|apply IHk].
      all: case_bool_decide; case_decide; try done; simpl; rewrite IHk; simpl;
        by rewrite <- ?(assoc_L (++)). }
  by rewrite H.
Qed.

(** X2. [getConflictDetails] returns two empty lists for a conflict that is
    not of type [keybinding].  For a keybinding conflict it returns, in
    manifest order, the command of every keybinding contribution whose
    representative key (neither missing nor empty) normalises to what the
    conflict's id normalises to, and beside it the id of the component
    that contributes it, so both lists have one length.  For a conflict
    the keybinding detector emitted on the same snapshot, whose id
    normalisation leaves as it is, these are as many as the conflict has
    sources, at least two. *)
Theorem conflict_details_match_sources (conflict : Conflict)
  (all : list Extension) :
  let details := getConflictDetails conflict all in
  (c_type conflict ≠ TypeKeybinding → details = ([], [])) ∧
  (c_type conflict = TypeKeybinding →
     details.1 = bindingsWith (λ _ kb, kb_command kb)
                   (normalizeKeybinding (c_id conflict)) all ∧
     details.2 = bindingsWith (λ ext _, ext_id ext)
                   (normalizeKeybinding (c_id conflict)) all) ∧
  length details.1 = length details.2 ∧
  (conflict ∈ detectKeybindingConflicts all →
   normalizeKeybinding (c_id conflict) = c_id conflict →
     length details.1 = length (sources conflict) ∧
     length details.1 > 1).
Proof.
  cbv zeta. split_and!.
  - intros Ht. unfold getConflictDetails. by rewrite bool_decide_eq_false_2.
  - intros Ht. by rewrite getConflictDetails_keybinding.
  - destruct (decide (c_type conflict = TypeKeybinding)) as [Ht|Ht].
    + rewrite getConflictDetails_keybinding by done. apply length_bindingsWith.
    + unfold getConflictDetails. by rewrite bool_decide_eq_false_2.
  - intros Hin Hn.
    destruct (keybinding_collision_facts all conflict Hin)
      as (Ht & Hs & Hlen & _).
    rewrite getConflictDetails_keybinding by done. cbn [fst].
    rewrite Hn, Hs, length_map.
    rewrite (length_bindingsWith _
      (λ ext kb, (sourceNameOf ext, kb_command kb))).
    fold (bindingsOn (c_id conflict) all). done.
Qed.

End KeybindingCollision.

(** ** Suggestions and the contributed keybindings *)

Section SuggestionsAvoid.
Import Host ConflictDetector.

Lemma usedBindings_inner (used : gset string) k
  (kbs : list KeybindingContribution) :
  k ∈ fold_left (λ usedBindings kb,
        match Js.truthy (representativeKey kb) with
        | Some key => {[ normalizeKeybinding key ]} ∪ usedBindings
        | None => usedBindings
        end) kbs used ↔
  k ∈ used ∨ ∃ kb key, kb ∈ kbs ∧ Js.truthy (representativeKey kb) = Some key ∧
                       normalizeKeybinding key = k.
Proof.
  revert used. induction kbs as [|kb kbs IH]; intros used; simpl.
  - split; [by left|]. intros [?|(kb & key & ?%elem_of_nil & _)]; done.
  - rewrite IH. split.
    + intros [Hin | (kb' & key & Hin & Hr & Hn)].
      * destruct (Js.truthy (representativeKey kb)) as [key|] eqn:Hr; [|by left].
        apply elem_of_union in Hin as [->%elem_of_singleton | Hin]; [|by left].
        right. exists kb, key. split_and!; [apply elem_of_cons; by left|done..].
      * right. exists kb', key. split_and!; [apply elem_of_cons; by right|done..].
    + intros [Hin | (kb' & key & Hin & Hr & Hn)].
      * left. destruct (Js.truthy (representativeKey kb)); [|done].
        apply elem_of_union. by right.
      * apply elem_of_cons in Hin as [-> | Hin].
        -- left. rewrite Hr. apply elem_of_union. left.
           by apply elem_of_singleton.
        -- right. by exists kb', key.
Qed.

Lemma usedBindingsOf_elem k all :
  k ∈ usedBindingsOf all ↔ contributedKey k all.
Proof.
  unfold usedBindingsOf, contributedKey.
  assert (∀ used : gset string,
    k ∈ fold_left (λ usedBindings ext,
          fold_left (λ usedBindings kb,
            match Js.truthy (representativeKey kb) with
            | Some key => {[ normalizeKeybinding key ]} ∪ usedBindings
            | None => usedBindings
            end) (keybindingsOf ext) usedBindings) all used ↔
    k ∈ used ∨ ∃ ext kb key, ext ∈ all ∧ kb ∈ keybindingsOf ext ∧
                 Js.truthy (representativeKey kb) = Some key ∧ normalizeKeybinding key = k)
    as H.
  { induction all as [|ext all IH]; intros used; simpl.
    - split; [by left|]. intros [?|(? & ? & ? & ?%elem_of_nil & _)]; done.
    - rewrite IH, (usedBindings_inner used). split.
      + intros [[?|(kb & key & ? & ? & ?)] | (ext' & kb & key & ? & ? & ? & ?)].
        * by left.
        * right. exists ext, kb, key. split_and!; [apply elem_of_cons; by left|done..].
        * right. exists ext', kb, key.
          split_and!; [apply elem_of_cons; by right|done..].
      + intros [?|(ext' & kb & key & Hin & ? & ? & ?)]; [by left; left|].
        apply elem_of_cons in Hin as [-> | Hin].
        * left. right. by exists kb, key.
        * right. by exists ext', kb, key. }
  rewrite H. split; [|by right]. intros [?%elem_of_empty | ?]; done.
Qed.

Lemma NoDup_candidates : NoDup candidates.
Proof. apply (bool_decide_unpack _). by vm_compute. Qed.

Lemma bindingsOn_nil k all : ¬ contributedKey k all → bindingsOn k all = [].
Proof.
  intros Hn. unfold bindingsOn, bindingsWith. apply flat_map_nil, Forall_forall.
  intros ext Hext. apply omap_all_None. intros kb Hkb.
  destruct (Js.truthy (representativeKey kb)) as [key|] eqn:Hr; [|done].
  case_decide as Hk; [|done]. exfalso. apply Hn. by exists ext, kb, key.
Qed.

(** X3. The used set is exactly the set of what the representative keys
    of the snapshot's keybinding contributions normalise to, a
    contribution whose variants are all missing or empty adding nothing;
    so every suggestion is one of the 192 candidates, is left as it is by
    normalisation, and no keybinding of the snapshot normalises to it: the
    keybinding detector would find no binding on it.  At most ten
    suggestions are returned, without repetition. *)
Theorem suggestions_avoid_contributed (currentBinding : string)
  (all : list Extension) :
  let result := suggestAlternativeKeybindings currentBinding all in
  (∀ k, k ∈ usedBindingsOf all ↔ contributedKey k all) ∧
  (∀ b, b ∈ result →
     b ∈ candidates ∧ normalizeKeybinding b = b ∧
     ¬ contributedKey b all ∧ bindingsOn b all = []) ∧
  length result ≤ 10 ∧ NoDup result.
Proof.
  intros result.
  assert (result = take 10 (filter (λ b, b ∉ usedBindingsOf all) candidates))
    as Hres.
  { unfold result, suggestAlternativeKeybindings.
    rewrite suggestModifiers_spec; [done | apply candidates_normalized |].
    cbn [length]. lia. }
  clearbody result. subst result. split_and!.
  - intros k. apply usedBindingsOf_elem.
  - intros b [Hu Hc]%subseteq_take%list_elem_of_filter.
    assert (¬ contributedKey b all) as Hn by (by rewrite <- usedBindingsOf_elem).
    split_and!; [done | | done | by apply bindingsOn_nil].
    pose proof candidates_normalized as Hall.
    rewrite Forall_forall in Hall. by apply Hall.
  - rewrite length_take. lia.
  - eapply sublist_NoDup; [|apply sublist_take].
    apply NoDup_filter, NoDup_candidates.
Qed.

End SuggestionsAvoid.

(** ** The other rules of the registration detector *)

Section RegistrationRules.
Import Host ConflictDetector.

Lemma missing_of_other runtimeCommands ext ext' cmdId :
  ext_id ext' ≠ ext_id ext →
  filter (isMissingOf ext cmdId) (extensionMismatches runtimeCommands ext') = [].
Proof.
  intros Hne. apply filter_none.
  intros c Hin (_ & _ & _ & Hid).
  apply extensionMismatches_owner in Hin as [Ho | Ho]; congruence.
Qed.

Lemma missing_of_command runtimeCommands ext cmdId cmd :
  filter (isMissingOf ext cmdId) (commandMismatches runtimeCommands ext cmd) =
  (if decide (command cmd = cmdId ∧ ¬ activatesOn ext cmdId)
   then [missingActivationEvent ext cmdId] else []).
Proof.
  unfold commandMismatches. rewrite filter_app.
  assert (∀ b : bool,
    filter (isMissingOf ext cmdId)
      (if b then [ghostCommand ext (command cmd)] else []) = []) as ->.
  { intros []; [|done]. rewrite filter_cons_False; [done|]. by intros (_ & ? & _). }
  rewrite app_nil_l. unfold activatesOn.
  destruct (decide (command cmd = cmdId)) as [<-|Hne].
  - repeat case_bool_decide; simpl.
    all: try (rewrite decide_False by tauto; done).
    rewrite decide_True by tauto. rewrite filter_cons_True; [done|].
    by repeat split.
  - rewrite decide_False by tauto.
    destruct (_ && _); [|done]. rewrite filter_cons_False; [done|].
    intros (_ & _ & ? & _). done.
Qed.

Lemma missing_of_self runtimeCommands ext cmdId :
  isBuiltIn ext = false →
  filter (isMissingOf ext cmdId) (extensionMismatches runtimeCommands ext) =
  (if decide (activatesOn ext cmdId) then []
   else (λ _, missingActivationEvent ext cmdId) <$>
          filter (λ cmd, command cmd = cmdId) (commandsOf ext)).
Proof.
  intros Hb. unfold extensionMismatches. rewrite Hb, filter_app.
  assert (filter (isMissingOf ext cmdId)
            (if bool_decide ("*" ∈ activationEventsOf ext)
             then [eagerActivation ext] else []) = []) as ->.
  { case_bool_decide; [|done]. rewrite filter_cons_False; [done|].
    by intros (? & _). }
  rewrite app_nil_r, filter_flat_map.
  induction (commandsOf ext) as [|cmd l IH]; simpl.
  - by case_decide.
  - rewrite IH, missing_of_command, filter_cons.
    repeat case_decide; simpl; try done; exfalso; tauto.
Qed.

(** X4. In a snapshot with distinct component ids, for a component that is
    not built-in, the registration detector emits one [registration]
    warning per declaration of [cmdId] when the component's activation
    events hold neither [onCommand:] plus the id nor [*] nor
    [onStartupFinished], and no such warning otherwise; whether the
    component is active and what the runtime command table holds make no
    difference. *)
Theorem registration_missing_activation
  (runtimeCommands : gset string) (all : list Extension)
  (ext : Extension) (cmdId : string) :
  NoDup (ext_id <$> all) → ext ∈ all → isBuiltIn ext = false →
  filter (isMissingOf ext cmdId)
    (detectRegistrationMismatches runtimeCommands all) =
  (if decide (activatesOn ext cmdId) then []
   else (λ _, missingActivationEvent ext cmdId) <$>
          filter (λ cmd, command cmd = cmdId) (commandsOf ext)).
Proof.
  intros Hnd Hin Hb.
  rewrite detectRegistrationMismatches_flat, filter_flat_map.
  rewrite (flat_map_single _ all ext Hnd Hin)
    by (intros; by apply missing_of_other).
  by apply missing_of_self.
Qed.

Lemma extensionMismatches_builtin runtimeCommands ext :
  isBuiltIn ext = true → extensionMismatches runtimeCommands ext = [].
Proof. intros Hb. unfold extensionMismatches. by rewrite Hb. Qed.

Lemma flat_map_filter_nil {X C} (f : X → list C) (P : X → Prop)
  `{!∀ x, Decision (P x)} l :
  (∀ x, ¬ P x → f x = []) → flat_map f l = flat_map f (filter P l).
Proof.
  intros Hnil. induction l as [|x l IH]; [done|]. rewrite filter_cons.
  case_decide; simpl; [by rewrite IH|]. by rewrite Hnil, IH.
Qed.

(** X5. Built-in components, those whose id starts with [vscode.] or
    [microsoft.], contribute nothing to the registration detector: removing
    them from the snapshot does not change its output.  The conflicts of
    type [activation] it emits are exactly one eager-activation warning with
    id [*] for each other component that lists [*] among its activation
    events, in snapshot order. *)
Theorem registration_eager_activation
  (runtimeCommands : gset string) (all : list Extension) :
  detectRegistrationMismatches runtimeCommands all =
    detectRegistrationMismatches runtimeCommands
      (filter (λ ext, isBuiltIn ext = false) all) ∧
  filter (λ c, c_type c = TypeActivation)
    (detectRegistrationMismatches runtimeCommands all) =
    eagerActivation <$>
      filter (λ ext, isBuiltIn ext = false ∧ "*" ∈ activationEventsOf ext) all ∧
  (∀ ext, c_id (eagerActivation ext) = "*" ∧
          severity (eagerActivation ext) = Warning ∧
          sources (eagerActivation ext) = [sourceNameOf ext]).
Proof.
  split_and!; [| |done].
  - rewrite !detectRegistrationMismatches_flat.
    apply flat_map_filter_nil. intros ext Hb.
    apply extensionMismatches_builtin. by destruct (isBuiltIn ext).
  - rewrite detectRegistrationMismatches_flat, filter_flat_map.
    induction all as [|ext all IH]; [done|]. simpl.
    rewrite IH, filter_cons. unfold extensionMismatches.
    destruct (isBuiltIn ext) eqn:Hb.
    + rewrite decide_False by (by intros [? _]). done.
    + rewrite filter_app.
      assert (filter (λ c, c_type c = TypeActivation)
                (flat_map (commandMismatches runtimeCommands ext)
                   (commandsOf ext)) = []) as ->.
      { apply filter_none. intros c Hin%list_elem_of_In.
        apply in_flat_map in Hin as (cmd & _ & Hin).
        apply list_elem_of_In in Hin. unfold commandMismatches in Hin.
        apply elem_of_app in Hin as [Hin | Hin];
          destruct (_ && _); try (by apply elem_of_nil in Hin);
          apply list_elem_of_singleton in Hin as ->; done. }
      case_bool_decide as Hw.
      * rewrite decide_True by done. by rewrite filter_cons_True.
      * rewrite decide_False by tauto. done.
Qed.

End RegistrationRules.

(** ** What the activation detector counts *)

Section ActivationCounts.
Import Host ConflictDetector.

(** X6. For every snapshot the activation detector emits, per event, one
    warning when the event is neither [*] nor [onStartupFinished] and is
    declared more than twice, declarations of one component counted as often
    as its manifest lists the event, and none otherwise; the warning's
    sources are the declaring owners, one per declaration, in manifest
    order, so never fewer than three. *)
Theorem activation_conflicts_count_declarations (all : list Extension) :
  let conflicts := detectActivationConflicts all in
  (∀ c, c ∈ conflicts →
     c_type c = TypeActivation ∧ severity c = Warning ∧
     ¬ isGenericEvent (c_id c) ∧
     sources c = declarations (c_id c) all ∧
     length (sources c) > 2) ∧
  (∀ event,
     length (filter (λ c, c_id c = event) conflicts) =
     if decide (¬ isGenericEvent event ∧ length (declarations event all) > 2)
     then 1 else 0).
Proof.
  cbv zeta. destruct (activation_overlap_by_declarations all) as [Hc Hn].
  split; [|exact Hn].
  intros c Hin. destruct (Hc c Hin) as (? & ? & Hg & Hs).
  split_and!; try done.
  specialize (Hn (c_id c)). case_decide as Hd; [rewrite Hs; tauto|].
  assert (c ∈ filter (λ c', c_id c' = c_id c) (detectActivationConflicts all))
    as Hf by (by apply list_elem_of_filter).
  destruct (filter _ _); [by apply elem_of_nil in Hf | done].
Qed.

(** X7. When no manifest of the snapshot lists an activation event twice,
    the activation detector emits a conflict for an event other than [*]
    and [onStartupFinished] exactly when more than two components declare
    it. *)
Theorem activation_overlap_distinct_components
  (all : list Extension) (event : string) :
  Forall (λ ext, NoDup (activationEventsOf ext)) all →
  ¬ isGenericEvent event →
  (∃ c, c ∈ detectActivationConflicts all ∧ c_id c = event) ↔
  length (declaringComponents event all) > 2.
Proof.
  intros Hnd Hev.
  destruct (activation_overlap_by_declarations all) as [_ Hcount].
  specialize (Hcount event). rewrite declarations_distinct in Hcount by done.
  split.
  - intros (c & Hin & Hc). case_decide as Hd; [tauto|].
    assert (c ∈ filter (λ c, c_id c = event) (detectActivationConflicts all))
      as Hf by (by apply list_elem_of_filter).
    destruct (filter _ _); [by apply elem_of_nil in Hf | done].
  - intros Hlen. rewrite decide_True in Hcount by done.
    destruct (filter _ _) as [|c l] eqn:Hf; [done|].
    assert (c ∈ filter (λ c, c_id c = event) (detectActivationConflicts all))
      as [? ?]%list_elem_of_filter by (rewrite Hf; apply elem_of_cons; by left).
    by exists c.
Qed.

Lemma activation_overlap_distinct_components_witness :
  ∃ c, c ∈ detectActivationConflicts threeDeclaring ∧
       c_id c = "onLanguage:python".
Proof.
  refine (proj2 (activation_overlap_distinct_components threeDeclaring
                   "onLanguage:python" _ _) _).
  - repeat constructor; by intros ?%elem_of_nil.
  - intros [H|H]; discriminate H.
  - vm_compute. lia.
Defined.

End ActivationCounts.

(** ** What the batch fix touches, and what it achieves *)

Section BatchFixFrame.
Import Host ConflictDetector.

Lemma fixAll_untouched (w : World) :
  let w' := (fixAllMissingActivationEvents w).2 in
  clipboard w' = clipboard w ∧ selection w' = selection w.
Proof.
  cbv [fixAllMissingActivationEvents mbind M_bind mret M_ret getExtensions
       getCommands].
  fold (missingEventsOf w).
  destruct (bool_decide (length (missingEventsOf w) = 0)); [by cbn|].
  rewrite !extensionGroups_fold.
  fold (extensionGroupsOf w). unfold JsMap.entries.
  destruct (forEach_patchGroup (extensionGroupsOf w) [] w) as [_ Hw].
  destruct (forEach (extensionGroupsOf w) patchGroup [] w) as [edit w1].
  cbn [fst snd] in Hw.
  destruct Hw as (_ & _ & _ & Hc & _ & _ & Hs).
  unfold applyEdit, showInformationMessage. rewrite <- Hc, <- Hs.
  by destruct (editsAccepted w1); cbn.
Qed.

Lemma plannedEdit_uri (w : World) uri :
  uri ∈ (plannedEdit w).*1 →
  ∃ g ext, g ∈ extensionGroupsOf w ∧ ext ∈ extensions w ∧
           ext_id ext = g.1 ∧ uri = packageJsonUriOf ext ∧
           is_Some (documents w !! uri).
Proof.
  intros (r & -> & Hr)%list_elem_of_fmap.
  apply list_elem_of_omap in Hr as (g & Hg & Hp).
  unfold plannedReplacement in Hp.
  destruct (List.find _ (extensions w)) as [ext|] eqn:Hf; [|done].
  apply find_ext_Some in Hf as [Hin Hid].
  destruct (documents w !! packageJsonUriOf ext) as [[|json]|] eqn:Hd; try done.
  case_bool_decide; [|done]. simplify_eq/=.
  exists g, ext. by split_and!.
Qed.

Lemma isMissingEvent_extensionId c :
  isMissingEvent c = true →
  ∃ e, extensionId c = Some e ∧ e ≠ EmptyString ∧
       default EmptyString (extensionId c) = e.
Proof.
  unfold isMissingEvent. rewrite !andb_true_iff. intros [[_ He] _].
  destruct (extensionId c) as [e|]; [|done].
  exists e. split_and!; [done| |done].
  by apply negb_true_iff, bool_decide_eq_false in He.
Qed.

Lemma extensionGroups_key (w : World) g :
  g ∈ extensionGroupsOf w →
  ∃ c, c ∈ missingEventsOf w ∧ extensionId c = Some g.1.
Proof.
  intros Hg.
  assert (g.1 ∈ JsMap.keys (extensionGroupsOf w)) as Hk
    by (by apply list_elem_of_fmap_2).
  unfold extensionGroupsOf in Hk.
  apply (proj1 (keys_group_empty g.1
    (map (λ c, (default EmptyString (extensionId c), c_id c))
         (missingEventsOf w)))) in Hk.
  apply list_elem_of_fmap in Hk as ([k x] & Hk & Hin). cbn [fst] in Hk. subst k.
  apply list_elem_of_In, in_map_iff in Hin as (c & [= Hc _] & Hin).
  exists c. split; [by apply list_elem_of_In|].
  assert (isMissingEvent c = true) as Hm
    by (unfold missingEventsOf in Hin; by apply filter_In in Hin as [_ ?]).
  apply isMissingEvent_extensionId in Hm as (e & He & _ & Hd). congruence.
Qed.


(** *** The fix silences the warnings that triggered it *)

Lemma includesChars_prefix p s :
  Js.startsWithChars p s = true → Js.includesChars p s = true.
Proof. intros H. destruct s; simpl; by rewrite H. Qed.

Lemma includesChars_app p a b : Js.includesChars p (a ++ p ++ b) = true.
Proof.
  induction a as [|c a IH]; simpl.
  - apply includesChars_prefix, startsWithChars_prefix. by exists b.
  - rewrite IH. apply orb_true_r.
Qed.

Lemma isMissingEvent_missing ext cmdId :
  ext_id ext ≠ EmptyString →
  isMissingEvent (missingActivationEvent ext cmdId) = true.
Proof.
  intros Hid. unfold isMissingEvent.
  cbn [c_type extensionId description missingActivationEvent].
  rewrite bool_decide_eq_true_2 by done.
  rewrite (bool_decide_eq_false_2 (ext_id ext = EmptyString)) by done.
  cbn [negb andb]. unfold Js.includes.
  replace (Js.chars ("Command " +:+ Js.dq +:+ cmdId +:+ Js.dq +:+ " is missing "
             +:+ Js.dq +:+ "onCommand:" +:+ cmdId +:+ Js.dq +:+
             " in activationEvents. It may fail to trigger if the extension isn't already active."))
    with (Js.chars ("Command " +:+ Js.dq +:+ cmdId +:+ Js.dq +:+ " is ") ++
          Js.chars ("missing " +:+ Js.dq +:+ "onCommand:") ++
          Js.chars (cmdId +:+ Js.dq +:+
             " in activationEvents. It may fail to trigger if the extension isn't already active.")).
  - apply includesChars_app.
  - rewrite !chars_app.
    change (Js.chars " is missing ")
      with (Js.chars " is " ++ Js.chars "missing ").
    by rewrite <- !app_assoc.
Qed.

Lemma extensionMismatches_in runtimeCommands all ext c :
  ext ∈ all → c ∈ extensionMismatches runtimeCommands ext →
  c ∈ detectRegistrationMismatches runtimeCommands all.
Proof.
  intros Hin Hc. rewrite detectRegistrationMismatches_flat.
  apply list_elem_of_In, in_flat_map. exists ext.
  by rewrite <- !list_elem_of_In.
Qed.

Lemma group_collects (w : World) ext c :
  c ∈ missingEventsOf w → extensionId c = Some (ext_id ext) →
  c_id c ∈ default [] (JsMap.get (ext_id ext) (extensionGroupsOf w)).
Proof.
  intros Hin Hid. unfold extensionGroupsOf. rewrite get_group_empty.
  assert (c_id c ∈ valuesFor (ext_id ext)
            (map (λ c, (default EmptyString (extensionId c), c_id c))
                 (missingEventsOf w))) as Hv.
  { unfold valuesFor. apply list_elem_of_fmap.
    exists (ext_id ext, c_id c). split; [done|].
    apply list_elem_of_filter. split; [done|].
    apply list_elem_of_In, in_map_iff. exists c.
    rewrite Hid. split; [done | by apply list_elem_of_In]. }
  by destruct (valuesFor _ _).
Qed.

Lemma find_ext_NoDup exts ext :
  NoDup (ext_id <$> exts) → ext ∈ exts →
  List.find (λ e, bool_decide (ext_id e = ext_id ext)) exts = Some ext.
Proof.
  induction exts as [|e exts IH]; intros Hnd Hin;
    [by apply elem_of_nil in Hin|].
  rewrite fmap_cons in Hnd. apply NoDup_cons in Hnd as [Hnot Hnd].
  cbn [List.find]. apply elem_of_cons in Hin as [->|Hin].
  - by rewrite bool_decide_eq_true_2.
  - rewrite bool_decide_eq_false_2; [by apply IH|].
    intros Heq. apply Hnot. rewrite Heq. apply list_elem_of_fmap. by exists ext.
Qed.

(** A manifest whose events hold the registry's events and [onCommand:]
    plus the id for every command that had a warning gets no warning. *)
Lemma warnings_silenced ext events' runtimeCommands' :
  isBuiltIn ext = false →
  (∀ e, e ∈ activationEventsOf ext → e ∈ events') →
  (∀ cmd, cmd ∈ commandsOf ext → ¬ activatesOn ext (command cmd) →
          "onCommand:" +:+ command cmd ∈ events') →
  ∀ c, c ∈ detectRegistrationMismatches runtimeCommands'
             [withActivationEvents ext events'] →
       c_type c = TypeRegistration → severity c = Error.
Proof.
  intros Hb Hkeep Hnew c.
  rewrite detectRegistrationMismatches_flat. cbn [flat_map].
  rewrite app_nil_r. unfold extensionMismatches.
  replace (isBuiltIn (withActivationEvents ext events'))
    with (isBuiltIn ext) by done. rewrite Hb.
  intros [Hc | Hc]%elem_of_app Ht.
  2:{ case_bool_decide; [|by apply elem_of_nil in Hc].
      apply list_elem_of_singleton in Hc as ->. done. }
  apply list_elem_of_In, in_flat_map in Hc as (cmd & Hcmd & Hc).
  apply list_elem_of_In in Hc. unfold commandMismatches in Hc.
  apply elem_of_app in Hc as [Hc | Hc].
  { destruct (_ && _); [|by apply elem_of_nil in Hc].
    by apply list_elem_of_singleton in Hc as ->. }
  exfalso.
  replace (activationEventsOf (withActivationEvents ext events'))
    with events' in Hc by done.
  replace (commandsOf (withActivationEvents ext events'))
    with (commandsOf ext) in Hcmd by done.
  apply list_elem_of_In in Hcmd.
  destruct (decide (activatesOn ext (command cmd))) as [Hact|Hact].
  - destruct Hact as [H1 | [H2 | H3]].
    + apply Hkeep in H1. rewrite (bool_decide_eq_true_2 _ H1) in Hc.
      by apply elem_of_nil in Hc.
    + apply Hkeep in H2. rewrite (bool_decide_eq_true_2 ("*" ∈ _) H2) in Hc.
      rewrite andb_false_r in Hc. by apply elem_of_nil in Hc.
    + apply Hkeep in H3.
      rewrite (bool_decide_eq_true_2 ("onStartupFinished" ∈ _) H3) in Hc.
      rewrite orb_true_r, andb_false_r in Hc. by apply elem_of_nil in Hc.
  - pose proof (Hnew cmd Hcmd Hact) as H1.
    rewrite (bool_decide_eq_true_2 _ H1) in Hc. by apply elem_of_nil in Hc.
Qed.

Lemma warned_commands_grouped (w : World) ext cmd :
  ext ∈ extensions w → isBuiltIn ext = false → ext_id ext ≠ EmptyString →
  cmd ∈ commandsOf ext → ¬ activatesOn ext (command cmd) →
  command cmd ∈ default [] (JsMap.get (ext_id ext) (extensionGroupsOf w)).
Proof.
  intros Hin Hb Hid Hcmd Hact.
  apply (group_collects w ext (missingActivationEvent ext (command cmd)));
    [|done].
  unfold missingEventsOf. apply list_elem_of_In, filter_In.
  split; [|by apply isMissingEvent_missing].
  apply list_elem_of_In.
  apply (extensionMismatches_in _ _ ext); [done|].
  assert (missingActivationEvent ext (command cmd) ∈
          filter (isMissingOf ext (command cmd))
            (extensionMismatches (Host.runtimeCommands w) ext)) as Hf.
  { rewrite missing_of_self by done. rewrite decide_False by done.
    apply list_elem_of_fmap. exists cmd. split; [done|].
    by apply list_elem_of_filter. }
  by apply list_elem_of_filter in Hf as [_ ?].
Qed.

(** X9. What the batch fix writes for a component silences the warnings
    that triggered it, provided the component's [package.json] document
    holds at least the activation events the registry has for it.  Take a
    snapshot with distinct ids and in it a component that is not built-in,
    has a non-empty id and has such a document; run the loop body of the
    fix on the command ids grouped under the component's id and apply the
    edit it returns.  The document is then again a manifest, with its
    other members untouched, and a component with the same commands and
    the document's activation events gets, whatever the runtime table, no
    [registration] warning from the registration detector. *)
Theorem batch_fix_silences_warnings (w : World) (ext : Extension)
  (json : ManifestJson) (runtimeCommands' : gset string) :
  NoDup (ext_id <$> extensions w) → ext ∈ extensions w →
  isBuiltIn ext = false → ext_id ext ≠ EmptyString →
  documents w !! packageJsonUriOf ext = Some (Json json) →
  activationEventsOf ext ⊆ default [] (json_activationEvents json) →
  let commandIds :=
    default [] (JsMap.get (ext_id ext) (extensionGroupsOf w)) in
  let edit := (patchGroup [] (ext_id ext, commandIds) w).1 in
  ∃ json',
    applyReplacements edit (documents w) !! packageJsonUriOf ext =
      Some (Json json') ∧
    json_rest json' = json_rest json ∧
    ∀ c, c ∈ detectRegistrationMismatches runtimeCommands'
               [withActivationEvents ext
                  (default [] (json_activationEvents json'))] →
         c_type c = TypeRegistration → severity c = Error.
Proof.
  intros Hnd Hin Hb Hid Hdoc Hsub commandIds edit.
  assert (∀ cmd, cmd ∈ commandsOf ext → ¬ activatesOn ext (command cmd) →
                 command cmd ∈ commandIds) as Hgrp
    by (intros; by apply warned_commands_grouped).
  unfold edit. rewrite (proj1 (patchGroup_planned [] _ w)), app_nil_l.
  unfold plannedReplacement. cbn [fst snd].
  rewrite (find_ext_NoDup _ _ Hnd Hin), Hdoc. cbv zeta.
  set (events0 := default [] (json_activationEvents json)) in *.
  destruct (patchActivationEvents_appends events0 commandIds)
    as (appended & Happ & _).
  case_bool_decide as Hgrow.
  - eexists. split_and!.
    + cbn [option_list applyReplacements fold_left fst snd].
      apply lookup_insert_eq.
    + done.
    + apply warnings_silenced; [done|..];
        cbn [json_activationEvents default]; unfold Js.sortStrings.
      * intros e He. rewrite merge_sort_Permutation, Happ.
        apply elem_of_app. left. by apply Hsub.
      * intros cmd Hcmd Hact. rewrite merge_sort_Permutation.
        apply (patchActivationEvents_contains _ _ (command cmd)).
        by apply Hgrp.
  - exists json. split_and!; [done..|].
    apply warnings_silenced; [done | by apply Hsub |].
    intros cmd Hcmd Hact. fold events0.
    assert (patchActivationEvents events0 commandIds = events0) as <-.
    { rewrite Happ in Hgrow |- *. rewrite length_app in Hgrow.
      destruct appended; [by rewrite app_nil_r | cbn in Hgrow; lia]. }
    apply (patchActivationEvents_contains _ _ (command cmd)).
    by apply Hgrp.
Qed.

End BatchFixFrame.

(** ** The parser, line by line *)

Section ParserStructure.
Import LogMonitor.

Lemma string_app_nil_r (s : string) : s +:+ EmptyString = s.
Proof.
  induction s as [|c s IH]; [done|].
  change (String c (s +:+ EmptyString) = String c s). by rewrite IH.
Qed.

Lemma string_app_assoc (a b c : string) : (a +:+ b) +:+ c = a +:+ b +:+ c.
Proof.
  induction a as [|x a IH]; [done|].
  change (String x ((a +:+ b) +:+ c) = String x (a +:+ b +:+ c)).
  by rewrite IH.
Qed.

Lemma extends_refl h : extends h h.
Proof.
  unfold extends. split_and!; [done..|].
  exists EmptyString. symmetry. apply string_app_nil_r.
Qed.

Lemma extends_continued h e line : extends h e → extends h (continued e line).
Proof.
  intros (? & ? & ? & more & Hm). unfold extends. split_and!; [done..|].
  exists (more +:+ newline +:+ line). cbn [message continued].
  by rewrite Hm, string_app_assoc.
Qed.

Lemma parseLine_extends source hs entries line :
  Forall2 extends hs entries →
  Forall2 extends (hs ++ headersOf source [line])
                  (parseLine source entries line).
Proof.
  intros H. unfold headersOf. cbn [omap list_omap].
  destruct (matchLine line) as [[[[m1 m2] m3] m4]|] eqn:Hm.
  - rewrite (parseLine_header _ _ _ m1 m2 m3 m4) by done. cbn.
    apply Forall2_app; [done|]. constructor; [apply extends_refl | constructor].
  - cbn. rewrite app_nil_r. unfold parseLine. rewrite Hm.
    destruct entries as [|e0 es _] using rev_ind.
    + by rewrite andb_false_r.
    + destruct (Js.trimNonEmpty line); cbn [andb]; [|done].
      rewrite bool_decide_eq_true_2 by (rewrite length_app; cbn; lia).
      rewrite appendToLast_snoc.
      apply Forall2_app_inv_r in H as (hs1 & hs2 & H1 & H2 & ->).
      inversion H2 as [|h ? ? ? Hh Hnil]; subst. inversion Hnil; subst.
      apply Forall2_app; [done|].
      constructor; [by apply extends_continued | constructor].
Qed.

Lemma headersOf_app source l1 l2 :
  headersOf source (l1 ++ l2) = headersOf source l1 ++ headersOf source l2.
Proof. unfold headersOf. apply omap_app. Qed.

Lemma fold_parseLine_extends source lines hs entries :
  Forall2 extends hs entries →
  Forall2 extends (hs ++ headersOf source lines)
                  (fold_left (parseLine source) lines entries).
Proof.
  revert hs entries. induction lines as [|line lines IH]; intros hs entries H.
  - cbn. by rewrite app_nil_r.
  - cbn [fold_left]. change (line :: lines) with ([line] ++ lines).
    rewrite headersOf_app, (assoc_L (++)). apply IH.
    by apply parseLine_extends.
Qed.

(** X10. The parser yields exactly one entry per matching line of the
    content, in the order of those lines; each entry has the timestamp, the
    normalised level and the source its header line determines, and a
    message that starts with the header's message.  In particular content
    without a matching line, the empty content included, yields no entry. *)
Theorem parse_entries_follow_headers (content source : string) :
  let entries := parseLogContent content source in
  let headers := headersOf source (Js.splitLines content) in
  Forall2 extends headers entries ∧
  length entries =
    length (filter (λ line, is_Some (matchLine line)) (Js.splitLines content)) ∧
  ((∀ line, line ∈ Js.splitLines content → matchLine line = None) →
     entries = []) ∧
  parseLogContent EmptyString source = [].
Proof.
  cbv zeta.
  assert (Forall2 extends (headersOf source (Js.splitLines content))
            (parseLogContent content source)) as H.
  { unfold parseLogContent.
    apply (fold_parseLine_extends source _ [] []). constructor. }
  assert (∀ lines,
    length (headersOf source lines) =
    length (filter (λ line, is_Some (matchLine line)) lines)) as Hlen.
  { intros lines. unfold headersOf.
    induction lines as [|l lines IH]; [done|].
    cbn [omap list_omap]. rewrite filter_cons.
    destruct (matchLine l) as [m|]; cbn.
    - rewrite decide_True by (by eexists). cbn. by rewrite IH.
    - rewrite decide_False by (by intros [? ?]). done. }
  split_and!.
  - done.
  - rewrite <- Hlen. symmetry. by eapply Forall2_length.
  - intros Hnone. apply Forall2_length in H. rewrite Hlen in H.
    rewrite filter_none in H.
    + by destruct (parseLogContent content source).
    + intros line Hin [m Hm]. rewrite Hnone in Hm by done. done.
  - by vm_compute.
Qed.

(** *** Line terminators *)

Lemma matchLine_noLineTerminator line m :
  matchLine line = Some m → noLineTerminator (Js.chars line).
Proof.
  unfold matchLine. destruct (Js.chars line) as [|c s1] eqn:Hl; [done|].
  case_bool_decide as Hc; [subst c|done].
  intros (g1 & s2 & -> & H1 & H2)%lazyGroup_sound.
  apply lazyGroup_sound in H2 as (g2 & s3 & -> & H2 & H3).
  apply lazyGroup_sound in H3 as (g3 & s4 & -> & H3 & H4).
  destruct (greedyToEnd s4) as [g4|] eqn:Hg; [|done].
  apply greedyToEnd_Some in Hg as [-> H4'].
  unfold noLineTerminator in *.
  constructor; [done|]. repeat (apply Forall_app; split); try done.
  all: by repeat constructor.
Qed.

(** X11. A line that contains a carriage return or a line feed never
    matches the line pattern, because the pattern's groups stop at line
    terminators and its end anchor admits nothing after them.  So content
    whose lines each hold a carriage return or are empty, as a log written
    with Windows line endings, parses to no entry at all. *)
Theorem carriage_return_never_matches (content source : string) :
  (∀ line, CR ∈ Js.chars line ∨ Js.LF ∈ Js.chars line →
           matchLine line = None) ∧
  ((∀ line, line ∈ Js.splitLines content →
            line = EmptyString ∨ CR ∈ Js.chars line) →
   parseLogContent content source = []).
Proof.
  assert (∀ line, CR ∈ Js.chars line ∨ Js.LF ∈ Js.chars line →
                  matchLine line = None) as Hcr.
  { intros line Hin. destruct (matchLine line) as [m|] eqn:Hm; [|done].
    apply matchLine_noLineTerminator in Hm. unfold noLineTerminator in Hm.
    rewrite Forall_forall in Hm.
    destruct Hin as [Hin|Hin]; apply Hm in Hin; by vm_compute in Hin. }
  split; [exact Hcr|].
  intros Hall.
  assert (Forall2 extends (headersOf source (Js.splitLines content))
            (parseLogContent content source)) as H.
  { unfold parseLogContent.
    apply (fold_parseLine_extends source _ [] []). constructor. }
  assert (headersOf source (Js.splitLines content) = []) as Hh.
  { unfold headersOf. apply omap_all_None. intros line Hin.
    destruct (Hall line Hin) as [-> | Hc]; [done|].
    by rewrite Hcr by (by left). }
  rewrite Hh in H. by inversion H.
Qed.

End ParserStructure.

(** ** Reading logs *)

Section LogReading.
Import Host LogMonitor.
#[local] Existing Instances timestampLe_dec timestampGe_dec.

Lemma getLogs_Permutation utf8 localeCompare root extensionId :
  getLogs utf8 localeCompare root extensionId ≡ₚ
  match readDirectory root extensionId with
  | Some entries =>
      flat_map (λ file : string * Node,
        parseLogContent (readFile utf8 (Some file.2)) extensionId)
        (List.filter isLogFile entries)
  | None => []
  end.
Proof.
  unfold getLogs. destruct (readDirectory root extensionId) as [entries|];
    [|done].
  rewrite sortStable_Permutation.
  by rewrite (fold_left_append
    (λ file : string * Node,
       parseLogContent (readFile utf8 (Some file.2)) extensionId)).
Qed.

Lemma getRecentErrors_run utf8 localeCompare rootLogUri root limit w :
  getRecentErrors utf8 localeCompare rootLogUri root limit w =
  (sliceFromStart (default 50%Z limit)
     (Js.sortStable (timestampGe localeCompare)
       (errorsOf utf8 localeCompare root)),
   match rootLogUri with
   | Some fsPath =>
       withNotification
         (Information ("ExtensionLens Scanning: " +:+ fsPath)) w
   | None => w
   end).
Proof.
  unfold getRecentErrors, errorsOf.
  rewrite (fold_left_append
    (λ extId, List.filter (λ l, bool_decide (level l = LevelError))
                (getLogs utf8 localeCompare root extId))).
  rewrite app_nil_l. by destruct rootLogUri.
Qed.

Lemma sliceFromStart_take {A} limit (l : list A) :
  ∃ n, sliceFromStart limit l = take n l ∧
       n = (if (limit <? 0)%Z
            then Z.to_nat (Z.of_nat (length l) + limit)
            else Z.to_nat limit).
Proof. unfold sliceFromStart. destruct (limit <? 0)%Z; by eexists. Qed.

Lemma errorsOf_elem utf8 localeCompare root e :
  e ∈ errorsOf utf8 localeCompare root →
  level e = LevelError ∧
  ∃ extId, extId ∈ getLoggedExtensions root ∧
           e ∈ getLogs utf8 localeCompare root extId.
Proof.
  unfold errorsOf. rewrite list_elem_of_In, in_flat_map.
  intros (extId & Hid & He). apply filter_In in He as [He Hlevel].
  apply bool_decide_eq_true in Hlevel. split; [done|].
  exists extId. by rewrite !list_elem_of_In.
Qed.

Lemma timestampLe_total localeCompare :
  consistent localeCompare → Total (timestampLe localeCompare).
Proof. intros [Ht _] a b. apply Ht. Qed.

Lemma timestampLe_trans localeCompare :
  consistent localeCompare → Transitive (timestampLe localeCompare).
Proof. intros [_ Ht] a b c. apply Ht. Qed.

Lemma timestampGe_total localeCompare :
  consistent localeCompare → Total (timestampGe localeCompare).
Proof. intros [Ht _] a b. apply Ht. Qed.

Lemma timestampGe_trans localeCompare :
  consistent localeCompare → Transitive (timestampGe localeCompare).
Proof. intros [_ Ht] a b c ? ?. unfold timestampGe in *. by eapply Ht. Qed.

Lemma StronglySorted_take {A} (R : relation A) n l :
  StronglySorted R l → StronglySorted R (take n l).
Proof.
  intros H. rewrite <- (take_drop n l) in H.
  by apply StronglySorted_app_1_l in H.
Qed.

Lemma ascii_compare_le_trans a b c :
  Ascii.compare a b ≠ Gt → Ascii.compare b c ≠ Gt → Ascii.compare a c ≠ Gt.
Proof.
  unfold Ascii.compare. rewrite !N.compare_le_iff. lia.
Qed.

Lemma string_compare_refl s : String.compare s s = Eq.
Proof.
  induction s as [|c s IH]; [done|]. simpl.
  assert (Ascii.compare c c = Eq) as -> by apply N.compare_refl. done.
Qed.

Lemma string_compare_le_trans a b c :
  String.compare a b ≠ Gt → String.compare b c ≠ Gt → String.compare a c ≠ Gt.
Proof.
  revert b c. induction a as [|x a IH]; intros [|y b] [|z c]; simpl;
    try done.
  destruct (Ascii.compare x y) eqn:Hxy; [| |done].
  - apply Ascii.compare_eq_iff in Hxy as ->.
    destruct (Ascii.compare y z) eqn:Hyz; [|done..]. apply IH.
  - intros _. destruct (Ascii.compare y z) eqn:Hyz; [| |done]; intros _.
    + apply Ascii.compare_eq_iff in Hyz as <-. by rewrite Hxy.
    + assert (Ascii.compare x z = Lt) as ->; [|done].
      unfold Ascii.compare in *. rewrite N.compare_lt_iff in *. lia.
Qed.

Lemma codeUnitCompare_le a b :
  (codeUnitCompare a b ≤ 0)%Z ↔ String.compare a b ≠ Gt.
Proof. unfold codeUnitCompare. destruct (String.compare a b); split; (done || lia). Qed.

Lemma codeUnitCompare_consistent : consistent codeUnitCompare.
Proof.
  split.
  - intros a b. rewrite !codeUnitCompare_le, (String.compare_antisym b a).
    destruct (String.compare a b); simpl; auto.
  - intros a b c. rewrite !codeUnitCompare_le. apply string_compare_le_trans.
Qed.

(** X12. The logs of a source are the entries parsed from the files of its
    directory whose names end in [.log], each entry as often as it was
    parsed; other files, folders inside the directory, a missing root and a
    missing directory contribute nothing; and under a collation that
    orders timestamps consistently the entries come in ascending order of
    their timestamps. *)
Theorem logs_collected_and_sorted utf8 localeCompare root extensionId
  (Hcmp : consistent localeCompare) :
  getLogs utf8 localeCompare root extensionId ≡ₚ
    match readDirectory root extensionId with
    | Some entries =>
        flat_map (λ file : string * Node,
          parseLogContent (readFile utf8 (Some file.2)) extensionId)
          (List.filter isLogFile entries)
    | None => []
    end ∧
  StronglySorted (timestampLe localeCompare)
    (getLogs utf8 localeCompare root extensionId).
Proof.
  split; [apply getLogs_Permutation|].
  unfold getLogs. destruct (readDirectory root extensionId); [|constructor].
  pose proof (timestampLe_total _ Hcmp). pose proof (timestampLe_trans _ Hcmp).
  by apply StronglySorted_sortStable.
Qed.

(** X13. The recent errors are an initial part of a rearrangement of all
    entries of level error in the logs of the listed sources: every entry
    returned has level error and comes from the logs of a directory of the
    root; with a limit that is not negative at most that many are returned,
    and all of them when there are no more than the limit (50 when none is
    given); a negative limit drops that many from the end. *)
Theorem recent_errors_selected utf8 localeCompare rootLogUri root limit w :
  (∃ rest,
     (getRecentErrors utf8 localeCompare rootLogUri root limit w).1 ++ rest
     ≡ₚ errorsOf utf8 localeCompare root) ∧
  Forall (λ e, level e = LevelError ∧
               ∃ extId, extId ∈ getLoggedExtensions root ∧
                        e ∈ getLogs utf8 localeCompare root extId)
    (getRecentErrors utf8 localeCompare rootLogUri root limit w).1 ∧
  length (getRecentErrors utf8 localeCompare rootLogUri root limit w).1 =
    (if (default 50 limit <? 0)%Z
     then Z.to_nat (Z.of_nat (length (errorsOf utf8 localeCompare root))
                    + default 50%Z limit)
     else Z.to_nat (default 50%Z limit)
          `min` length (errorsOf utf8 localeCompare root)).
Proof.
  rewrite getRecentErrors_run. cbn [fst].
  destruct (sliceFromStart_take (default 50%Z limit)
    (Js.sortStable (timestampGe localeCompare)
       (errorsOf utf8 localeCompare root)))
    as (n & -> & Hn).
  assert (∃ rest,
    take n (Js.sortStable (timestampGe localeCompare)
              (errorsOf utf8 localeCompare root)) ++ rest
    ≡ₚ errorsOf utf8 localeCompare root) as Hrest.
  { eexists. rewrite take_drop. apply sortStable_Permutation. }
  split_and!; [done| |].
  - destruct Hrest as [rest Hrest]. apply Forall_forall. intros e He.
    apply errorsOf_elem. rewrite <- Hrest. apply elem_of_app. by left.
  - rewrite length_take, Hn.
    rewrite (Permutation_length (sortStable_Permutation _ _)).
    destruct (default 50%Z limit <? 0)%Z eqn:Hneg; [|done].
    apply Z.ltb_lt in Hneg. lia.
Qed.

(** X14. Scanning for recent errors shows one information message naming
    the root log directory when that directory is known and none
    otherwise, and changes nothing else of the host: no document, no
    clipboard, no edit request. *)
Theorem recent_errors_only_notifies utf8 localeCompare rootLogUri root limit w :
  sameButNotifications w
    (getRecentErrors utf8 localeCompare rootLogUri root limit w).2 ∧
  notifications (getRecentErrors utf8 localeCompare rootLogUri root limit w).2 =
  notifications w ++ scanning rootLogUri.
Proof.
  rewrite getRecentErrors_run. cbn [snd]. destruct rootLogUri as [p|]; cbn.
  - split; [apply withNotification_same | done].
  - split; [apply sameButNotifications_refl | by rewrite app_nil_r].
Qed.

(** X15. Under a collation that orders timestamps consistently the recent
    errors come in descending order of their timestamps, whatever the
    limit. *)
Theorem recent_errors_newest_first utf8 localeCompare rootLogUri root limit w
  (Hcmp : consistent localeCompare) :
  StronglySorted (timestampGe localeCompare)
    (getRecentErrors utf8 localeCompare rootLogUri root limit w).1.
Proof.
  rewrite getRecentErrors_run. cbn [fst].
  destruct (sliceFromStart_take (default 50%Z limit)
    (Js.sortStable (timestampGe localeCompare)
       (errorsOf utf8 localeCompare root)))
    as (n & -> & _).
  apply StronglySorted_take.
  pose proof (timestampGe_total _ Hcmp). pose proof (timestampGe_trans _ Hcmp).
  by apply StronglySorted_sortStable.
Qed.

End LogReading.

(** ** The combined detector *)

Section Combined.
Import Host ConflictDetector.

Lemma filter_all {C} (P : C → Prop) `{!∀ c, Decision (P c)} (l : list C) :
  (∀ c, c ∈ l → P c) → filter P l = l.
Proof.
  induction l as [|c l IH]; intros Hl; [done|].
  rewrite filter_cons_True by (apply Hl, elem_of_cons; by left).
  f_equal. apply IH. intros c' ?. apply Hl, elem_of_cons. by right.
Qed.

Lemma detectCommandConflicts_shape all c :
  c ∈ detectCommandConflicts all →
  c_type c = TypeCommand ∧ severity c = Error ∧ extensionId c = None.
Proof.
  rewrite detectCommandConflicts_group.
  intros (entry & -> & _)%list_elem_of_fmap. done.
Qed.

Lemma detectKeybindingConflicts_shape all c :
  c ∈ detectKeybindingConflicts all →
  c_type c = TypeKeybinding ∧ severity c = Warning ∧ extensionId c = None.
Proof.
  rewrite detectKeybindingConflicts_group.
  intros (entry & -> & _)%list_elem_of_fmap. done.
Qed.

Lemma detectActivationConflicts_shape all c :
  c ∈ detectActivationConflicts all →
  c_type c = TypeActivation ∧ severity c = Warning ∧ extensionId c = None.
Proof.
  rewrite detectActivationConflicts_group.
  intros (entry & -> & _)%list_elem_of_fmap. done.
Qed.

Lemma detectRegistrationMismatches_shape runtimeCommands all c :
  c ∈ detectRegistrationMismatches runtimeCommands all →
  (c_type c = TypeRegistration ∧ is_Some (extensionId c)) ∨
  (c_type c = TypeActivation ∧ severity c = Warning ∧ extensionId c = None).
Proof.
  rewrite detectRegistrationMismatches_flat, list_elem_of_In, in_flat_map.
  intros (ext & _ & Hc). unfold extensionMismatches in Hc.
  destruct (isBuiltIn ext); [done|].
  apply in_app_or in Hc as [Hc|Hc].
  - apply in_flat_map in Hc as (cmd & _ & Hc). unfold commandMismatches in Hc.
    apply in_app_or in Hc as [Hc|Hc].
    + destruct (_ && _); [|done]. destruct Hc as [<-|[]]. left. by eauto.
    + destruct (_ && _); [|done]. destruct Hc as [<-|[]]. left. by eauto.
  - destruct (bool_decide _); [|done]. destruct Hc as [<-|[]]. by right.
Qed.

(** X16. The combined detector returns the outputs of the four detectors
    one after the other, so selecting by type recovers them: the conflicts
    of type [command] are the command detector's, those of type
    [keybinding] the keybinding detector's, those of type [registration]
    come from the registration detector alone, and those of type
    [activation] are the activation detector's followed by the
    registration detector's eager-activation warnings.  Throughout the
    output a conflict carries a component id exactly when its type is
    [registration], and only command collisions and registration
    mismatches are errors. *)
Theorem detect_conflicts_by_type (runtimeCommands : gset string)
  (all : list Extension) :
  filter (λ c, c_type c = TypeCommand) (detectConflicts runtimeCommands all) =
    detectCommandConflicts all ∧
  filter (λ c, c_type c = TypeKeybinding) (detectConflicts runtimeCommands all) =
    detectKeybindingConflicts all ∧
  filter (λ c, c_type c = TypeRegistration)
      (detectConflicts runtimeCommands all) =
    filter (λ c, c_type c = TypeRegistration)
      (detectRegistrationMismatches runtimeCommands all) ∧
  filter (λ c, c_type c = TypeActivation) (detectConflicts runtimeCommands all) =
    detectActivationConflicts all ++
    filter (λ c, c_type c = TypeActivation)
      (detectRegistrationMismatches runtimeCommands all) ∧
  Forall wellTyped (detectConflicts runtimeCommands all).
Proof.
  pose proof (detectCommandConflicts_shape all) as Hc.
  pose proof (detectKeybindingConflicts_shape all) as Hk.
  pose proof (detectActivationConflicts_shape all) as Ha.
  pose proof (detectRegistrationMismatches_shape runtimeCommands all) as Hr.
  unfold detectConflicts. rewrite !filter_app. split_and!.
  - rewrite (filter_all _ (detectCommandConflicts all))
      by (intros c ?; by apply Hc).
    rewrite !filter_none, !app_nil_r; [done|..].
    + intros c [[? _]|[? _]]%Hr; congruence.
    + intros c (? & _)%Ha; congruence.
    + intros c (? & _)%Hk; congruence.
  - rewrite (filter_all _ (detectKeybindingConflicts all))
      by (intros c ?; by apply Hk).
    rewrite (filter_none _ (detectCommandConflicts all))
      by (intros c (? & _)%Hc; congruence).
    rewrite !filter_none, !app_nil_r; [done|..].
    + intros c [[? _]|[? _]]%Hr; congruence.
    + intros c (? & _)%Ha; congruence.
  - rewrite (filter_none _ (detectCommandConflicts all))
      by (intros c (? & _)%Hc; congruence).
    rewrite (filter_none _ (detectKeybindingConflicts all))
      by (intros c (? & _)%Hk; congruence).
    rewrite (filter_none _ (detectActivationConflicts all))
      by (intros c (? & _)%Ha; congruence).
    done.
  - rewrite (filter_none _ (detectCommandConflicts all))
      by (intros c (? & _)%Hc; congruence).
    rewrite (filter_none _ (detectKeybindingConflicts all))
      by (intros c (? & _)%Hk; congruence).
    rewrite (filter_all _ (detectActivationConflicts all))
      by (intros c ?; by apply Ha).
    done.
  - rewrite !Forall_app, !Forall_forall. unfold wellTyped. split_and!.
    + intros c (Ht & Hs & He)%Hc. rewrite Ht, He. split; [|by auto].
      split; [by intros [? ?] | done].
    + intros c (Ht & Hs & He)%Hk. rewrite Ht, He, Hs. split; [|done].
      split; [by intros [? ?] | done].
    + intros c (Ht & Hs & He)%Ha. rewrite Ht, He, Hs. split; [|done].
      split; [by intros [? ?] | done].
    + intros c [[Ht He]|(Ht & Hs & He)]%Hr.
      * rewrite Ht. split; [done | by auto].
      * rewrite Ht, He, Hs. split; [|done].
        split; [by intros [? ?] | done].
Qed.

End Combined.

(** ** The parser as a grouping of lines *)

Section ParserBlocks.
Import LogMonitor.

Lemma withMore_nil e : withMore e EmptyString = e.
Proof. destruct e. unfold withMore. cbn. by rewrite string_app_nil_r. Qed.

Lemma withMore_continued e line more :
  withMore (continued e line) more = withMore e ((newline +:+ line) +:+ more).
Proof.
  unfold withMore, continued. cbn. f_equal. by rewrite string_app_assoc.
Qed.

Lemma fold_parseLine_blocks source lines entries e :
  fold_left (parseLine source) lines (entries ++ [e]) =
  entries ++ withMore e (continuation lines) :: blocks source lines.
Proof.
  revert entries e. induction lines as [|line rest IH]; intros entries e.
  - cbn. by rewrite withMore_nil.
  - cbn [fold_left continuation blocks].
    destruct (matchLine line) as [[[[m1 m2] m3] m4]|] eqn:Hm.
    + rewrite (parseLine_header _ _ _ m1 m2 m3 m4) by done.
      rewrite IH, withMore_nil. by rewrite <- app_assoc.
    + unfold parseLine at 2. rewrite Hm.
      rewrite bool_decide_eq_true_2 by (rewrite length_app; cbn; lia).
      rewrite andb_true_r. destruct (Js.trimNonEmpty line).
      * by rewrite appendToLast_snoc, IH, withMore_continued.
      * by rewrite IH.
Qed.

Lemma fold_parseLine_blocks_nil source lines :
  fold_left (parseLine source) lines [] = blocks source lines.
Proof.
  induction lines as [|line rest IH]; [done|].
  cbn [fold_left blocks].
  destruct (matchLine line) as [[[[m1 m2] m3] m4]|] eqn:Hm.
  - rewrite (parseLine_header _ _ _ m1 m2 m3 m4) by done.
    by rewrite fold_parseLine_blocks.
  - unfold parseLine at 2. rewrite Hm. by rewrite andb_false_r.
Qed.

(** X17. The parser's loop computes a grouping of the lines: one entry
    per header line, whose message is the header's message followed by a
    line feed and the line for every line that is not blank between this
    header line and the next; blank lines, and all lines before the first
    header line, leave no trace. *)
Theorem parse_groups_lines (content source : string) :
  parseLogContent content source = blocks source (Js.splitLines content).
Proof. unfold parseLogContent. apply fold_parseLine_blocks_nil. Qed.

End ParserBlocks.

(** ** The source of an entry *)

Section SourceAttribution.
Import LogMonitor.

Lemma blocks_sources sourceId lines :
  LogMonitor.source <$> blocks sourceId lines =
  sourceFor sourceId <$> omap channelOf lines.
Proof.
  induction lines as [|line rest IH]; [done|].
  cbn [blocks omap list_omap]. unfold channelOf at 1.
  destruct (matchLine line) as [[[[m1 m2] m3] m4]|]; [|apply IH].
  csimpl. by rewrite IH.
Qed.

(** ** C10 *)

(** C10.  The sources of the entries the parser produces are, line by
    line in the order of the content, what the channel tokens of the
    matching lines determine: the source id passed to the parser for the
    token [exthost], the token itself for any other token.  So an entry's
    source is the passed source id exactly when its line's token is
    [exthost] or is that id itself.  [getLogs] returns only entries parsed
    with the requested id from the log files of the requested source's
    directory, so it can return entries whose source differs from the
    requested id, as it does for a file whose only line has channel
    [main]. *)
Theorem log_source_from_channel :
  (∀ content sourceId,
     LogMonitor.source <$> parseLogContent content sourceId =
     sourceFor sourceId <$> omap channelOf (Js.splitLines content)) ∧
  (∀ sourceId channel,
     (channel = "exthost" → sourceFor sourceId channel = sourceId) ∧
     (channel ≠ "exthost" → sourceFor sourceId channel = channel) ∧
     (sourceFor sourceId channel = sourceId ↔
      channel = "exthost" ∨ channel = sourceId)) ∧
  (∀ utf8 localeCompare root sourceId e,
     e ∈ getLogs utf8 localeCompare root sourceId →
     ∃ entries file,
       readDirectory root sourceId = Some entries ∧
       file ∈ entries ∧ isLogFile file = true ∧
       e ∈ parseLogContent (readFile utf8 (Some file.2)) sourceId) ∧
  (∃ root sourceId e,
     e ∈ getLogs latin1 codeUnitCompare root sourceId ∧
     LogMonitor.source e ≠ sourceId).
Proof.
  split_and!.
  - intros content sourceId. unfold parseLogContent.
    rewrite fold_parseLine_blocks_nil. apply blocks_sources.
  - intros sourceId channel. unfold sourceFor.
    case_decide as Hc; split_and!; try done.
    + split; [by intros _; left | done].
    + split; [by right | by intros [?|?]].
  - apply getLogs_elem.
  - exists (Some [("my.ext",
              SourceDirectory
                [("output.log",
                  File (String.list_byte_of_string "[t] [main] [info] hi"))])]),
      "my.ext",
      {| timestamp := "t"; level := LevelInfo; message := "hi";
         source := "main" |}.
    split; [|done].
    assert (getLogs latin1 codeUnitCompare
              (Some [("my.ext",
                SourceDirectory
                  [("output.log",
                    File (String.list_byte_of_string "[t] [main] [info] hi"))])])
              "my.ext" =
            [{| timestamp := "t"; level := LevelInfo; message := "hi";
                source := "main" |}]) as -> by (by vm_compute).
    apply list_elem_of_singleton. done.
Qed.

(** A line whose channel token is the requested id itself: the entry's
    source is the requested id although the token is not [exthost]. *)
Lemma log_source_requested_without_exthost :
  ¬ (∀ sourceId line m1 m2 m3 m4 e,
       matchLine line = Some (m1, m2, m3, m4) →
       parseLogContent line sourceId = [e] →
       LogMonitor.source e = sourceId → m2 = "exthost").
Proof.
  intros H.
  specialize (H "my.ext" "[t] [my.ext] [info] hi" "t" "my.ext" "info" "hi"
    {| timestamp := "t"; level := LevelInfo; message := "hi";
       source := "my.ext" |}).
  assert ("my.ext" = "exthost") as E; [|discriminate E].
  apply H; by vm_compute.
Qed.

End SourceAttribution.

(** ** Further concrete instances *)

Section FurtherInstances.
Import Host ConflictDetector LogMonitor.

Lemma registration_missing_activation_witness :
  filter (isMissingOf fooExtension "foo.bar")
    (detectRegistrationMismatches ∅ [fooExtension]) =
  [missingActivationEvent fooExtension "foo.bar"].
Proof.
  refine (eq_trans
    (registration_missing_activation ∅ [fooExtension] fooExtension "foo.bar"
       _ _ _) _).
  - apply NoDup_singleton.
  - apply list_elem_of_singleton. reflexivity.
  - reflexivity.
  - vm_compute. reflexivity.
Defined.

Lemma batch_fix_silences_warnings_witness :
  ∃ json',
    applyReplacements
      (patchGroup []
         (ext_id fooExtension,
          default [] (JsMap.get (ext_id fooExtension)
                        (extensionGroupsOf fooWorld))) fooWorld).1
      (documents fooWorld) !! packageJsonUriOf fooExtension =
      Some (Json json') ∧
    json_rest json' = "foo" ∧
    ∀ c, c ∈ detectRegistrationMismatches ∅
               [withActivationEvents fooExtension
                  (default [] (json_activationEvents json'))] →
         c_type c = TypeRegistration → severity c = Error.
Proof.
  refine (batch_fix_silences_warnings fooWorld fooExtension
    {| json_activationEvents := None; json_rest := "foo" |} ∅ _ _ _ _ _ _).
  - apply NoDup_singleton.
  - apply list_elem_of_singleton. reflexivity.
  - reflexivity.
  - discriminate.
  - vm_compute. reflexivity.
  - intros e He. vm_compute in He. by apply elem_of_nil in He.
Defined.

Lemma logs_collected_and_sorted_witness :
  StronglySorted (timestampLe codeUnitCompare)
    (getLogs latin1 codeUnitCompare oneSourceRoot "my.ext").
Proof.
  refine (proj2
    (logs_collected_and_sorted latin1 codeUnitCompare oneSourceRoot "my.ext" _)).
  exact codeUnitCompare_consistent.
Defined.

Lemma recent_errors_newest_first_witness :
  StronglySorted (timestampGe codeUnitCompare)
    (getRecentErrors latin1 codeUnitCompare (Some "/logs/exthost1")
       oneSourceRoot None fooWorld).1.
Proof.
  refine (recent_errors_newest_first latin1 codeUnitCompare
    (Some "/logs/exthost1") oneSourceRoot None fooWorld _).
  exact codeUnitCompare_consistent.
Defined.

End FurtherInstances.
